(** * fish-begol: the GF(2) vector kernel and the three-party share layer

    A shallow embedding of [mzd_additional.c] and [mpc.c].

    - a machine [word] (m4ri's [uint64_t]) is a [Z] in [0, 2^64), with the
      wrap-around of left shifts written out;
    - an [mzd_t] is a record with the descriptor fields of the C struct and
      one list of words per row;
    - a destination that the C code updates in place is passed in and the
      updated object is returned; a destination pointer that may be [NULL]
      is an [option];
    - the build switch [WITH_OPT] and the CPU feature flags are parameters
      of the whole development (a [Section] variable). *)

From Stdlib Require Import ZArith List Bool Lia ZifyNat Btauto.
Import ListNotations.

Local Open Scope Z_scope.

#[local] Set Default Proof Using "Type".

(** ** Words *)

(** m4ri.h: [m4ri_radix] is the number of bits of a [word]. *)
Definition m4ri_radix : nat := 64.

(** m4ri.h: [m4ri_ffff], the word with all bits set. *)
Definition m4ri_ffff : Z := Z.ones 64.

(** A value of type [word]. *)
Definition word_ok (z : Z) : Prop := 0 <= z < 2 ^ 64.

Definition word_okb (z : Z) : bool := (0 <=? z) && (z <? 2 ^ 64).

(** Truncation of an unsigned result to the width of a [word]. *)
Definition wrap (z : Z) : Z := z mod 2 ^ 64.

(** [x << n] and [x >> n] on words, for a count below the word width. *)
Definition word_shl (x n : Z) : Z := wrap (Z.shiftl x n).
Definition word_shr (x n : Z) : Z := Z.shiftr x n.

(** m4ri.h: [__M4RI_LEFT_BITMASK(n)] is
    [m4ri_ffff >> (m4ri_radix - n) % m4ri_radix]: the low [n] bits for
    [0 < n < 64], every bit for [n = 0]. *)
Definition LEFT_BITMASK (n : nat) : Z :=
  word_shr m4ri_ffff (Z.of_nat ((m4ri_radix - n) mod m4ri_radix)).

(** ** Arrays *)

(** [p[i]] read from an array of words. *)
Definition rd (l : list Z) (i : nat) : Z := nth i l 0.

(** [p[i] = x].  A store past the end of the array is undefined in C; the
    model drops it. *)
Fixpoint upd {A : Type} (l : list A) (i : nat) (x : A) : list A :=
  match l, i with
  | [], _ => []
  | _ :: t, O => x :: t
  | h :: t, S j => h :: upd t j x
  end.

(** ** The matrix descriptor *)

(** The fields of m4ri's [mzd_t] that the repository reads or writes.
    [rows] holds, for every row pointer, the [width] words it points to; the
    alignment slack between [width] and [rowstride] is never read. *)
Record mzd_t : Type := mk_mzd {
  nrows : nat;
  ncols : nat;
  width : nat;
  rowstride : nat;
  flags : Z;
  high_bitmask : Z;
  rows : list (list Z)
}.

Definition mzd_flag_custom_layout : Z := 0x40.

(** m4ri's [mzd_flag_nonzero_excess]. *)
Definition mzd_flag_nonzero_excess : Z := 0x2.

Definition avx_bound : nat := 256 / 64.
Definition sse_bound : nat := 128 / 64.
Definition word_size_bits : nat := 64.

(** [rows[i]], the words of row [i]. *)
Definition row (m : mzd_t) (i : nat) : list Z := nth i (rows m) [].

Definition set_row (m : mzd_t) (i : nat) (r : list Z) : mzd_t :=
  mk_mzd (nrows m) (ncols m) (width m) (rowstride m) (flags m)
         (high_bitmask m) (upd (rows m) i r).

(** [calculate_rowstride]: the row length in words, rounded up to 32 bytes
    from the AVX bound on and to 16 bytes below it ([sizeof(word) = 8]).
    This is the arithmetic of the function on mathematical integers: its
    value as long as the rounded width fits in [rci_t], which is the case
    for the width of every matrix whose number of columns is an [rci_t].
    [calculate_rowstride_rci] below writes out the machine types. *)
Definition calculate_rowstride (w : nat) : nat :=
  if (avx_bound <=? w)%nat
  then Z.to_nat (Z.land (Z.of_nat w * 8 + 31) (Z.lnot 31) / 8)
  else Z.to_nat (Z.land (Z.of_nat w * 8 + 15) (Z.lnot 15) / 8).

(** [mzd_local_init]: an [r] x [c] matrix, every word zero. *)
Definition mzd_local_init (r c : nat) : mzd_t :=
  let w := ((c + m4ri_radix - 1) / m4ri_radix)%nat in
  let hb := LEFT_BITMASK (c mod m4ri_radix) in
  mk_mzd r c w (calculate_rowstride w)
         (Z.lor mzd_flag_custom_layout
                (if hb =? m4ri_ffff then 0 else mzd_flag_nonzero_excess))
         hb
         (repeat (repeat 0 w) r).

(** Modelled from the spec: [mzd_local_init_ex] is called by [mpc.c] but its
    definition is not among the sources.  It builds the descriptor of
    [mzd_local_init] and zeroes the buffer only when [clear] is set;
    otherwise the words keep whatever the allocator left there, here the
    words of [junk]. *)
Definition mzd_local_init_ex (r c : nat) (clear : bool) (junk : nat -> nat -> Z)
  : mzd_t :=
  let m := mzd_local_init r c in
  if clear then m
  else mk_mzd (nrows m) (ncols m) (width m) (rowstride m) (flags m)
              (high_bitmask m)
              (map (fun i => map (fun k => wrap (junk i k)) (seq 0 (width m)))
                   (seq 0 r)).

(** ** Build configuration and external collaborators *)

(** The compile-time switch [WITH_OPT] and the CPU feature macros of
    [simd.h]; the dispatch of every kernel entry point reads them. *)
Record build_t : Type := mk_build {
  WITH_OPT : bool;
  CPU_SUPPORTS_AVX2 : bool;
  CPU_SUPPORTS_SSE2 : bool
}.

(** The random source behind [rand_bytes] ([randomness.h]): an unbounded
    tape of words and the position of the next unread one. *)
Record rng_t : Type := mk_rng {
  tape : nat -> Z;
  pos : nat
}.

(** [rand_bytes(buf, n * sizeof(word))]: the next [n] words of the tape. *)
Definition rand_bytes (n : nat) (g : rng_t) : list Z * rng_t :=
  (map (fun k => wrap (tape g (pos g + k))) (seq 0 n),
   mk_rng (tape g) (pos g + n)).

(** ** Word loops *)

(** [while (width--) *resptr++ = *firstptr++ op *secondptr++;] started at
    offset [i].  Every word is read before the same offset is written, so
    the loop computes the same words when [res] is one of the operands. *)
Fixpoint word_loop (op : Z -> Z -> Z) (n i : nat) (res f s : list Z)
  : list Z :=
  match n with
  | O => res
  | S n' => word_loop op n' (S i) (upd res i (op (rd f i) (rd s i))) f s
  end.

(** The vector loop of the SSE and AVX variants:
    [do { mres[k] = op(mfirst[k], msecond[k]); ++k; width -= lane; }
     while (width >= bound);]
    where a vector register holds [lane] words and the intrinsic applies
    [op] to each of them.  It yields the remaining width, the offset
    reached and the destination. *)
Fixpoint lane_loop (op : Z -> Z -> Z) (lane bound fuel w i : nat)
         (res f s : list Z) : nat * nat * list Z :=
  match fuel with
  | O => (w, i, res)
  | S fuel' =>
      let res' := word_loop op lane i res f s in
      let w' := (w - lane)%nat in
      let i' := (i + lane)%nat in
      if (bound <=? w')%nat
      then lane_loop op lane bound fuel' w' i' res' f s
      else (w', i', res')
  end.

(** Body shared by [mzd_and_sse], [mzd_and_avx], [mzd_xor_sse] and
    [mzd_xor_avx]: the vector loop when the width reaches the bound, then
    the word loop on what is left.  The vector loop runs at most [wd]
    times, since each round takes [lane] words off the width. *)
Definition simd_region (op : Z -> Z -> Z) (lane bound wd : nat)
           (res f s : list Z) : list Z :=
  let '(w, i, r) :=
    if (bound <=? wd)%nat
    then lane_loop op lane bound wd wd 0 res f s
    else (wd, 0%nat, res) in
  word_loop op w i r f s.

(** [memcpy(d, s, n * sizeof(word))]. *)
Fixpoint memcpy (n i : nat) (d s : list Z) : list Z :=
  match n with
  | O => d
  | S n' => memcpy n' (S i) (upd d i (rd s i)) s
  end.

(** The loop of [mzd_shift_right]: [resptr] and [valptr] advance together,
    [p] is their common offset. *)
Fixpoint shift_right_loop (n p : nat) (count left_count : Z)
         (res val : list Z) : nat * list Z :=
  match n with
  | O => (p, res)
  | S n' =>
      let tmp := word_shr (rd val p) count in
      shift_right_loop n' (S p) count left_count
        (upd res p (Z.lor tmp (word_shl (rd val (S p)) left_count))) val
  end.

(** The loop of [mzd_shift_left]: both pointers walk down from the last
    word. *)
Fixpoint shift_left_loop (n p : nat) (count right_count : Z)
         (res val : list Z) : nat * list Z :=
  match n with
  | O => (p, res)
  | S n' =>
      let tmp := word_shl (rd val p) count in
      shift_left_loop n' (p - 1) count right_count
        (upd res p (Z.lor tmp (word_shr (rd val (p - 1)) right_count))) val
  end.

(** Arithmetic on [unsigned int]. *)
Definition uint_sub (a b : Z) : Z := (a - b) mod 2 ^ 32.

Section Kernel.

Variable cfg : build_t.

(** m4ri's [mzd_copy], the fallback of [mzd_local_copy] for a destination
    that the repository did not allocate.  It belongs to the library, not to
    the repository. *)
Variable mzd_copy : mzd_t -> mzd_t -> mzd_t.

Definition has_custom_layout (m : mzd_t) : bool :=
  negb (Z.land (flags m) mzd_flag_custom_layout =? 0).

(** [mzd_local_copy].  The shortcut for [dst == src] returns the object
    unchanged, which is also what copying it onto itself gives. *)
Definition mzd_local_copy (dst : option mzd_t) (src : mzd_t) : mzd_t :=
  let dst := match dst with
             | Some d => d
             | None => mzd_local_init (nrows src) (ncols src)
             end in
  if has_custom_layout dst && (nrows src <=? nrows dst)%nat
     && (ncols dst =? ncols src)%nat
  then fold_left
         (fun d i => set_row d i (memcpy (width src) 0 (row d i) (row src i)))
         (seq 0 (nrows src)) dst
  else mzd_copy dst src.

(** [mzd_randomize_ssl]: every row is filled from the random source and its
    last word is masked. *)
Definition mzd_randomize_ssl (val : mzd_t) (g : rng_t) : mzd_t * rng_t :=
  let mask_end := high_bitmask val in
  fold_left
    (fun (st : mzd_t * rng_t) i =>
       let '(v, g) := st in
       let '(ws, g') := rand_bytes (width val) g in
       let r := memcpy (width val) 0 (row v i) ws in
       (set_row v i
          (upd r (width val - 1) (Z.land (rd r (width val - 1)) mask_end)),
        g'))
    (seq 0 (nrows val)) (val, g).

(** [mzd_shift_right]; the count is below the word width by contract. *)
Definition mzd_shift_right (res val : mzd_t) (count : Z) : mzd_t :=
  if count =? 0 then mzd_local_copy (Some res) val
  else
    let nwords := width val in
    let left_count := uint_sub (8 * 8) count in
    let '(p, r) := shift_right_loop (nwords - 1) 0 count left_count
                     (row res 0) (row val 0) in
    set_row res 0 (upd r p (word_shr (rd (row val 0) p) count)).

(** [mzd_shift_left]. *)
Definition mzd_shift_left (res val : mzd_t) (count : Z) : mzd_t :=
  if count =? 0 then mzd_local_copy (Some res) val
  else
    let nwords := width val in
    let right_count := uint_sub (8 * 8) count in
    let '(p, r) := shift_left_loop (nwords - 1) (nwords - 1) count right_count
                     (row res 0) (row val 0) in
    set_row res 0 (upd r p (word_shl (rd (row val 0) p) count)).

(** [mzd_and_sse] and [mzd_and_avx]: no mask on the last word. *)
Definition mzd_and_sse (res first second : mzd_t) : mzd_t :=
  set_row res 0
    (simd_region Z.land 2 sse_bound (width first)
       (row res 0) (row first 0) (row second 0)).

Definition mzd_and_avx (res first second : mzd_t) : mzd_t :=
  set_row res 0
    (simd_region Z.land 4 avx_bound (width first)
       (row res 0) (row first 0) (row second 0)).

(** The dispatch test of [mzd_and] and [mzd_xor]. *)
Definition use_avx (first : mzd_t) : bool :=
  WITH_OPT cfg && CPU_SUPPORTS_AVX2 cfg && (256 <=? ncols first)%nat
  && (ncols first mod word_size_bits =? 0)%nat.

Definition use_sse (first : mzd_t) : bool :=
  WITH_OPT cfg && CPU_SUPPORTS_SSE2 cfg
  && (ncols first mod word_size_bits =? 0)%nat.

(** The portable tail of [mzd_and] and [mzd_xor]: the word loop, then
    [*(resptr - 1) &= mask]. *)
Definition masked_loop (op : Z -> Z -> Z) (res first second : mzd_t) : mzd_t :=
  let wd := width first in
  let mask := high_bitmask first in
  let r := word_loop op wd 0 (row res 0) (row first 0) (row second 0) in
  set_row res 0 (upd r (wd - 1) (Z.land (rd r (wd - 1)) mask)).

(** [mzd_and]. *)
Definition mzd_and (res : option mzd_t) (first second : mzd_t) : mzd_t :=
  let res := match res with
             | Some r => r
             | None => mzd_local_init 1 (ncols first)
             end in
  if use_avx first then mzd_and_avx res first second
  else if use_sse first then mzd_and_sse res first second
  else masked_loop Z.land res first second.

Definition mzd_xor_sse (res first second : mzd_t) : mzd_t :=
  set_row res 0
    (simd_region Z.lxor 2 sse_bound (width first)
       (row res 0) (row first 0) (row second 0)).

Definition mzd_xor_avx (res first second : mzd_t) : mzd_t :=
  set_row res 0
    (simd_region Z.lxor 4 avx_bound (width first)
       (row res 0) (row first 0) (row second 0)).

(** [mzd_xor]. *)
Definition mzd_xor (res : option mzd_t) (first second : mzd_t) : mzd_t :=
  let res := match res with
             | Some r => r
             | None => mzd_local_init 1 (ncols first)
             end in
  if use_avx first then mzd_xor_avx res first second
  else if use_sse first then mzd_xor_sse res first second
  else masked_loop Z.lxor res first second.

(** m4ri's inline [mzd_row_clear_offset(M, row, coloffset)] for a
    [coloffset] on a word boundary, as in its only call here (column 0):
    the words of the row from [coloffset / m4ri_radix] up to [width] are set
    to zero. *)
Fixpoint clear_words (n i : nat) (r : list Z) : list Z :=
  match n with
  | O => r
  | S n' => clear_words n' (S i) (upd r i 0)
  end.

Definition mzd_row_clear_offset (M : mzd_t) (r coloffset : nat) : mzd_t :=
  let startblock := (coloffset / m4ri_radix)%nat in
  set_row M r
    (clear_words (width M - (startblock + 1)) (startblock + 1)
       (upd (row M r) startblock 0)).

(** [for (i = 0; i < n; ++i) cptr[i] ^= Aptr[i];] *)
Fixpoint xor_into (n i : nat) (c a : list Z) : list Z :=
  match n with
  | O => c
  | S n' => xor_into n' (S i) (upd c i (Z.lxor (rd c i) (rd a i))) a
  end.

(** The body of [if (idx & 0x1)] in the portable loop of [mzd_addmul_v]:
    one row of [A] is added to [c], the last word under the mask. *)
Definition addmul_row (len : nat) (mask : Z) (c a : list Z) : list Z :=
  let c1 := xor_into (len - 1) 0 c a in
  upd c1 (len - 1) (Z.land (Z.lxor (rd c1 (len - 1)) (rd a (len - 1))) mask).

(** [while (idx) { if (idx & 0x1) {...} Aptr += rowstride; idx >>= 1; }].
    The rows of [A] lie [rowstride] words apart in its buffer
    ([mzd_local_init] places them so), hence [Aptr] is kept as the index of
    the row it points to and [Aptr += rowstride] moves to the next row.
    A word has 64 bits, so 64 rounds exhaust [idx]. *)
Fixpoint addmul_bits (A : mzd_t) (len : nat) (mask : Z) (fuel : nat)
         (idx : Z) (Aptr : nat) (c : list Z) : list Z :=
  match fuel with
  | O => c
  | S fuel' =>
      if idx =? 0 then c
      else
        let c' := if negb (Z.land idx 1 =? 0)
                  then addmul_row len mask c (row A Aptr)
                  else c in
        addmul_bits A len mask fuel' (Z.shiftr idx 1) (S Aptr) c'
  end.

(** The portable path of [mzd_addmul_v]. *)
Definition mzd_addmul_v_scalar (c v A : mzd_t) : mzd_t :=
  let len := width A in
  let mask := high_bitmask A in
  set_row c 0
    (fold_left
       (fun cptr w =>
          addmul_bits A len mask 64 (rd (row v 0) w) (w * 8 * 8) cptr)
       (seq 0 (width v)) (row c 0)).

(** The [switch (idx & 0x0F)] of the vector paths: for every nibble, the
    rows (counted from [mAptr], in units of [mrowstride]) that the case
    adds to [c], in the order of its statements. *)
Definition nibble_rows (n : Z) : list nat :=
  match n with
  | 0x00 => []
  | 0x01 => [0]%nat
  | 0x02 => [1]%nat
  | 0x03 => [0; 1]%nat
  | 0x04 => [2]%nat
  | 0x05 => [0; 2]%nat
  | 0x06 => [1; 2]%nat
  | 0x07 => [0; 1; 2]%nat
  | 0x08 => [3]%nat
  | 0x09 => [0; 3]%nat
  | 0x0a => [1; 3]%nat
  | 0x0b => [0; 1; 3]%nat
  | 0x0c => [2; 3]%nat
  | 0x0d => [0; 2; 3]%nat
  | 0x0e => [1; 2; 3]%nat
  | 0x0f => [0; 1; 2; 3]%nat
  | _ => []
  end.

(** Modelled from the spec: [mm128_xor_region] and [mm256_xor_region] live in
    [simd.h], which is not among the sources.  [xor_region(dst, src, len)]
    adds [len] vector registers of [src] to [dst]; [lane] is the number of
    words in a register. *)
Definition xor_region (lane len : nat) (c a : list Z) : list Z :=
  xor_into (len * lane) 0 c a.

(** [while (idx) { switch (idx & 0x0F) {...} mAptr += 4 * mrowstride;
    idx >>= 4; }].  [mrowstride] registers are [rowstride] words, one row,
    so [mAptr + k * mrowstride] is row [Aptr + k]; 16 rounds exhaust [idx]. *)
Fixpoint addmul_nibbles (A : mzd_t) (lane len fuel : nat) (idx : Z)
         (Aptr : nat) (c : list Z) : list Z :=
  match fuel with
  | O => c
  | S fuel' =>
      if idx =? 0 then c
      else
        let c' := fold_left
                    (fun c k => xor_region lane len c (row A (Aptr + k)))
                    (nibble_rows (Z.land idx 0x0F)) c in
        addmul_nibbles A lane len fuel' (Z.shiftr idx 4) (Aptr + 4) c'
  end.

(** [mzd_addmul_v_sse] ([lane = 2]) and [mzd_addmul_v_avx] ([lane = 4]);
    [len] is [A->width * sizeof(word)] over the size of a register. *)
Definition mzd_addmul_v_simd (lane : nat) (c v A : mzd_t) : mzd_t :=
  let len := (width A * 8 / (lane * 8))%nat in
  set_row c 0
    (fold_left
       (fun cptr w =>
          addmul_nibbles A lane len 16 (rd (row v 0) w) (w * 8 * 8) cptr)
       (seq 0 (width v)) (row c 0)).

(** [mzd_addmul_v]: [None] is the [NULL] result, returned before [c] is
    touched. *)
Definition mzd_addmul_v (c v A : mzd_t) : option mzd_t :=
  if negb (ncols A =? ncols c)%nat || negb (nrows A =? ncols v)%nat
  then None
  else if WITH_OPT cfg && (nrows A mod (8 * 8) =? 0)%nat
          && CPU_SUPPORTS_AVX2 cfg
          && (Z.land (Z.of_nat (ncols A)) 0xff =? 0)
  then Some (mzd_addmul_v_simd 4 c v A)
  else if WITH_OPT cfg && (nrows A mod (8 * 8) =? 0)%nat
          && CPU_SUPPORTS_SSE2 cfg
          && (Z.land (Z.of_nat (ncols A)) 0x7f =? 0)
  then Some (mzd_addmul_v_simd 2 c v A)
  else Some (mzd_addmul_v_scalar c v A).

(** [mzd_mul_v].  The first component is the value returned ([None] for
    [NULL]); the second is the caller's destination object as the call
    leaves it ([None] when no destination was passed). *)
Definition mzd_mul_v (c : option mzd_t) (v At : mzd_t)
  : option mzd_t * option mzd_t :=
  if negb (nrows At =? ncols v)%nat then (None, c)
  else
    match c with
    | None => (mzd_addmul_v (mzd_local_init 1 (ncols At)) v At, None)
    | Some c0 =>
        let c1 := mzd_row_clear_offset c0 0 0 in
        match mzd_addmul_v c1 v At with
        | None => (None, Some c1)
        | Some c2 => (Some c2, Some c2)
        end
    end.

(** ** The share layer ([mpc.c]) *)

(** [mpc.h]: the number of parties on the proving and on the verifying
    side. *)
Definition SC_PROOF : nat := 3.
Definition SC_VERIFY : nat := 2.

(** [view_t]: the three view vectors of one round. *)
Record view_t : Type := mk_view { s : list mzd_t }.

(** [a[m]] for an array of vector pointers. *)
Definition ix (a : list mzd_t) (m : nat) : mzd_t :=
  nth m a (mk_mzd 0 0 0 0 0 0 []).

Definition mpc_shift_right (res val : list mzd_t) (count : Z) (sc : nat)
  : list mzd_t :=
  fold_left
    (fun res i => upd res i (mzd_shift_right (ix res i) (ix val i) count))
    (seq 0 sc) res.

Definition mpc_shift_left (res val : list mzd_t) (count : Z) (sc : nat)
  : list mzd_t :=
  fold_left
    (fun res i => upd res i (mzd_shift_left (ix res i) (ix val i) count))
    (seq 0 sc) res.

(** [mpc_xor], written for a destination that is the first operand or a
    separate array. *)
Definition mpc_xor (res first second : list mzd_t) (sc : nat) : list mzd_t :=
  fold_left
    (fun res i =>
       upd res i (mzd_xor (Some (ix res i)) (ix first i) (ix second i)))
    (seq 0 sc) res.

(** The five-term sum that [mpc_and] and [mpc_and_verify] compute for party
    [m] with neighbour [j]; [b] is [buffer[0]]. *)
Definition and_round (first second r : list mzd_t) (m j : nat)
           (st : list mzd_t * list mzd_t) : list mzd_t * list mzd_t :=
  let '(res, buffer) := st in
  let res := upd res m (mzd_and (Some (ix res m)) (ix first m) (ix second m)) in
  let buffer :=
    upd buffer 0 (mzd_and (Some (ix buffer 0)) (ix first j) (ix second m)) in
  let res := upd res m (mzd_xor (Some (ix res m)) (ix res m) (ix buffer 0)) in
  let buffer :=
    upd buffer 0 (mzd_and (Some (ix buffer 0)) (ix first m) (ix second j)) in
  let res := upd res m (mzd_xor (Some (ix res m)) (ix res m) (ix buffer 0)) in
  let res := upd res m (mzd_xor (Some (ix res m)) (ix res m) (ix r m)) in
  let res := upd res m (mzd_xor (Some (ix res m)) (ix res m) (ix r j)) in
  (res, buffer).

(** [mpc_and]: the arrays [res], [buffer] and the view are distinct from
    the operands and from each other; the result is their final state. *)
Definition mpc_and (res first second r : list mzd_t) (view : view_t)
           (viewshift : Z) (buffer : list mzd_t)
  : list mzd_t * view_t * list mzd_t :=
  let '(res, buffer) :=
    fold_left
      (fun st m => and_round first second r m ((m + 1) mod SC_PROOF) st)
      (seq 0 SC_PROOF) (res, buffer) in
  let buffer := mpc_shift_right buffer res viewshift SC_PROOF in
  let view := mk_view (mpc_xor (s view) (s view) buffer SC_PROOF) in
  (res, view, buffer).

(** [mpc_and_verify]. *)
Definition mpc_and_verify (res first second r : list mzd_t) (view : view_t)
           (mask : mzd_t) (viewshift : Z) (buffer : list mzd_t)
  : list mzd_t * view_t * list mzd_t :=
  let '(res, buffer) :=
    fold_left
      (fun st m => and_round first second r m (m + 1) st)
      (seq 0 (SC_VERIFY - 1)) (res, buffer) in
  let '(vs, buffer) :=
    fold_left
      (fun (st : list mzd_t * list mzd_t) m =>
         let '(vs, buffer) := st in
         let buffer :=
           upd buffer 0 (mzd_shift_right (ix buffer 0) (ix res m) viewshift) in
         (upd vs m (mzd_xor (Some (ix vs m)) (ix vs m) (ix buffer 0)), buffer))
      (seq 0 (SC_VERIFY - 1)) (s view, buffer) in
  let res :=
    upd res (SC_VERIFY - 1)
      (mzd_shift_left (ix res (SC_VERIFY - 1)) (ix vs (SC_VERIFY - 1))
         viewshift) in
  let res :=
    upd res (SC_VERIFY - 1)
      (mzd_and (Some (ix res (SC_VERIFY - 1))) (ix res (SC_VERIFY - 1)) mask) in
  (res, mk_view vs, buffer).

(** [mpc_const_add]. *)
Definition mpc_const_add (result first : list mzd_t) (second : mzd_t)
           (sc c : nat) : list mzd_t :=
  if (c =? 0)%nat
  then upd result 0 (mzd_xor (Some (ix result 0)) (ix first 0) second)
  else if (c =? sc)%nat
  then upd result (sc - 1)
         (mzd_xor (Some (ix result (sc - 1))) (ix first (sc - 1)) second)
  else result.

(** [mpc_reconstruct_from_share]; [junk] is what a fresh, uncleared
    destination holds. *)
Definition mpc_reconstruct_from_share (dst : option mzd_t)
           (shared_vec : list mzd_t) (junk : nat -> nat -> Z) : mzd_t :=
  let dst := match dst with
             | Some d => d
             | None => mzd_local_init_ex (nrows (ix shared_vec 0))
                         (ncols (ix shared_vec 0)) false junk
             end in
  let dst := mzd_xor (Some dst) (ix shared_vec 0) (ix shared_vec 1) in
  mzd_xor (Some dst) dst (ix shared_vec 2).

(** Modelled from the spec: [mzd_local_init_multiple_ex] is called by
    [mpc.c] but not defined among the sources.  It creates [n] matrices in
    the way of [mzd_local_init_ex]. *)
Definition mzd_local_init_multiple_ex (n r c : nat) (clear : bool)
           (junk : nat -> nat -> nat -> Z) : list mzd_t :=
  map (fun k => mzd_local_init_ex r c clear (junk k)) (seq 0 n).

(** [mpc_init_share_vector]. *)
Definition mpc_init_share_vector (v : mzd_t) (junk : nat -> nat -> nat -> Z)
           (g : rng_t) : list mzd_t * rng_t :=
  let s := mzd_local_init_multiple_ex 3 1 (ncols v) false junk in
  let '(s0, g) := mzd_randomize_ssl (ix s 0) g in
  let s := upd s 0 s0 in
  let '(s1, g) := mzd_randomize_ssl (ix s 1) g in
  let s := upd s 1 s1 in
  let s := upd s 2 (mzd_xor (Some (ix s 2)) (ix s 0) (ix s 1)) in
  let s := upd s 2 (mzd_xor (Some (ix s 2)) (ix s 2) v) in
  (s, g).

End Kernel.

(** ** Reference operations and well-formedness *)

(** Word-by-word combination of two word arrays. *)
Fixpoint zipw (op : Z -> Z -> Z) (a b : list Z) : list Z :=
  match a, b with
  | x :: a', y :: b' => op x y :: zipw op a' b'
  | _, _ => []
  end.

(** Number of words and last-word mask of an [n]-column row, as
    [mzd_local_init] computes them. *)
Definition words_of (n : nat) : nat := ((n + m4ri_radix - 1) / m4ri_radix)%nat.
Definition mask_of (n : nat) : Z := LEFT_BITMASK (n mod m4ri_radix).

(** Number of significant bits in the last word of an [n]-column row. *)
Definition pad_bits (n : nat) : Z :=
  if (n mod m4ri_radix =? 0)%nat then 64 else Z.of_nat (n mod m4ri_radix).

(** The storage of a row: [wd] machine words. *)
Definition raw_rowb (wd : nat) (r : list Z) : bool :=
  (length r =? wd)%nat && forallb word_okb r.

(** The padding invariant for a row: the unused high bits of its last word
    are zero. *)
Definition pad_rowb (wd : nat) (mask : Z) (r : list Z) : bool :=
  Z.land (rd r (wd - 1)) mask =? rd r (wd - 1).

(** The shape of a matrix: at least one column, [width] and [high_bitmask]
    as [mzd_local_init] derives them from [ncols], one word array per row.
    Nothing is said about the padding bits; this is what a destination
    buffer has to offer. *)
Definition mzd_rawb (m : mzd_t) : bool :=
  (1 <=? ncols m)%nat
  && (width m =? words_of (ncols m))%nat
  && (high_bitmask m =? mask_of (ncols m))
  && (length (rows m) =? nrows m)%nat
  && forallb (raw_rowb (width m)) (rows m).

(** The padding invariant of the data model. *)
Definition pad_okb (m : mzd_t) : bool :=
  forallb (pad_rowb (width m) (high_bitmask m)) (rows m).

(** A matrix that satisfies the invariants of the data model. *)
Definition mzd_okb (m : mzd_t) : bool := mzd_rawb m && pad_okb m.

(** A one-row buffer of [n] columns created by the repository's
    allocator. *)
Definition vec_rawb (n : nat) (m : mzd_t) : bool :=
  mzd_rawb m && (nrows m =? 1)%nat && (ncols m =? n)%nat
  && has_custom_layout m.

(** A vector of [n] columns: such a buffer with clear padding. *)
Definition vec_okb (n : nat) (m : mzd_t) : bool := vec_rawb n m && pad_okb m.

(** An array of [k] vectors (respectively buffers) of [n] columns. *)
Definition arr_okb (n k : nat) (a : list mzd_t) : bool :=
  (length a =? k)%nat && forallb (vec_okb n) a.

Definition arr_rawb (n k : nat) (a : list mzd_t) : bool :=
  (length a =? k)%nat && forallb (vec_rawb n) a.

(** The words of an [n]-column buffer, and of an [n]-column vector. *)
Definition rwords (n : nat) (ws : list Z) : Prop :=
  length ws = words_of n /\ (forall j, word_ok (rd ws j)).

Definition vwords (n : nat) (ws : list Z) : Prop :=
  rwords n ws /\ 0 <= rd ws (words_of n - 1) < 2 ^ pad_bits n.

(** Word [i] of [v] shifted right by [k] bits as one long little-endian
    number: [(v[i] >> k) | (v[i+1] << (W - k))], and [v[last] >> k] for the
    final word. *)
Definition shr_word (v : list Z) (k : Z) (i : nat) : Z :=
  if (S i <? length v)%nat
  then Z.lor (word_shr (rd v i) k) (word_shl (rd v (S i)) (64 - k))
  else word_shr (rd v i) k.

Definition shift_right_words (v : list Z) (k : Z) : list Z :=
  map (shr_word v k) (seq 0 (length v)).

(** The mirror image: [(v[i] << k) | (v[i-1] >> (W - k))], and [v[0] << k]
    for the first word. *)
Definition shl_word (v : list Z) (k : Z) (i : nat) : Z :=
  if (0 <? i)%nat
  then Z.lor (word_shl (rd v i) k) (word_shr (rd v (i - 1)) (64 - k))
  else word_shl (rd v i) k.

Definition shift_left_words (v : list Z) (k : Z) : list Z :=
  map (shl_word v k) (seq 0 (length v)).

(** Bit [c] of a row of words, columns counted from bit 0 of word 0. *)
Definition vec_bit (ws : list Z) (c : nat) : bool :=
  Z.testbit (rd ws (c / m4ri_radix)) (Z.of_nat (c mod m4ri_radix)).

(** The [k] columns from column [lo] on are all zero. *)
Definition bits_zero (ws : list Z) (lo k : nat) : bool :=
  forallb (fun c => negb (vec_bit ws c)) (seq lo k).

(** The share that the AND gate computes for party [m] with neighbour [j],
    word by word:
    [(a[m] & b[m]) ^ (a[j] & b[m]) ^ (a[m] & b[j]) ^ r[m] ^ r[j]]. *)
Definition and_gate_words (a b r : list mzd_t) (m j : nat) : list Z :=
  let A i := row (ix a i) 0 in
  let B i := row (ix b i) 0 in
  let R i := row (ix r i) 0 in
  zipw Z.lxor
    (zipw Z.lxor
       (zipw Z.lxor
          (zipw Z.lxor (zipw Z.land (A m) (B m)) (zipw Z.land (A j) (B m)))
          (zipw Z.land (A m) (B j)))
       (R m))
    (R j).

(** A destination that is either absent or a buffer of [n] columns. *)
Definition dst_okb (n : nat) (dst : option mzd_t) : bool :=
  match dst with
  | Some d => vec_rawb n d
  | None => true
  end.

(** The last word of a row of an [n]-column matrix under its mask. *)
Definition mask_last (n : nat) (ws : list Z) : list Z :=
  upd ws (words_of n - 1) (Z.land (rd ws (words_of n - 1)) (mask_of n)).

(** The first two entries of an array are vectors (respectively buffers)
    of [n] columns: what the verifier, with its two parties, works on. *)
Definition pair_okb (n : nat) (a : list mzd_t) : bool :=
  vec_okb n (ix a 0) && vec_okb n (ix a 1).

Definition pair_rawb (n : nat) (a : list mzd_t) : bool :=
  vec_rawb n (ix a 0) && vec_rawb n (ix a 1).

(** Adding the rows of [A] selected by the low [nbits] bits of [idx],
    the row for bit [j] being row [base + j]; [X] adds one row. *)
Definition bit_fold (X : list Z -> list Z -> list Z) (A : mzd_t) (idx : Z)
           (base nbits : nat) (c : list Z) : list Z :=
  fold_left
    (fun c j => if Z.testbit idx (Z.of_nat j) then X c (row A (base + j)) else c)
    (seq 0 nbits) c.

(** The scalar reference of the spec for [c += v * A]: for each word index
    [w] of [v] and each set bit [j] of that word, XOR row [w * W + j] of
    [A] into [c]; at the end the final word is masked by the high
    bitmask of [A]. *)
Definition addmul_v_ref (c0 : list Z) (v A : mzd_t) : list Z :=
  mask_last (ncols A)
    (fold_left
       (fun c w =>
          fold_left
            (fun c j =>
               if Z.testbit (rd (row v 0) w) (Z.of_nat j)
               then zipw Z.lxor c (row A (w * 64 + j))
               else c)
            (seq 0 64) c)
       (seq 0 (width v)) c0).

(** The reference for [c = v * A]: the same, started from the zero
    vector. *)
Definition mul_v_ref (v A : mzd_t) : list Z :=
  addmul_v_ref (repeat 0 (width A)) v A.

(** Entry [col] of the product [v * A] over GF(2): the sum (XOR) over the
    rows [i] of [A] of [v_i AND A_(i, col)]. *)
Definition dot_bit (v A : mzd_t) (col : nat) : bool :=
  fold_left
    (fun acc i => xorb acc (vec_bit (row v 0) i && vec_bit (row A i) col))
    (seq 0 (nrows A)) false.

(** ** Concrete data for the examples *)

(** The vector of [n] columns that [mzd_local_init] returns, with the words
    [ws] stored in its row. *)
Definition mk_vec (n : nat) (ws : list Z) : mzd_t :=
  set_row (mzd_local_init 1 n) 0 ws.

(** The portable build, and the build with every vector unit available. *)
Definition portable : build_t := mk_build false false false.
Definition optimised : build_t := mk_build true true true.

(** A stand-in for m4ri's [mzd_copy] where an example has to name one; no
    example reaches it. *)
Definition no_copy (dst src : mzd_t) : mzd_t := dst.

(** Three vectors of [n] columns with the given words. *)
Definition triple (n : nat) (w0 w1 w2 : list Z) : list mzd_t :=
  [mk_vec n w0; mk_vec n w1; mk_vec n w2].

(** Shares of 70 columns (two words, six significant bits in the last
    one) for the examples of the gates. *)
Definition ex_a : list mzd_t := triple 70 [0x5; 0x21] [0x6; 0x11] [0x9; 0x3f].
Definition ex_b : list mzd_t := triple 70 [0xc; 0x2a] [0xa; 0x15] [0x3; 0x07].
Definition ex_r : list mzd_t := triple 70 [0x7; 0x01] [0x4; 0x02] [0x3; 0x03].
Definition ex_zero : list mzd_t := triple 70 [0; 0] [0; 0] [0; 0].
Definition ex_view : view_t := mk_view (triple 70 [0x10; 0] [0x20; 1] [0x30; 2]).
Definition ex_mask : mzd_t := mk_vec 70 [0xff; 0x0f].

(** Row [i] of the [n] x [n] identity matrix, and the matrix. *)
Definition unit_row (n i : nat) : list Z :=
  map (fun w => if (i / 64 =? w)%nat
                then Z.shiftl 1 (Z.of_nat (i mod 64)) else 0)
      (seq 0 (words_of n)).

Definition identity_matrix (n : nat) : mzd_t :=
  fold_left (fun m i => set_row m i (unit_row n i)) (seq 0 n)
    (mzd_local_init n n).

(** A destination buffer and vectors of 70 columns, a vector that uses
    the top bit of its first word, and a matrix of two rows. *)
Definition ex_buf : mzd_t := mk_vec 70 [0; 0].
Definition ex_x : mzd_t := mk_vec 70 [0x5; 0x21].
Definition ex_y : mzd_t := mk_vec 70 [0xc; 0x2a].
Definition ex_z : mzd_t := mk_vec 70 [0x9; 0x3f].
Definition ex_wide : mzd_t := mk_vec 70 [0x8000000000000001; 0x2a].
Definition ex_two_rows : mzd_t :=
  set_row (set_row (mzd_local_init 2 70) 0 [5; 1]) 1 [7; 2].

(** An accumulator and a vector of 128 columns, for the products with the
    128 x 128 identity, which the SSE path of an optimised build takes. *)
Definition ex_acc : mzd_t := mk_vec 128 [1; 2].
Definition ex_v : mzd_t := mk_vec 128 [5; 9].

(** Shares of 64 columns for the product with the 64 x 64 identity. *)
Definition ex_s : list mzd_t := triple 64 [0x5] [0x9] [0x30].
Definition ex_d : list mzd_t := triple 64 [0] [0] [0].

(** A random source that delivers the squares of the positions. *)
Definition ex_tape : rng_t := mk_rng (fun k => Z.of_nat (k * k + 100)) 0.

(** A view whose slot 1 is still zero, as before the first gate. *)
Definition ex_view0 : view_t :=
  mk_view (triple 70 [0x10; 0] [0; 0] [0x30; 2]).

(** Three registers each for the operands of the single-register gates,
    and the view registers of the prover and of the verifier. *)
Definition ex_ra : list Z := [0x5; 0x6; 0x9].
Definition ex_rb : list Z := [0xc; 0xa; 0x3].
Definition ex_rr : list Z := [0x7; 0x4; 0x3].
Definition ex_sm : list Z := [0x10; 0x20; 0x30].
Definition ex_smv : list Z := [0x10; 0x21].

(** ** The remaining functions of the kernel and of the share layer *)

(** The integer types of [calculate_rowstride]: [rci_t] is m4ri's [int]
    of 32 bits, [size_t] has 64 bits.  A value converted to [size_t] is
    reduced modulo [2^64]; a [size_t] converted to [rci_t] is reduced
    modulo [2^32] into the range of [int], which is what the compilers of
    the build do. *)
Definition rci_max : Z := 2 ^ 31 - 1.
Definition to_size_t (z : Z) : Z := z mod 2 ^ 64.
Definition to_rci (z : Z) : Z := (z + 2 ^ 31) mod 2 ^ 32 - 2 ^ 31.

(** [calculate_rowstride] with these types written out:
    [((width * sizeof(word) + 31) & ~31) / sizeof(word)] is computed in
    [size_t], with [~31] an [int] that is converted to [size_t], and the
    quotient is returned as an [rci_t]. *)
Definition calculate_rowstride_rci (width : Z) : Z :=
  if Z.of_nat avx_bound <=? to_size_t width
  then to_rci (Z.land (to_size_t (to_size_t (to_size_t width * 8) + 31))
                      (to_size_t (Z.lnot 31)) / 8)
  else to_rci (Z.land (to_size_t (to_size_t (to_size_t width * 8) + 15))
                      (to_size_t (Z.lnot 15)) / 8).

(** [calculate_row_alignment]: the alignment of a row in bytes. *)
Definition calculate_row_alignment (w : nat) : nat :=
  if (avx_bound <=? w)%nat then 32%nat else 16%nat.


(** The compare loops of [mzd_equal_sse], [mzd_equal_sse41] and
    [mzd_equal_avx].  [while (width--) if (first[i] != second[i]) return
    false; else ++i;] from offset [i]; the result is [false] when the loop
    returned. *)
Fixpoint words_equal (n i : nat) (f s : list Z) : bool :=
  match n with
  | O => true
  | S n' => if rd f i =? rd s i then words_equal n' (S i) f s else false
  end.

(** [do { if (the registers differ) return false; width -= lane; }
     while (width >= bound);]
    where two registers are equal when their [lane] words are.  [None]
    stands for the [return false]; otherwise the loop yields the width
    left and the offset reached. *)
Fixpoint lanes_equal (lane bound fuel w i : nat) (f s : list Z)
  : option (nat * nat) :=
  match fuel with
  | O => Some (w, i)
  | S fuel' =>
      if words_equal lane i f s
      then
        let w' := (w - lane)%nat in
        let i' := (i + lane)%nat in
        if (bound <=? w')%nat
        then lanes_equal lane bound fuel' w' i' f s
        else Some (w', i')
      else None
  end.

(** Body shared by the three vector variants of the comparison; only the
    first row of each operand is read. *)
Definition mzd_equal_simd (lane bound : nat) (first second : mzd_t) : bool :=
  let wd := width first in
  let f := row first 0 in
  let s := row second 0 in
  match (if (bound <=? wd)%nat
         then lanes_equal lane bound wd wd 0 f s
         else Some (wd, 0%nat)) with
  | None => false
  | Some (w, i) => words_equal w i f s
  end.

Definition mzd_equal_sse : mzd_t -> mzd_t -> bool := mzd_equal_simd 2 sse_bound.
Definition mzd_equal_sse41 : mzd_t -> mzd_t -> bool :=
  mzd_equal_simd 2 sse_bound.
Definition mzd_equal_avx : mzd_t -> mzd_t -> bool := mzd_equal_simd 4 avx_bound.

(** The registers of the single-register gates [mpc_and_sse],
    [mpc_and_avx], [mpc_and_verify_sse] and [mpc_and_verify_avx]: a value
    of type [__m128i] or [__m256i] is a number below [2^bits], and the
    bitwise intrinsics are the bitwise operations on it. *)
Definition reg_ok (bits z : Z) : Prop := 0 <= z < 2 ^ bits.

Definition regs_okb (bits : Z) (l : list Z) : bool :=
  forallb (fun z => (0 <=? z) && (z <? 2 ^ bits)) l.

Section KernelMore.

Variable cfg : build_t.
Variable mzd_copy : mzd_t -> mzd_t -> mzd_t.

(** The macro [CPU_SUPPORTS_SSE4] of [simd.h], read by [mzd_local_equal]
    only. *)
Variable CPU_SUPPORTS_SSE4 : bool.

(** m4ri's [mzd_cmp], the portable comparison behind [mzd_local_equal]. *)
Variable mzd_cmp : mzd_t -> mzd_t -> Z.

(** [mm128_shift_right] / [mm256_shift_right] and the left shifts of
    [simd.h], which is not among the sources: the properties below hold
    for whatever they compute. *)
Variable mm_shift_right : Z -> Z -> Z.
Variable mm_shift_left : Z -> Z -> Z.

(** [mzd_local_equal]. *)
Definition mzd_local_equal (first second : mzd_t) : bool :=
  if negb (ncols first =? ncols second)%nat
     || negb (nrows first =? nrows second)%nat
  then false
  else if WITH_OPT cfg && CPU_SUPPORTS_AVX2 cfg && (256 <=? ncols first)%nat
  then mzd_equal_avx first second
  else if WITH_OPT cfg && CPU_SUPPORTS_SSE4
  then mzd_equal_sse41 first second
  else if WITH_OPT cfg && CPU_SUPPORTS_SSE2 cfg
  then mzd_equal_sse first second
  else mzd_cmp first second =? 0.


(** [mpc_and_const]. *)
Definition mpc_and_const (res first : list mzd_t) (second : mzd_t) (sc : nat)
  : list mzd_t :=
  fold_left
    (fun res i => upd res i (mzd_and cfg (Some (ix res i)) (ix first i) second))
    (seq 0 sc) res.

(** [mpc_add]: the loop of [mpc_xor], and the array is returned. *)
Definition mpc_add (result first second : list mzd_t) (sc : nat)
  : list mzd_t :=
  fold_left
    (fun res i =>
       upd res i (mzd_xor cfg (Some (ix res i)) (ix first i) (ix second i)))
    (seq 0 sc) result.

(** [mpc_const_mat_mul]: the value that [mzd_mul_v] returns is dropped;
    what counts is the state in which the call leaves [result[i]]. *)
Definition mpc_const_mat_mul (result : list mzd_t) (matrix : mzd_t)
           (vector : list mzd_t) (sc : nat) : list mzd_t :=
  fold_left
    (fun res i =>
       match snd (mzd_mul_v cfg (Some (ix res i)) (ix vector i) matrix) with
       | Some c => upd res i c
       | None => res
       end)
    (seq 0 sc) result.

(** [mpc_copy]. *)
Definition mpc_copy (out inp : list mzd_t) (sc : nat) : list mzd_t :=
  fold_left
    (fun out i =>
       upd out i (mzd_local_copy mzd_copy (Some (ix out i)) (ix inp i)))
    (seq 0 sc) out.


(** [mpc_init_random_vector]. *)
Definition mpc_init_random_vector (n sc : nat) (junk : nat -> nat -> nat -> Z)
           (g : rng_t) : list mzd_t * rng_t :=
  let s := mzd_local_init_multiple_ex sc 1 n false junk in
  fold_left
    (fun (st : list mzd_t * rng_t) i =>
       let '(s, g) := st in
       let '(x, g') := mzd_randomize_ssl (ix s i) g in
       (upd s i x, g'))
    (seq 0 sc) (s, g).

(** [mpc_init_plain_share_vector]. *)
Definition mpc_init_plain_share_vector (v : mzd_t)
           (junk : nat -> nat -> nat -> Z) : list mzd_t :=
  let s := mzd_local_init_multiple_ex 3 1 (ncols v) false junk in
  fold_left
    (fun s i => upd s i (mzd_local_copy mzd_copy (Some (ix s i)) v))
    (seq 0 3) s.

(** [mpc_and_sse] and [mpc_and_avx]: [res], [first], [second] and [r] are
    arrays of three registers, [sm] holds the first register of each view
    vector.  The result is the final [res] and the final view
    registers. *)
Definition mpc_and_simd (res first second r : list Z) (sm : list Z)
           (viewshift : Z) : list Z * list Z :=
  fold_left
    (fun (st : list Z * list Z) m =>
       let '(res, sm) := st in
       let j := ((m + 1) mod SC_PROOF)%nat in
       let tmp1 := Z.lxor (rd second m) (rd second j) in
       let tmp2 := Z.land (rd first j) (rd second m) in
       let tmp1 := Z.land tmp1 (rd first m) in
       let tmp1 := Z.lxor tmp1 tmp2 in
       let tmp2 := Z.lxor (rd r m) (rd r j) in
       let tmp1 := Z.lxor tmp1 tmp2 in
       let res := upd res m tmp1 in
       let tmp1 := mm_shift_right tmp1 viewshift in
       (res, upd sm m (Z.lxor tmp1 (rd sm m))))
    (seq 0 SC_PROOF) (res, sm).

(** [mpc_and_verify_sse] and [mpc_and_verify_avx]. *)
Definition mpc_and_verify_simd (res first second r : list Z) (sm : list Z)
           (mask viewshift : Z) : list Z * list Z :=
  let '(res, sm) :=
    fold_left
      (fun (st : list Z * list Z) m =>
         let '(res, sm) := st in
         let j := (m + 1)%nat in
         let tmp1 := Z.lxor (rd second m) (rd second j) in
         let tmp2 := Z.land (rd first j) (rd second m) in
         let tmp1 := Z.land tmp1 (rd first m) in
         let tmp1 := Z.lxor tmp1 tmp2 in
         let tmp2 := Z.lxor (rd r m) (rd r j) in
         let tmp1 := Z.lxor tmp1 tmp2 in
         let res := upd res m tmp1 in
         let tmp1 := mm_shift_right tmp1 viewshift in
         (res, upd sm m (Z.lxor tmp1 (rd sm m))))
      (seq 0 (SC_VERIFY - 1)) (res, sm) in
  let rsc := mm_shift_left (rd sm (SC_VERIFY - 1)) viewshift in
  (upd res (SC_VERIFY - 1) (Z.land rsc mask), sm).

End KernelMore.

(** ** Reference notions for the shares and the registers *)

(** The words of the zero vector of [n] columns. *)
Definition zero_row (n : nat) : list Z := repeat 0 (words_of n).

(** The five-term share of the gate on registers. *)
Definition and_gate_reg (a b r : list Z) (m j : nat) : Z :=
  Z.lxor
    (Z.lxor
       (Z.lxor (Z.lxor (Z.land (rd a m) (rd b m)) (Z.land (rd a j) (rd b m)))
               (Z.land (rd a m) (rd b j)))
       (rd r m))
    (rd r j).

(** The XOR of the three slots of a share triple, word by word. *)
Definition xor3 (sh : list mzd_t) : list Z :=
  zipw Z.lxor (zipw Z.lxor (row (ix sh 0) 0) (row (ix sh 1) 0))
    (row (ix sh 2) 0).

(** ** Facts about arrays and word loops *)

Lemma length_upd {A : Type} (l : list A) i x : length (upd l i x) = length l.
Proof.
  revert i; induction l as [|h t IH]; intros [|i]; simpl; auto.
Qed.

Lemma nth_upd {A : Type} (l : list A) i j x d :
  nth j (upd l i x) d =
  if (i =? j)%nat && (i <? length l)%nat then x else nth j l d.
Proof.
  revert i j; induction l as [|h t IH]; intros [|i] [|j]; simpl; auto.
  destruct (i =? j)%nat; reflexivity.
Qed.

Lemma rd_upd l i j x :
  rd (upd l i x) j = if (i =? j)%nat && (i <? length l)%nat then x else rd l j.
Proof. apply nth_upd. Qed.

Lemma upd_upd {A : Type} (l : list A) i x y : upd (upd l i x) i y = upd l i y.
Proof.
  revert i; induction l as [|h t IH]; intros [|i]; simpl; auto.
  rewrite IH; reflexivity.
Qed.

Lemma upd_outside {A : Type} (l : list A) i x :
  (length l <= i)%nat -> upd l i x = l.
Proof.
  revert i; induction l as [|h t IH]; intros [|i] H; simpl in *; auto; try lia.
  rewrite IH by lia; reflexivity.
Qed.

Lemma ix_upd_same a m x : (m < length a)%nat -> ix (upd a m x) m = x.
Proof.
  intros H. unfold ix. rewrite nth_upd, Nat.eqb_refl.
  apply Nat.ltb_lt in H. rewrite H. reflexivity.
Qed.

Lemma ix_upd_other a m j x : m <> j -> ix (upd a m x) j = ix a j.
Proof.
  intros H. unfold ix. rewrite nth_upd.
  apply Nat.eqb_neq in H. rewrite H. reflexivity.
Qed.

(** Two word arrays of the same length with the same words are equal. *)
Lemma rd_ext (a b : list Z) :
  length a = length b ->
  (forall j, (j < length a)%nat -> rd a j = rd b j) -> a = b.
Proof.
  intros Hl H. apply (nth_ext a b 0 0 Hl). exact H.
Qed.

Lemma length_zipw op a b :
  length (zipw op a b) = Nat.min (length a) (length b).
Proof.
  revert b; induction a as [|x a IH]; intros [|y b]; simpl; auto.
Qed.

Lemma rd_zipw op a b j :
  (j < length a)%nat -> (j < length b)%nat ->
  rd (zipw op a b) j = op (rd a j) (rd b j).
Proof.
  unfold rd. revert b j; induction a as [|x a IH]; intros [|y b] [|j] Ha Hb;
    simpl in *; try lia; auto.
  apply IH; lia.
Qed.

Lemma length_zipw_same op a b n :
  length a = n -> length b = n -> length (zipw op a b) = n.
Proof. intros Ha Hb. rewrite length_zipw, Ha, Hb. apply Nat.min_id. Qed.

Lemma rd_zipw_same op a b n j :
  length a = n -> length b = n -> (j < n)%nat ->
  rd (zipw op a b) j = op (rd a j) (rd b j).
Proof. intros Ha Hb Hj. apply rd_zipw; lia. Qed.

Lemma length_word_loop op n i res f s :
  length (word_loop op n i res f s) = length res.
Proof.
  revert i res; induction n as [|n IH]; intros; simpl; auto.
  rewrite IH, length_upd; reflexivity.
Qed.

Lemma rd_word_loop op n i res f s j :
  rd (word_loop op n i res f s) j =
  if (i <=? j)%nat && (j <? i + n)%nat && (j <? length res)%nat
  then op (rd f j) (rd s j) else rd res j.
Proof.
  revert i res; induction n as [|n IH]; intros; simpl.
  - replace (j <? i + 0)%nat with (j <? i)%nat by (f_equal; lia).
    destruct (Nat.leb_spec i j), (Nat.ltb_spec j i); simpl; auto; lia.
  - rewrite IH, length_upd, rd_upd.
    destruct (Nat.leb_spec (S i) j), (Nat.leb_spec i j),
      (Nat.ltb_spec j (S i + n)), (Nat.ltb_spec j (i + S n)),
      (Nat.eqb_spec i j), (Nat.ltb_spec i (length res)),
      (Nat.ltb_spec j (length res)); simpl; subst; auto; lia.
Qed.

Lemma word_loop_add op a b i res f s :
  word_loop op (a + b) i res f s
  = word_loop op b (i + a) (word_loop op a i res f s) f s.
Proof.
  revert i res; induction a as [|a IH]; intros; simpl.
  - rewrite Nat.add_0_r; reflexivity.
  - rewrite IH. f_equal. lia.
Qed.

(** The word loop over a whole row is the word-by-word combination. *)
Lemma word_loop_zipw op res f s :
  length f = length res -> length s = length res ->
  word_loop op (length res) 0 res f s = zipw op f s.
Proof.
  intros Hf Hs. apply rd_ext.
  - rewrite length_word_loop, length_zipw; lia.
  - intros j Hj. rewrite length_word_loop in Hj.
    rewrite rd_word_loop, rd_zipw by lia.
    destruct (Nat.ltb_spec j (0 + length res)), (Nat.ltb_spec j (length res));
      simpl; auto; lia.
Qed.

(** The vector loop followed by the word loop on the rest does what the
    word loop alone does. *)
Lemma lane_loop_word_loop op lane fuel w i res f s :
  (1 <= lane)%nat -> (lane <= w)%nat -> (w <= fuel)%nat ->
  let '(w', i', r') := lane_loop op lane lane fuel w i res f s in
  word_loop op w' i' r' f s = word_loop op w i res f s.
Proof.
  intros Hl. revert w i res; induction fuel as [|fuel IH]; intros w i res Hw Hf.
  - lia.
  - simpl. destruct (Nat.leb_spec lane (w - lane)) as [Hge|Hlt].
    + specialize (IH (w - lane)%nat (i + lane)%nat
                     (word_loop op lane i res f s) Hge ltac:(lia)).
      destruct (lane_loop op lane lane fuel (w - lane) (i + lane)
                  (word_loop op lane i res f s) f s) as [[w' i'] r'].
      rewrite IH. replace w with (lane + (w - lane))%nat at 2 by lia.
      rewrite word_loop_add. reflexivity.
    + replace w with (lane + (w - lane))%nat at 2 by lia.
      rewrite word_loop_add. reflexivity.
Qed.

(** The vector loop leaves by its own test: with the width as fuel it
    stops with fewer words left than a register holds. *)
Lemma lane_loop_exit op lane fuel w i res f s :
  (1 <= lane)%nat -> (lane <= w)%nat -> (w <= fuel)%nat ->
  (fst (fst (lane_loop op lane lane fuel w i res f s)) < lane)%nat.
Proof.
  intros Hl. revert w i res; induction fuel as [|fuel IH]; intros w i res Hw Hf.
  - lia.
  - cbn [lane_loop]. destruct (Nat.leb_spec lane (w - lane)) as [Hge|Hlt].
    + apply IH; lia.
    + exact Hlt.
Qed.

Lemma simd_region_word_loop op lane wd res f s :
  (1 <= lane)%nat ->
  simd_region op lane lane wd res f s = word_loop op wd 0 res f s.
Proof.
  intros Hl. unfold simd_region.
  destruct (Nat.leb_spec lane wd) as [Hge|Hlt]; [|reflexivity].
  pose proof (lane_loop_word_loop op lane wd wd 0 res f s Hl Hge (le_n _)) as H.
  destruct (lane_loop op lane lane wd wd 0 res f s) as [[w' i'] r'].
  exact H.
Qed.

(** ** Facts about words and masks *)

Lemma word_okb_ok z : word_okb z = true <-> word_ok z.
Proof.
  unfold word_okb, word_ok. rewrite Bool.andb_true_iff, Z.leb_le, Z.ltb_lt.
  tauto.
Qed.

(** A number fits [k] bits exactly when every bit from [k] on is clear. *)
Lemma fits_bits k x :
  0 <= k ->
  (0 <= x < 2 ^ k <-> forall i, k <= i -> Z.testbit x i = false).
Proof.
  intros Hk; split.
  - intros Hx i Hi. rewrite <- (Z.mod_small x (2 ^ k)) by lia.
    apply Z.mod_pow2_bits_high; lia.
  - intros H. assert (E : x mod 2 ^ k = x).
    { apply Z.bits_inj'; intros i Hi. rewrite Z.testbit_mod_pow2 by lia.
      destruct (Z.ltb_spec i k); simpl; auto. symmetry; apply H; lia. }
    rewrite <- E. apply Z.mod_pos_bound. apply Z.pow_pos_nonneg; lia.
Qed.

Lemma land_ones_fits x k :
  0 <= k -> (Z.land x (Z.ones k) = x <-> 0 <= x < 2 ^ k).
Proof.
  intros Hk. rewrite Z.land_ones by lia. split; intros H.
  - rewrite <- H. apply Z.mod_pos_bound. apply Z.pow_pos_nonneg; lia.
  - apply Z.mod_small; lia.
Qed.

Lemma fits_lxor k a b :
  0 <= k -> 0 <= a < 2 ^ k -> 0 <= b < 2 ^ k -> 0 <= Z.lxor a b < 2 ^ k.
Proof.
  intros Hk Ha Hb. rewrite fits_bits in * by lia. intros i Hi.
  rewrite Z.lxor_spec, Ha, Hb by lia. reflexivity.
Qed.

Lemma fits_land_l k a b :
  0 <= k -> 0 <= a < 2 ^ k -> 0 <= Z.land a b < 2 ^ k.
Proof.
  intros Hk Ha. rewrite fits_bits in * by lia. intros i Hi.
  rewrite Z.land_spec, Ha by lia. reflexivity.
Qed.

Lemma fits_land_r k a b :
  0 <= k -> 0 <= b < 2 ^ k -> 0 <= Z.land a b < 2 ^ k.
Proof.
  intros Hk Hb. rewrite Z.land_comm. apply fits_land_l; assumption.
Qed.

Lemma fits_lor k a b :
  0 <= k -> 0 <= a < 2 ^ k -> 0 <= b < 2 ^ k -> 0 <= Z.lor a b < 2 ^ k.
Proof.
  intros Hk Ha Hb. rewrite fits_bits in * by lia. intros i Hi.
  rewrite Z.lor_spec, Ha, Hb by lia. reflexivity.
Qed.

Lemma fits_shiftr k a n :
  0 <= k -> 0 <= n -> 0 <= a < 2 ^ k -> 0 <= Z.shiftr a n < 2 ^ k.
Proof.
  intros Hk Hn Ha. rewrite fits_bits in * by lia. intros i Hi.
  rewrite Z.shiftr_spec by lia. apply Ha; lia.
Qed.

Lemma wrap_ok z : word_ok (wrap z).
Proof. unfold word_ok, wrap. apply Z.mod_pos_bound. reflexivity. Qed.

Lemma wrap_small z : word_ok z -> wrap z = z.
Proof. unfold word_ok, wrap. intros H. apply Z.mod_small; lia. Qed.

Lemma word_ok_0 : word_ok 0.
Proof. unfold word_ok; lia. Qed.

Lemma pad_bits_range n : 0 < pad_bits n <= 64.
Proof.
  unfold pad_bits, m4ri_radix.
  pose proof (Nat.mod_upper_bound n 64 ltac:(lia)).
  destruct (Nat.eqb_spec (n mod 64) 0); lia.
Qed.

(** The last-word mask of an [n]-column row has exactly the low
    [pad_bits n] bits set. *)
Lemma mask_of_ones n : mask_of n = Z.ones (pad_bits n).
Proof.
  unfold mask_of, LEFT_BITMASK, word_shr, m4ri_ffff, pad_bits, m4ri_radix.
  pose proof (Nat.mod_upper_bound n 64 ltac:(lia)) as Hn.
  set (k := (n mod 64)%nat) in *.
  destruct (Nat.eqb_spec k 0) as [->|Hk].
  - reflexivity.
  - rewrite (Nat.mod_small (64 - k) 64) by lia.
    rewrite Z.shiftr_div_pow2 by lia.
    rewrite Z.ones_div_pow2 by lia. f_equal; lia.
Qed.

Lemma land_ffff x : word_ok x -> Z.land x m4ri_ffff = x.
Proof. intros H. apply land_ones_fits; [lia | exact H]. Qed.

(** ** Facts about well-formed vectors *)

Lemma words_of_pos n : (1 <= n)%nat -> (1 <= words_of n)%nat.
Proof.
  unfold words_of, m4ri_radix. intros H.
  apply Nat.div_le_lower_bound; lia.
Qed.

Lemma forallb_rd (P : Z -> bool) ws :
  P 0 = true -> forallb P ws = true -> forall j, P (rd ws j) = true.
Proof.
  intros H0 H j. unfold rd. destruct (Nat.ltb_spec j (length ws)).
  - rewrite forallb_forall in H. apply H. apply nth_In; assumption.
  - rewrite nth_overflow by lia. exact H0.
Qed.

Lemma rd_forallb (P : Z -> bool) ws :
  (forall j, P (rd ws j) = true) -> forallb P ws = true.
Proof.
  intros H. apply forallb_forall. intros x Hx.
  destruct (In_nth _ _ 0 Hx) as [j [_ Hj]]. rewrite <- Hj. apply H.
Qed.

Lemma raw_rowb_rwords n ws : raw_rowb (words_of n) ws = true <-> rwords n ws.
Proof.
  unfold raw_rowb, rwords. rewrite Bool.andb_true_iff, Nat.eqb_eq.
  split; intros [H1 H2]; (split; [exact H1|]).
  - intros j. apply word_okb_ok. apply forallb_rd; auto.
  - apply rd_forallb. intros j. apply word_okb_ok, H2.
Qed.

Lemma pad_rowb_fits n ws :
  pad_rowb (words_of n) (mask_of n) ws = true
  <-> 0 <= rd ws (words_of n - 1) < 2 ^ pad_bits n.
Proof.
  unfold pad_rowb. rewrite Z.eqb_eq, mask_of_ones.
  apply land_ones_fits. pose proof (pad_bits_range n); lia.
Qed.

Ltac dlia := zify; Z.div_mod_to_equations; lia.

Ltac fields :=
  cbn [nrows ncols width rowstride flags high_bitmask rows length forallb].

(** A buffer is its descriptor around one row of words. *)
Lemma vec_rawb_inv n m :
  vec_rawb n m = true ->
  exists rs fl ws,
    m = mk_mzd 1 n (words_of n) rs fl (mask_of n) [ws]
    /\ rwords n ws /\ (1 <= n)%nat
    /\ Z.land fl mzd_flag_custom_layout <> 0.
Proof.
  destruct m as [nr nc wd rs fl hb rws].
  unfold vec_rawb, mzd_rawb, has_custom_layout; fields.
  rewrite !Bool.andb_true_iff, Bool.negb_true_iff, !Nat.eqb_eq, !Z.eqb_eq,
    Z.eqb_neq, Nat.leb_le.
  intros [[[[[[[H1 H2] H3] H4] H5] H6] H7] H8]. subst nc.
  rewrite H6 in H4 |- *. clear H6. subst wd hb.
  destruct rws as [|ws [|? ?]]; cbn [length] in H4; try discriminate.
  cbn [forallb] in H5. rewrite Bool.andb_true_r in H5.
  exists rs, fl, ws. repeat split; auto; apply raw_rowb_rwords in H5; apply H5.
Qed.

Lemma vec_okb_inv n m :
  vec_okb n m = true ->
  exists rs fl ws,
    m = mk_mzd 1 n (words_of n) rs fl (mask_of n) [ws]
    /\ vwords n ws /\ (1 <= n)%nat
    /\ Z.land fl mzd_flag_custom_layout <> 0.
Proof.
  unfold vec_okb. rewrite Bool.andb_true_iff. intros [H P].
  destruct (vec_rawb_inv n m H) as (rs & fl & ws & -> & Hws & Hn & Hfl).
  exists rs, fl, ws. split; [reflexivity|]. split; [|split; assumption].
  split; [exact Hws|].
  unfold pad_okb in P; cbn [width high_bitmask rows forallb] in P.
  rewrite Bool.andb_true_r in P. apply pad_rowb_fits in P. exact P.
Qed.

Lemma vec_rawb_intro n rs fl ws :
  (1 <= n)%nat -> Z.land fl mzd_flag_custom_layout <> 0 -> rwords n ws ->
  vec_rawb n (mk_mzd 1 n (words_of n) rs fl (mask_of n) [ws]) = true.
Proof.
  intros Hn Hfl Hws. unfold vec_rawb, mzd_rawb, has_custom_layout; fields.
  apply raw_rowb_rwords in Hws. rewrite Hws.
  rewrite !Nat.eqb_refl, Z.eqb_refl.
  apply Nat.leb_le in Hn. rewrite Hn.
  apply Z.eqb_neq in Hfl. rewrite Hfl. reflexivity.
Qed.

Lemma vec_okb_intro n rs fl ws :
  (1 <= n)%nat -> Z.land fl mzd_flag_custom_layout <> 0 -> vwords n ws ->
  vec_okb n (mk_mzd 1 n (words_of n) rs fl (mask_of n) [ws]) = true.
Proof.
  intros Hn Hfl [Hws Hp]. unfold vec_okb.
  rewrite vec_rawb_intro by assumption.
  unfold pad_okb; cbn [width high_bitmask rows forallb].
  apply pad_rowb_fits in Hp. rewrite Hp. reflexivity.
Qed.

Lemma vec_okb_raw n m : vec_okb n m = true -> vec_rawb n m = true.
Proof. unfold vec_okb. rewrite Bool.andb_true_iff. tauto. Qed.

Lemma vec_rawb_row n m : vec_rawb n m = true -> rwords n (row m 0).
Proof.
  intros H. destruct (vec_rawb_inv n m H) as (rs & fl & ws & -> & Hws & _).
  exact Hws.
Qed.

Lemma vec_okb_row n m : vec_okb n m = true -> vwords n (row m 0).
Proof.
  intros H. destruct (vec_okb_inv n m H) as (rs & fl & ws & -> & Hws & _).
  exact Hws.
Qed.

Lemma vec_okb_set_row n m ws :
  vec_rawb n m = true -> vwords n ws -> vec_okb n (set_row m 0 ws) = true.
Proof.
  intros H Hws.
  destruct (vec_rawb_inv n m H) as (rs & fl & ws0 & -> & _ & Hn & Hfl).
  apply vec_okb_intro; assumption.
Qed.

Lemma vec_rawb_set_row n m ws :
  vec_rawb n m = true -> rwords n ws -> vec_rawb n (set_row m 0 ws) = true.
Proof.
  intros H Hws.
  destruct (vec_rawb_inv n m H) as (rs & fl & ws0 & -> & _ & Hn & Hfl).
  apply vec_rawb_intro; assumption.
Qed.

Lemma row_set_row n m ws :
  vec_rawb n m = true -> row (set_row m 0 ws) 0 = ws.
Proof.
  intros H. destruct (vec_rawb_inv n m H) as (rs & fl & ws0 & -> & _).
  reflexivity.
Qed.

Lemma set_row_set_row m ws ws' :
  set_row (set_row m 0 ws) 0 ws' = set_row m 0 ws'.
Proof.
  unfold set_row; fields. rewrite upd_upd. reflexivity.
Qed.

Lemma set_row_row n m : vec_rawb n m = true -> set_row m 0 (row m 0) = m.
Proof.
  intros H. destruct (vec_rawb_inv n m H) as (rs & fl & ws0 & -> & _).
  reflexivity.
Qed.

Lemma vec_rawb_width n m : vec_rawb n m = true -> width m = words_of n.
Proof.
  intros H. destruct (vec_rawb_inv n m H) as (rs & fl & ws0 & -> & _).
  reflexivity.
Qed.

Lemma vec_rawb_mask n m : vec_rawb n m = true -> high_bitmask m = mask_of n.
Proof.
  intros H. destruct (vec_rawb_inv n m H) as (rs & fl & ws0 & -> & _).
  reflexivity.
Qed.

Lemma vec_rawb_ncols n m : vec_rawb n m = true -> ncols m = n.
Proof.
  intros H. destruct (vec_rawb_inv n m H) as (rs & fl & ws0 & -> & _).
  reflexivity.
Qed.

Lemma vec_rawb_pos n m : vec_rawb n m = true -> (1 <= n)%nat.
Proof.
  intros H. destruct (vec_rawb_inv n m H) as (rs & fl & ws0 & -> & _ & Hn & _).
  exact Hn.
Qed.

Lemma upd_same (l : list Z) i : upd l i (rd l i) = l.
Proof.
  apply rd_ext.
  - apply length_upd.
  - intros j Hj. rewrite rd_upd.
    destruct (Nat.eqb_spec i j) as [E|E]; simpl; auto.
    rewrite E. destruct (j <? length l)%nat; reflexivity.
Qed.

(** A combination of words is a row of words. *)
Lemma rwords_zipw op n a b :
  (forall x y, word_ok x -> word_ok y -> word_ok (op x y)) ->
  rwords n a -> rwords n b -> rwords n (zipw op a b).
Proof.
  intros Hop (La & Wa) (Lb & Wb). split.
  - rewrite length_zipw; lia.
  - intros j. destruct (Nat.ltb_spec j (words_of n)).
    + rewrite rd_zipw by lia. apply Hop; auto.
    + unfold rd. rewrite nth_overflow by (rewrite length_zipw; lia).
      apply word_ok_0.
Qed.

Lemma word_ok_lxor x y : word_ok x -> word_ok y -> word_ok (Z.lxor x y).
Proof. apply fits_lxor; lia. Qed.

Lemma word_ok_land x y : word_ok x -> word_ok y -> word_ok (Z.land x y).
Proof. intros Hx _. apply fits_land_l; [lia|exact Hx]. Qed.

Lemma vwords_zipw_lxor n a b :
  (1 <= n)%nat -> vwords n a -> vwords n b -> vwords n (zipw Z.lxor a b).
Proof.
  intros Hn (Ra & Pa) (Rb & Pb).
  pose proof (words_of_pos n Hn). pose proof (pad_bits_range n).
  split; [apply rwords_zipw; auto using word_ok_lxor|].
  destruct Ra as (La & _), Rb as (Lb & _).
  rewrite rd_zipw by lia. apply fits_lxor; [lia|assumption|assumption].
Qed.

(** For a conjunction it is enough that one operand has clear padding. *)
Lemma vwords_zipw_land_l n a b :
  (1 <= n)%nat -> vwords n a -> rwords n b -> vwords n (zipw Z.land a b).
Proof.
  intros Hn (Ra & Pa) Rb.
  pose proof (words_of_pos n Hn). pose proof (pad_bits_range n).
  split; [apply rwords_zipw; auto using word_ok_land|].
  destruct Ra as (La & _), Rb as (Lb & _).
  rewrite rd_zipw by lia. apply fits_land_l; [lia|assumption].
Qed.

Lemma vwords_zipw_land_r n a b :
  (1 <= n)%nat -> rwords n a -> vwords n b -> vwords n (zipw Z.land a b).
Proof.
  intros Hn Ra (Rb & Pb).
  pose proof (words_of_pos n Hn). pose proof (pad_bits_range n).
  split; [apply rwords_zipw; auto using word_ok_land|].
  destruct Ra as (La & _), Rb as (Lb & _).
  rewrite rd_zipw by lia. apply fits_land_r; [lia|assumption].
Qed.

(** ** Facts about the copy and shift loops *)

Lemma rd_map_seq (f : nat -> Z) n j :
  (j < n)%nat -> rd (map f (seq 0 n)) j = f j.
Proof.
  intros H. unfold rd.
  rewrite (nth_indep _ 0 (f 0%nat)) by (rewrite length_map, length_seq; lia).
  rewrite map_nth, seq_nth by lia. reflexivity.
Qed.

Lemma length_memcpy n i d s : length (memcpy n i d s) = length d.
Proof.
  revert i d; induction n as [|n IH]; intros; simpl; auto.
  rewrite IH, length_upd; reflexivity.
Qed.

Lemma rd_memcpy n i d s j :
  rd (memcpy n i d s) j =
  if (i <=? j)%nat && (j <? i + n)%nat && (j <? length d)%nat
  then rd s j else rd d j.
Proof.
  revert i d; induction n as [|n IH]; intros; simpl.
  - destruct (Nat.leb_spec i j), (Nat.ltb_spec j (i + 0)); simpl; auto; lia.
  - rewrite IH, length_upd, rd_upd.
    destruct (Nat.leb_spec (S i) j), (Nat.leb_spec i j),
      (Nat.ltb_spec j (S i + n)), (Nat.ltb_spec j (i + S n)),
      (Nat.eqb_spec i j), (Nat.ltb_spec i (length d)),
      (Nat.ltb_spec j (length d)); simpl; subst; auto; lia.
Qed.

Lemma memcpy_all d s :
  length s = length d -> memcpy (length d) 0 d s = s.
Proof.
  intros H. apply rd_ext.
  - rewrite length_memcpy; lia.
  - intros j Hj. rewrite length_memcpy in Hj. rewrite rd_memcpy.
    destruct (Nat.ltb_spec j (0 + length d)), (Nat.ltb_spec j (length d));
      simpl; auto; lia.
Qed.

Lemma shift_right_loop_spec n p k lc res val :
  fst (shift_right_loop n p k lc res val) = (p + n)%nat
  /\ length (snd (shift_right_loop n p k lc res val)) = length res
  /\ forall j,
      rd (snd (shift_right_loop n p k lc res val)) j =
      if (p <=? j)%nat && (j <? p + n)%nat && (j <? length res)%nat
      then Z.lor (word_shr (rd val j) k) (word_shl (rd val (S j)) lc)
      else rd res j.
Proof.
  revert p res; induction n as [|n IH]; intros p res; simpl.
  - split; [lia|]. split; [reflexivity|]. intros j.
    destruct (Nat.leb_spec p j), (Nat.ltb_spec j (p + 0)); simpl; auto; lia.
  - destruct (IH (S p) (upd res p (Z.lor (word_shr (rd val p) k)
                                      (word_shl (rd val (S p)) lc))))
      as (F & L & R).
    split; [rewrite F; lia|]. split; [rewrite L; apply length_upd|].
    intros j. rewrite R, length_upd, rd_upd.
    destruct (Nat.leb_spec (S p) j), (Nat.leb_spec p j),
      (Nat.ltb_spec j (S p + n)), (Nat.ltb_spec j (p + S n)),
      (Nat.eqb_spec p j), (Nat.ltb_spec p (length res)),
      (Nat.ltb_spec j (length res)); simpl; subst; auto; lia.
Qed.

Lemma shift_left_loop_spec n p k rc res val :
  (n <= p)%nat ->
  fst (shift_left_loop n p k rc res val) = (p - n)%nat
  /\ length (snd (shift_left_loop n p k rc res val)) = length res
  /\ forall j,
      rd (snd (shift_left_loop n p k rc res val)) j =
      if (p - n <? j)%nat && (j <=? p)%nat && (j <? length res)%nat
      then Z.lor (word_shl (rd val j) k) (word_shr (rd val (j - 1)) rc)
      else rd res j.
Proof.
  revert p res; induction n as [|n IH]; intros p res Hp; simpl.
  - split; [lia|]. split; [reflexivity|]. intros j.
    destruct (Nat.ltb_spec (p - 0) j), (Nat.leb_spec j p); simpl; auto; lia.
  - destruct (IH (p - 1)%nat
                (upd res p (Z.lor (word_shl (rd val p) k)
                              (word_shr (rd val (p - 1)) rc))) ltac:(lia))
      as (F & L & R).
    split; [rewrite F; lia|]. split; [rewrite L; apply length_upd|].
    intros j. rewrite R, length_upd, rd_upd.
    destruct (Nat.ltb_spec (p - 1 - n) j), (Nat.ltb_spec (p - S n) j),
      (Nat.leb_spec j (p - 1)), (Nat.leb_spec j p),
      (Nat.eqb_spec p j), (Nat.ltb_spec p (length res)),
      (Nat.ltb_spec j (length res)); simpl; subst; auto; lia.
Qed.

Lemma uint_sub_count k : 0 < k < 64 -> uint_sub (8 * 8) k = 64 - k.
Proof. intros H. unfold uint_sub. apply Z.mod_small. lia. Qed.

Lemma word_ok_shr x k : 0 <= k -> word_ok x -> word_ok (word_shr x k).
Proof. intros Hk Hx. apply fits_shiftr; [lia|exact Hk|exact Hx]. Qed.

Lemma word_ok_shl x k : word_ok (word_shl x k).
Proof. apply wrap_ok. Qed.

Lemma word_ok_lor x y : word_ok x -> word_ok y -> word_ok (Z.lor x y).
Proof. apply fits_lor; lia. Qed.

Lemma length_shift_right_words v k : length (shift_right_words v k) = length v.
Proof. unfold shift_right_words. rewrite length_map, length_seq; auto. Qed.

Lemma length_shift_left_words v k : length (shift_left_words v k) = length v.
Proof. unfold shift_left_words. rewrite length_map, length_seq; auto. Qed.

Lemma rd_shift_right_words v k j :
  (j < length v)%nat -> rd (shift_right_words v k) j = shr_word v k j.
Proof. apply rd_map_seq. Qed.

Lemma rd_shift_left_words v k j :
  (j < length v)%nat -> rd (shift_left_words v k) j = shl_word v k j.
Proof. apply rd_map_seq. Qed.

Lemma rwords_shift_right n v k :
  0 <= k -> rwords n v -> rwords n (shift_right_words v k).
Proof.
  intros Hk (L & W). split; [rewrite length_shift_right_words; exact L|].
  intros j. destruct (Nat.ltb_spec j (length v)).
  - rewrite rd_shift_right_words by lia. unfold shr_word.
    destruct (S j <? length v)%nat;
      auto using word_ok_lor, word_ok_shr, word_ok_shl.
  - unfold rd. rewrite nth_overflow
      by (rewrite length_shift_right_words; lia).
    apply word_ok_0.
Qed.

Lemma rwords_shift_left n v k :
  0 <= k < 64 -> rwords n v -> rwords n (shift_left_words v k).
Proof.
  intros Hk (L & W). split; [rewrite length_shift_left_words; exact L|].
  intros j. destruct (Nat.ltb_spec j (length v)).
  - rewrite rd_shift_left_words by lia. unfold shl_word.
    destruct (0 <? j)%nat;
      auto using word_ok_lor, word_ok_shl.
    apply word_ok_lor; [apply word_ok_shl|apply word_ok_shr; [lia|apply W]].
  - unfold rd. rewrite nth_overflow
      by (rewrite length_shift_left_words; lia).
    apply word_ok_0.
Qed.

(** A right shift keeps the padding clear. *)
Lemma vwords_shift_right n v k :
  (1 <= n)%nat -> 0 <= k -> vwords n v -> vwords n (shift_right_words v k).
Proof.
  intros Hn Hk (R & P). split; [apply rwords_shift_right; assumption|].
  destruct R as (L & W). pose proof (words_of_pos n Hn).
  rewrite rd_shift_right_words by lia. unfold shr_word.
  replace (S (words_of n - 1) <? length v)%nat with false
    by (symmetry; apply Nat.ltb_ge; lia).
  apply fits_shiftr; [pose proof (pad_bits_range n); lia|exact Hk|exact P].
Qed.

Lemma word_shl_64 x : word_shl x 64 = 0.
Proof.
  unfold word_shl, wrap. rewrite Z.shiftl_mul_pow2 by lia.
  apply Z.mod_mul. lia.
Qed.

Lemma word_shl_0 x : word_ok x -> word_shl x 0 = x.
Proof. intros H. unfold word_shl. rewrite Z.shiftl_0_r. apply wrap_small, H. Qed.

Lemma word_shr_64 x : word_ok x -> word_shr x 64 = 0.
Proof.
  intros H. unfold word_shr. rewrite Z.shiftr_div_pow2 by lia.
  apply Z.div_small. exact H.
Qed.

(** A shift by zero bits is the identity, also for the reference. *)
Lemma shift_right_words_0 v :
  (forall j, word_ok (rd v j)) -> shift_right_words v 0 = v.
Proof.
  intros W. apply rd_ext; [apply length_shift_right_words|].
  intros j Hj. rewrite length_shift_right_words in Hj.
  rewrite rd_shift_right_words by lia. unfold shr_word, word_shr.
  rewrite Z.shiftr_0_r. change (64 - 0) with 64. rewrite word_shl_64, Z.lor_0_r.
  destruct (S j <? length v)%nat; reflexivity.
Qed.

Lemma shift_left_words_0 v :
  (forall j, word_ok (rd v j)) -> shift_left_words v 0 = v.
Proof.
  intros W. apply rd_ext; [apply length_shift_left_words|].
  intros j Hj. rewrite length_shift_left_words in Hj.
  rewrite rd_shift_left_words by lia. unfold shl_word.
  change (64 - 0) with 64. rewrite word_shl_0, word_shr_64 by apply W.
  rewrite Z.lor_0_r. destruct (0 <? j)%nat; reflexivity.
Qed.

(** ** The element-wise operations on well-formed vectors *)

Section ElementWise.

Variable cfg : build_t.

(** When the combination has clear padding, the portable tail writes it as
    it is: the final mask changes nothing. *)
Lemma masked_loop_vec op n res a b :
  vec_rawb n res = true -> vec_rawb n a = true -> vec_rawb n b = true ->
  vwords n (zipw op (row a 0) (row b 0)) ->
  masked_loop op res a b = set_row res 0 (zipw op (row a 0) (row b 0)).
Proof.
  intros Hr Ha Hb Hz. unfold masked_loop.
  pose proof (vec_rawb_row _ _ Hr) as (Lr & _).
  pose proof (vec_rawb_row _ _ Ha) as (La & _).
  pose proof (vec_rawb_row _ _ Hb) as (Lb & _).
  rewrite (vec_rawb_width _ _ Ha), (vec_rawb_mask _ _ Ha).
  assert (E : word_loop op (words_of n) 0 (row res 0) (row a 0) (row b 0)
              = zipw op (row a 0) (row b 0)).
  { rewrite <- Lr. apply word_loop_zipw; lia. }
  rewrite E.
  destruct Hz as (_ & Hp).
  rewrite mask_of_ones.
  replace (Z.land _ _) with (rd (zipw op (row a 0) (row b 0)) (words_of n - 1)).
  - rewrite upd_same. reflexivity.
  - symmetry. apply land_ones_fits; [pose proof (pad_bits_range n); lia|].
    exact Hp.
Qed.

Lemma simd_vec op lane n res a b :
  (1 <= lane)%nat ->
  vec_rawb n res = true -> vec_rawb n a = true -> vec_rawb n b = true ->
  set_row res 0
    (simd_region op lane lane (width a) (row res 0) (row a 0) (row b 0))
  = set_row res 0 (zipw op (row a 0) (row b 0)).
Proof.
  intros Hl Hr Ha Hb.
  pose proof (vec_rawb_row _ _ Hr) as (Lr & _).
  pose proof (vec_rawb_row _ _ Ha) as (La & _).
  pose proof (vec_rawb_row _ _ Hb) as (Lb & _).
  rewrite simd_region_word_loop by assumption.
  rewrite (vec_rawb_width _ _ Ha). rewrite <- Lr.
  rewrite word_loop_zipw by lia. reflexivity.
Qed.

(** [mzd_xor] into a buffer, on operands whose sum has clear padding,
    whatever the build and the CPU. *)
Lemma mzd_xor_raw n res a b :
  vec_rawb n res = true -> vec_rawb n a = true -> vec_rawb n b = true ->
  vwords n (zipw Z.lxor (row a 0) (row b 0)) ->
  mzd_xor cfg (Some res) a b = set_row res 0 (zipw Z.lxor (row a 0) (row b 0)).
Proof.
  intros Hr Ha Hb Hz. unfold mzd_xor, mzd_xor_avx, mzd_xor_sse.
  destruct (use_avx cfg a); [apply (simd_vec Z.lxor 4 n); auto; lia|].
  destruct (use_sse cfg a); [apply (simd_vec Z.lxor 2 n); auto; lia|].
  apply (masked_loop_vec Z.lxor n); auto.
Qed.

Lemma mzd_and_raw n res a b :
  vec_rawb n res = true -> vec_rawb n a = true -> vec_rawb n b = true ->
  vwords n (zipw Z.land (row a 0) (row b 0)) ->
  mzd_and cfg (Some res) a b = set_row res 0 (zipw Z.land (row a 0) (row b 0)).
Proof.
  intros Hr Ha Hb Hz. unfold mzd_and, mzd_and_avx, mzd_and_sse.
  destruct (use_avx cfg a); [apply (simd_vec Z.land 4 n); auto; lia|].
  destruct (use_sse cfg a); [apply (simd_vec Z.land 2 n); auto; lia|].
  apply (masked_loop_vec Z.land n); auto.
Qed.

(** [mzd_xor] and [mzd_and] on vectors. *)
Lemma mzd_xor_vec n res a b :
  vec_rawb n res = true -> vec_okb n a = true -> vec_okb n b = true ->
  mzd_xor cfg (Some res) a b = set_row res 0 (zipw Z.lxor (row a 0) (row b 0)).
Proof.
  intros Hr Ha Hb. apply (mzd_xor_raw n); auto using vec_okb_raw.
  apply vwords_zipw_lxor; eauto using vec_rawb_pos, vec_okb_row.
Qed.

Lemma mzd_and_vec n res a b :
  vec_rawb n res = true -> vec_okb n a = true -> vec_okb n b = true ->
  mzd_and cfg (Some res) a b = set_row res 0 (zipw Z.land (row a 0) (row b 0)).
Proof.
  intros Hr Ha Hb. apply (mzd_and_raw n); auto using vec_okb_raw.
  apply vwords_zipw_land_l; eauto using vec_rawb_pos, vec_okb_row.
  apply vec_okb_row in Hb. apply Hb.
Qed.

End ElementWise.

(** ** The copy and the shifts on buffers *)

Section Shifts.

Variable mzd_copy : mzd_t -> mzd_t -> mzd_t.

(** [mzd_local_copy] between buffers of the same shape copies the row. *)
Lemma mzd_local_copy_vec n res val :
  vec_rawb n res = true -> vec_rawb n val = true ->
  mzd_local_copy mzd_copy (Some res) val = set_row res 0 (row val 0).
Proof.
  intros Hr Hv.
  destruct (vec_rawb_inv n res Hr) as (rs & fl & ws & -> & (Lw & _) & Hn & Hfl).
  destruct (vec_rawb_inv n val Hv) as (rs' & fl' & ws' & -> & (Lw' & _) & _).
  unfold mzd_local_copy, has_custom_layout; fields.
  apply Z.eqb_neq in Hfl. rewrite Hfl, Nat.eqb_refl. cbn -[words_of mask_of].
  unfold set_row, row; cbn -[words_of mask_of].
  rewrite <- Lw, memcpy_all by lia. reflexivity.
Qed.

(** [mzd_shift_right] writes the reference shift into the destination. *)
Lemma mzd_shift_right_vec n res val k :
  0 <= k < 64 -> vec_rawb n res = true -> vec_rawb n val = true ->
  mzd_shift_right mzd_copy res val k
  = set_row res 0 (shift_right_words (row val 0) k).
Proof.
  intros Hk Hr Hv. unfold mzd_shift_right.
  pose proof (vec_rawb_row _ _ Hr) as (Lr & _).
  pose proof (vec_rawb_row _ _ Hv) as (Lv & Wv).
  pose proof (words_of_pos n (vec_rawb_pos _ _ Hr)) as Hw.
  destruct (Z.eqb_spec k 0) as [->|Hk0].
  - rewrite shift_right_words_0 by exact Wv.
    apply (mzd_local_copy_vec n); assumption.
  - rewrite uint_sub_count by lia. rewrite (vec_rawb_width _ _ Hv).
    destruct (shift_right_loop_spec (words_of n - 1) 0 k (64 - k)
                (row res 0) (row val 0)) as (F & L & R).
    destruct (shift_right_loop (words_of n - 1) 0 k (64 - k)
                (row res 0) (row val 0)) as [p r].
    cbn [fst snd] in F, L, R. subst p. f_equal.
    apply rd_ext.
    + rewrite length_upd, length_shift_right_words; lia.
    + intros j Hj. rewrite length_upd in Hj.
      rewrite rd_upd, R, rd_shift_right_words by lia. unfold shr_word.
      destruct (Nat.eqb_spec (0 + (words_of n - 1)) j),
        (Nat.ltb_spec (0 + (words_of n - 1)) (length r)),
        (Nat.leb_spec 0 j), (Nat.ltb_spec j (0 + (words_of n - 1))),
        (Nat.ltb_spec j (length (row res 0))),
        (Nat.ltb_spec (S j) (length (row val 0)));
        simpl; subst; auto; lia.
Qed.

(** [mzd_shift_left] writes the reference shift into the destination. *)
Lemma mzd_shift_left_vec n res val k :
  0 <= k < 64 -> vec_rawb n res = true -> vec_rawb n val = true ->
  mzd_shift_left mzd_copy res val k
  = set_row res 0 (shift_left_words (row val 0) k).
Proof.
  intros Hk Hr Hv. unfold mzd_shift_left.
  pose proof (vec_rawb_row _ _ Hr) as (Lr & _).
  pose proof (vec_rawb_row _ _ Hv) as (Lv & Wv).
  pose proof (words_of_pos n (vec_rawb_pos _ _ Hr)) as Hw.
  destruct (Z.eqb_spec k 0) as [->|Hk0].
  - rewrite shift_left_words_0 by exact Wv.
    apply (mzd_local_copy_vec n); assumption.
  - rewrite uint_sub_count by lia. rewrite (vec_rawb_width _ _ Hv).
    destruct (shift_left_loop_spec (words_of n - 1) (words_of n - 1) k (64 - k)
                (row res 0) (row val 0) (le_n _)) as (F & L & R).
    destruct (shift_left_loop (words_of n - 1) (words_of n - 1) k (64 - k)
                (row res 0) (row val 0)) as [p r].
    cbn [fst snd] in F, L, R. subst p. f_equal.
    apply rd_ext.
    + rewrite length_upd, length_shift_left_words; lia.
    + intros j Hj. rewrite length_upd in Hj.
      rewrite rd_upd, R, rd_shift_left_words by lia. unfold shl_word.
      replace (words_of n - 1 - (words_of n - 1))%nat with 0%nat by lia.
      destruct (Nat.eqb_spec 0 j), (Nat.ltb_spec 0 (length r)),
        (Nat.ltb_spec 0 j), (Nat.leb_spec j (words_of n - 1)),
        (Nat.ltb_spec j (length (row res 0)));
        simpl; subst; auto; lia.
Qed.

End Shifts.

(** ** The AND gate, one party at a time *)

Lemma arr3_inv (P : mzd_t -> bool) a :
  (length a =? 3)%nat && forallb P a = true ->
  exists x0 x1 x2,
    a = [x0; x1; x2] /\ P x0 = true /\ P x1 = true /\ P x2 = true.
Proof.
  rewrite Bool.andb_true_iff, Nat.eqb_eq. intros [L F].
  destruct a as [|x0 [|x1 [|x2 [|? ?]]]]; try discriminate.
  cbn [forallb] in F. rewrite !Bool.andb_true_iff in F.
  exists x0, x1, x2. tauto.
Qed.

Lemma vwords_and_gate n first second r m j :
  vec_okb n (ix first m) = true -> vec_okb n (ix first j) = true ->
  vec_okb n (ix second m) = true -> vec_okb n (ix second j) = true ->
  vec_okb n (ix r m) = true -> vec_okb n (ix r j) = true ->
  vwords n (and_gate_words first second r m j).
Proof.
  intros Fm Fj Sm Sj Rm Rj. pose proof (vec_rawb_pos _ _ (vec_okb_raw _ _ Fm)).
  pose proof (vec_okb_row _ _ Sm) as [WSm _].
  pose proof (vec_okb_row _ _ Sj) as [WSj _].
  unfold and_gate_words.
  auto 10 using vwords_zipw_lxor, vwords_zipw_land_l, vec_okb_row.
Qed.

Lemma vec_rawb_init_ex n junk :
  (1 <= n)%nat -> vec_rawb n (mzd_local_init_ex 1 n false junk) = true.
Proof.
  intros Hn. unfold mzd_local_init_ex, mzd_local_init. fields.
  cbn [seq map]. apply vec_rawb_intro; [assumption| |].
  - destruct (_ =? _); discriminate.
  - split; [rewrite length_map, length_seq; reflexivity|].
    intros j. fold (words_of n).
    destruct (Nat.ltb_spec j (words_of n)).
    + rewrite rd_map_seq by assumption. apply wrap_ok.
    + unfold rd. rewrite nth_overflow
        by (rewrite length_map, length_seq; assumption).
      apply word_ok_0.
Qed.

Lemma and_gate_bits a0 a1 a2 b0 b1 b2 r0 r1 r2 :
  Z.lxor
    (Z.lxor
       (Z.lxor (Z.lxor (Z.lxor (Z.lxor (Z.land a0 b0) (Z.land a1 b0))
                          (Z.land a0 b1)) r0) r1)
       (Z.lxor (Z.lxor (Z.lxor (Z.lxor (Z.land a1 b1) (Z.land a2 b1))
                          (Z.land a1 b2)) r1) r2))
    (Z.lxor (Z.lxor (Z.lxor (Z.lxor (Z.land a2 b2) (Z.land a0 b2))
                       (Z.land a2 b0)) r2) r0)
  = Z.land (Z.lxor (Z.lxor a0 a1) a2) (Z.lxor (Z.lxor b0 b1) b2).
Proof.
  apply Z.bits_inj'; intros i Hi.
  rewrite ?Z.lxor_spec, ?Z.land_spec, ?Z.lxor_spec.
  btauto.
Qed.

Section ShareFacts.

Variable cfg : build_t.

(** Accumulating one more term into a destination that already holds a
    vector. *)
Lemma xor_acc n x ws a :
  vec_rawb n x = true -> vwords n ws -> vec_okb n a = true ->
  mzd_xor cfg (Some (set_row x 0 ws)) (set_row x 0 ws) a
  = set_row x 0 (zipw Z.lxor ws (row a 0)).
Proof.
  intros Hx Hws Ha.
  rewrite (mzd_xor_vec cfg n)
    by auto using vec_rawb_set_row, vec_okb_set_row, vec_okb_raw.
  rewrite set_row_set_row, (row_set_row n) by assumption. reflexivity.
Qed.

Lemma and_into n x ws a b :
  vec_rawb n x = true -> rwords n ws ->
  vec_okb n a = true -> vec_okb n b = true ->
  mzd_and cfg (Some (set_row x 0 ws)) a b
  = set_row x 0 (zipw Z.land (row a 0) (row b 0)).
Proof.
  intros Hx Hws Ha Hb.
  rewrite (mzd_and_vec cfg n) by auto using vec_rawb_set_row.
  apply set_row_set_row.
Qed.

Lemma and_round_spec n first second r m j res buffer :
  vec_okb n (ix first m) = true -> vec_okb n (ix first j) = true ->
  vec_okb n (ix second m) = true -> vec_okb n (ix second j) = true ->
  vec_okb n (ix r m) = true -> vec_okb n (ix r j) = true ->
  vec_rawb n (ix res m) = true -> (m < length res)%nat ->
  vec_rawb n (ix buffer 0) = true -> (0 < length buffer)%nat ->
  and_round cfg first second r m j (res, buffer)
  = (upd res m (set_row (ix res m) 0 (and_gate_words first second r m j)),
     upd buffer 0
       (set_row (ix buffer 0) 0
          (zipw Z.land (row (ix first m) 0) (row (ix second j) 0)))).
Proof.
  intros Fm Fj Sm Sj Rm Rj Hres Lres Hb Lb.
  pose proof (vec_rawb_pos _ _ Hres) as Hn.
  pose proof (vec_okb_row _ _ Fm) as WFm. pose proof (vec_okb_row _ _ Fj) as WFj.
  pose proof (vec_okb_row _ _ Sm) as WSm. pose proof (vec_okb_row _ _ Sj) as WSj.
  pose proof (vec_okb_row _ _ Rm) as WRm. pose proof (vec_okb_row _ _ Rj) as WRj.
  assert (T1 : vwords n (zipw Z.land (row (ix first m) 0) (row (ix second m) 0)))
    by (apply vwords_zipw_land_l; [assumption|assumption|apply WSm]).
  assert (T2 : vwords n (zipw Z.land (row (ix first j) 0) (row (ix second m) 0)))
    by (apply vwords_zipw_land_l; [assumption|assumption|apply WSm]).
  assert (T3 : vwords n (zipw Z.land (row (ix first m) 0) (row (ix second j) 0)))
    by (apply vwords_zipw_land_l; [assumption|assumption|apply WSj]).
  unfold and_round, and_gate_words. cbv zeta.
  rewrite ?ix_upd_same, ?upd_upd by (rewrite ?length_upd; lia).
  rewrite (mzd_and_vec cfg n (ix res m)) by assumption.
  rewrite (mzd_and_vec cfg n (ix buffer 0)) by assumption.
  rewrite (xor_acc n) by auto using vec_okb_set_row.
  rewrite (row_set_row n) by assumption.
  rewrite (and_into n) by (auto; apply T2).
  rewrite (xor_acc n) by auto using vec_okb_set_row, vwords_zipw_lxor.
  rewrite (row_set_row n) by assumption.
  rewrite (xor_acc n) by auto using vec_okb_set_row, vwords_zipw_lxor.
  rewrite (xor_acc n) by auto 6 using vec_okb_set_row, vwords_zipw_lxor.
  reflexivity.
Qed.
Lemma mpc_reconstruct_spec n dst sv junk :
  arr_okb n 3 sv = true -> dst_okb n dst = true ->
  row (mpc_reconstruct_from_share cfg dst sv junk) 0
  = zipw Z.lxor (zipw Z.lxor (row (ix sv 0) 0) (row (ix sv 1) 0))
      (row (ix sv 2) 0).
Proof.
  intros Hs Hd.
  destruct (arr3_inv _ _ Hs) as (s0 & s1 & s2 & -> & S0 & S1 & S2).
  pose proof (vec_rawb_pos _ _ (vec_okb_raw _ _ S0)) as Hn.
  unfold mpc_reconstruct_from_share. cbn [ix nth].
  set (d := match dst with Some d => d | None => _ end).
  assert (Hd' : vec_rawb n d = true).
  { subst d. destruct dst as [d|]; [exact Hd|].
    destruct (vec_okb_inv n s0 S0) as (rs & fl & ws & -> & _). fields.
    apply vec_rawb_init_ex; assumption. }
  rewrite (mzd_xor_vec cfg n d) by assumption.
  rewrite (xor_acc n) by auto using vwords_zipw_lxor, vec_okb_row.
  apply (row_set_row n); assumption.
Qed.

End ShareFacts.

(** ** The AND gate and the reconstruction *)
Section ShareGate.

Variable cfg : build_t.
Variable mzd_copy : mzd_t -> mzd_t -> mzd_t.

Lemma mpc_and_spec n res first second r view viewshift buffer :
  0 <= viewshift < 64 ->
  arr_rawb n 3 res = true -> arr_okb n 3 first = true ->
  arr_okb n 3 second = true -> arr_okb n 3 r = true ->
  arr_okb n 3 (s view) = true -> arr_rawb n 3 buffer = true ->
  let G m := and_gate_words first second r m ((m + 1) mod 3) in
  mpc_and cfg mzd_copy res first second r view viewshift buffer
  = (map (fun m => set_row (ix res m) 0 (G m)) [0; 1; 2]%nat,
     mk_view
       (map (fun m =>
               set_row (ix (s view) m) 0
                 (zipw Z.lxor (row (ix (s view) m) 0)
                    (shift_right_words (G m) viewshift)))
            [0; 1; 2]%nat),
     map (fun m => set_row (ix buffer m) 0 (shift_right_words (G m) viewshift))
         [0; 1; 2]%nat).
Proof.
  intros Hk Hres Hf Hs Hr Hv Hb G.
  destruct (arr3_inv _ _ Hres) as (x0 & x1 & x2 & -> & X0 & X1 & X2).
  destruct (arr3_inv _ _ Hf) as (a0 & a1 & a2 & Ea & A0 & A1 & A2).
  destruct (arr3_inv _ _ Hs) as (b0 & b1 & b2 & Eb & B0 & B1 & B2).
  destruct (arr3_inv _ _ Hr) as (r0 & r1 & r2 & Er & R0 & R1 & R2).
  destruct (arr3_inv _ _ Hv) as (v0 & v1 & v2 & Ev & V0 & V1 & V2).
  destruct (arr3_inv _ _ Hb) as (y0 & y1 & y2 & -> & Y0 & Y1 & Y2).
  assert (G0 : vwords n (G 0%nat))
    by (subst G first second r; apply vwords_and_gate; assumption).
  assert (G1 : vwords n (G 1%nat))
    by (subst G first second r; apply vwords_and_gate; assumption).
  assert (G2 : vwords n (G 2%nat))
    by (subst G first second r; apply vwords_and_gate; assumption).
  pose proof (vec_rawb_pos _ _ X0) as Hn.
  unfold mpc_and. cbn [fold_left seq SC_PROOF].
  rewrite (and_round_spec cfg n first second r 0 ((0 + 1) mod 3))
    by (subst first second r; cbn [length]; first [assumption | lia]).
  fold (G 0%nat). cbn [upd ix nth].
  rewrite (and_round_spec cfg n first second r 1 ((1 + 1) mod 3))
    by (subst first second r; cbn [length]; first [assumption | lia
         | apply vec_rawb_set_row; [assumption|]; apply vwords_zipw_land_l;
           auto using vec_okb_row; apply vec_okb_row; assumption ]).
  fold (G 1%nat). cbn [upd ix nth]. rewrite set_row_set_row.
  rewrite (and_round_spec cfg n first second r 2 ((2 + 1) mod 3))
    by (subst first second r; cbn [length]; first [assumption | lia
         | apply vec_rawb_set_row; [assumption|]; apply vwords_zipw_land_l;
           auto using vec_okb_row; apply vec_okb_row; assumption ]).
  fold (G 2%nat). cbn [upd ix nth]. rewrite set_row_set_row.
  unfold mpc_shift_right, mpc_xor. cbn [fold_left seq SC_PROOF upd ix nth].
  rewrite !(mzd_shift_right_vec mzd_copy n)
    by (auto using vec_rawb_set_row, vec_okb_raw, vec_okb_set_row;
        apply vec_rawb_set_row; auto; apply vwords_zipw_land_l;
        subst first second r; auto using vec_okb_row;
        apply vec_okb_row; assumption).
  rewrite !(row_set_row n) by assumption. rewrite set_row_set_row.
  rewrite Ev. cbn [fold_left seq SC_PROOF upd ix nth map].
  assert (S0 : vwords n (shift_right_words (G 0%nat) viewshift))
    by (apply vwords_shift_right; [assumption|lia|assumption]).
  assert (S1 : vwords n (shift_right_words (G 1%nat) viewshift))
    by (apply vwords_shift_right; [assumption|lia|assumption]).
  assert (S2 : vwords n (shift_right_words (G 2%nat) viewshift))
    by (apply vwords_shift_right; [assumption|lia|assumption]).
  rewrite !(mzd_xor_vec cfg n) by auto using vec_okb_raw, vec_okb_set_row.
  rewrite !(row_set_row n) by assumption.
  reflexivity.
Qed.


End ShareGate.

(** ** The verifier gate and the share constructor *)
Lemma ix_rawb_lt n a i : vec_rawb n (ix a i) = true -> (i < length a)%nat.
Proof.
  intros H. destruct (Nat.ltb_spec i (length a)) as [|Hge]; [assumption|].
  unfold ix in H. rewrite nth_overflow in H by assumption.
  unfold vec_rawb, mzd_rawb in H. cbn [ncols Nat.leb andb] in H. discriminate.
Qed.

Section ShareVerify.

Variable cfg : build_t.
Variable mzd_copy : mzd_t -> mzd_t -> mzd_t.

Lemma mpc_and_verify_spec n res first second r view mask viewshift buffer :
  0 <= viewshift < 64 ->
  pair_rawb n res = true -> pair_okb n first = true ->
  pair_okb n second = true -> pair_okb n r = true ->
  pair_okb n (s view) = true -> vec_okb n mask = true ->
  vec_rawb n (ix buffer 0) = true ->
  let G := and_gate_words first second r 0 1 in
  mpc_and_verify cfg mzd_copy res first second r view mask viewshift buffer
  = (upd (upd res 0 (set_row (ix res 0) 0 G)) 1
       (set_row (ix res 1) 0
          (zipw Z.land (shift_left_words (row (ix (s view) 1) 0) viewshift)
             (row mask 0))),
     mk_view
       (upd (s view) 0
          (set_row (ix (s view) 0) 0
             (zipw Z.lxor (row (ix (s view) 0) 0)
                (shift_right_words G viewshift)))),
     upd buffer 0 (set_row (ix buffer 0) 0 (shift_right_words G viewshift))).
Proof.
  intros Hk Hres Hf Hs Hr Hv Hm Hb G.
  unfold pair_rawb, pair_okb in *.
  apply Bool.andb_true_iff in Hres, Hf, Hs, Hr, Hv.
  destruct Hres as [X0 X1], Hf as [A0 A1], Hs as [B0 B1], Hr as [R0 R1],
    Hv as [V0 V1].
  pose proof (ix_rawb_lt _ _ _ X0) as LX0.
  pose proof (ix_rawb_lt _ _ _ X1) as LX1.
  pose proof (ix_rawb_lt _ _ _ (vec_okb_raw _ _ V0)) as LV0.
  pose proof (ix_rawb_lt _ _ _ (vec_okb_raw _ _ V1)) as LV1.
  pose proof (ix_rawb_lt _ _ _ Hb) as LB.
  pose proof (vec_rawb_pos _ _ X0) as Hn.
  assert (WG : vwords n G) by (apply vwords_and_gate; assumption).
  assert (WS : vwords n (shift_right_words G viewshift))
    by (apply vwords_shift_right; [assumption|lia|assumption]).
  pose proof (vec_okb_row _ _ Hm) as WM.
  pose proof (vec_okb_row _ _ V1) as [WV1 _].
  pose proof (vec_okb_row _ _ A0) as WA0.
  pose proof (vec_okb_row _ _ B1) as [WB1 _].
  unfold mpc_and_verify. cbn [fold_left seq SC_VERIFY Nat.sub].
  rewrite (and_round_spec cfg n first second r 0 (0 + 1)) by assumption.
  fold G.
  rewrite ?ix_upd_same, ?upd_upd by (rewrite ?length_upd; lia).
  rewrite (mzd_shift_right_vec mzd_copy n)
    by (auto using vec_rawb_set_row, vec_okb_raw, vec_okb_set_row;
        apply vec_rawb_set_row; auto; apply vwords_zipw_land_l; auto).
  rewrite (row_set_row n), set_row_set_row by assumption.
  rewrite (mzd_xor_vec cfg n) by auto using vec_okb_raw, vec_okb_set_row.
  rewrite (row_set_row n) by assumption.
  rewrite !(ix_upd_other _ 0 1) by lia.
  rewrite (mzd_shift_left_vec mzd_copy n) by auto using vec_okb_raw.
  rewrite ?ix_upd_same, ?upd_upd by (rewrite ?length_upd; lia).
  rewrite (mzd_and_raw cfg n).
  - rewrite set_row_set_row, (row_set_row n) by assumption. reflexivity.
  - apply vec_rawb_set_row; [assumption|].
    apply rwords_shift_left; [lia|assumption].
  - apply vec_rawb_set_row; [assumption|].
    apply rwords_shift_left; [lia|assumption].
  - apply vec_okb_raw; assumption.
  - rewrite (row_set_row n) by assumption.
    apply vwords_zipw_land_r; [assumption| |assumption].
    apply rwords_shift_left; [lia|assumption].
Qed.

End ShareVerify.

Lemma lxor_cancel a b v : Z.lxor (Z.lxor a b) (Z.lxor (Z.lxor a b) v) = v.
Proof. rewrite <- Z.lxor_assoc, Z.lxor_nilpotent. apply Z.lxor_0_l. Qed.

Lemma rwords_rand_bytes n g : rwords n (fst (rand_bytes (words_of n) g)).
Proof.
  unfold rand_bytes; cbn [fst]. split.
  - rewrite length_map, length_seq; reflexivity.
  - intros j. destruct (Nat.ltb_spec j (words_of n)).
    + rewrite rd_map_seq by assumption. apply wrap_ok.
    + unfold rd. rewrite nth_overflow
        by (rewrite length_map, length_seq; assumption).
      apply word_ok_0.
Qed.

Lemma vwords_mask_last n ws :
  (1 <= n)%nat -> rwords n ws -> vwords n (mask_last n ws).
Proof.
  intros Hn (L & W). pose proof (words_of_pos n Hn).
  pose proof (pad_bits_range n). unfold mask_last.
  assert (F : 0 <= Z.land (rd ws (words_of n - 1)) (mask_of n)
              < 2 ^ pad_bits n).
  { rewrite mask_of_ones. apply fits_land_r; [lia|].
    apply land_ones_fits; [lia|]. apply Z.land_diag. }
  split; [split|].
  - rewrite length_upd; exact L.
  - intros j. rewrite rd_upd.
    destruct (_ && _); [|apply W].
    apply fits_land_l; [lia|apply W].
  - rewrite rd_upd, Nat.eqb_refl.
    replace (words_of n - 1 <? length ws)%nat with true
      by (symmetry; apply Nat.ltb_lt; lia).
    exact F.
Qed.

Section ShareInit.

Variable cfg : build_t.

(** [mzd_randomize_ssl] turns a buffer into a vector of random words. *)
Lemma mzd_randomize_ssl_vec n val g :
  vec_rawb n val = true ->
  mzd_randomize_ssl val g
  = (set_row val 0 (mask_last n (fst (rand_bytes (words_of n) g))),
     snd (rand_bytes (words_of n) g)).
Proof.
  intros H.
  destruct (vec_rawb_inv n val H) as (rs & fl & ws & -> & (L & _) & Hn & Hfl).
  unfold mzd_randomize_ssl. fields. cbn [seq fold_left].
  destruct (rand_bytes (words_of n) g) as [rw g'] eqn:E. cbn [fst snd].
  assert (Lr : length rw = words_of n).
  { pose proof (rwords_rand_bytes n g) as (Lr & _). rewrite E in Lr. exact Lr. }
  unfold row, set_row. fields. cbn [nth upd].
  assert (M : memcpy (words_of n) 0 ws rw = rw)
    by (rewrite <- L; apply memcpy_all; lia).
  rewrite M. reflexivity.
Qed.

End ShareInit.

(** ** The claims *)

Lemma testbit_word_shl x k i :
  0 <= k -> 0 <= i ->
  Z.testbit (word_shl x k) i = (i <? 64) && (k <=? i) && Z.testbit x (i - k).
Proof.
  intros Hk Hi. unfold word_shl, wrap.
  rewrite Z.testbit_mod_pow2, Z.shiftl_spec by lia.
  destruct (Z.ltb_spec i 64), (Z.leb_spec k i); simpl; auto.
  apply Z.testbit_neg_r; lia.
Qed.

Lemma testbit_word_shr x k i :
  0 <= k -> 0 <= i -> Z.testbit (word_shr x k) i = Z.testbit x (i + k).
Proof. intros Hk Hi. unfold word_shr. apply Z.shiftr_spec; lia. Qed.

Lemma word_ok_high x i : word_ok x -> 64 <= i -> Z.testbit x i = false.
Proof. intros H. apply (fits_bits 64 x); [lia|exact H]. Qed.

Lemma testbit_hi v k j i :
  0 < k < 64 -> 0 <= i ->
  Z.testbit (word_shl (shr_word v k j) k) i
  = (i <? 64) && (k <=? i) && Z.testbit (rd v j) i.
Proof.
  intros Hk Hi. rewrite testbit_word_shl by lia. unfold shr_word.
  destruct (Z.ltb_spec i 64), (Z.leb_spec k i); cbn [andb orb]; auto.
  destruct (S j <? length v)%nat;
    rewrite ?Z.lor_spec, ?testbit_word_shr, ?testbit_word_shl by lia;
    replace (i - k + k) with i by lia; auto.
  replace (64 - k <=? i - k) with false by (symmetry; apply Z.leb_gt; lia).
  rewrite Bool.andb_false_r. cbn [andb orb]. apply Bool.orb_false_r.
Qed.

Lemma testbit_lo v k j i :
  0 < k < 64 -> 0 <= i -> (forall j, word_ok (rd v j)) ->
  (S j < length v)%nat ->
  Z.testbit (word_shr (shr_word v k j) (64 - k)) i
  = (i <? k) && Z.testbit (rd v (S j)) i.
Proof.
  intros Hk Hi W Hj. rewrite testbit_word_shr by lia. unfold shr_word.
  replace (S j <? length v)%nat with true by (symmetry; apply Nat.ltb_lt; lia).
  rewrite Z.lor_spec, testbit_word_shr, testbit_word_shl by lia.
  rewrite (word_ok_high (rd v j)) by (auto; lia). cbn [andb orb].
  replace (i + (64 - k) - (64 - k)) with i by lia.
  destruct (Z.ltb_spec (i + (64 - k)) 64), (Z.leb_spec (64 - k) (i + (64 - k))),
    (Z.ltb_spec i k); cbn [andb orb]; auto; lia.
Qed.

Lemma shift_left_right_words v k :
  0 < k < 64 -> (forall j, word_ok (rd v j)) ->
  (forall i, 0 <= i < k -> Z.testbit (rd v 0) i = false) ->
  shift_left_words (shift_right_words v k) k = v.
Proof.
  intros Hk W Hlow. apply rd_ext.
  - rewrite length_shift_left_words, length_shift_right_words; reflexivity.
  - intros j Hj.
    rewrite length_shift_left_words, length_shift_right_words in Hj.
    rewrite rd_shift_left_words by (rewrite length_shift_right_words; lia).
    unfold shl_word.
    apply Z.bits_inj'; intros i Hi.
    destruct (Nat.ltb_spec 0 j).
    + rewrite Z.lor_spec.
      rewrite !rd_shift_right_words by lia.
      rewrite testbit_hi by lia.
      replace j with (S (j - 1)) at 3 4 by lia.
      rewrite testbit_lo by (auto; lia).
      replace (S (j - 1)) with j by lia.
      destruct (Z.ltb_spec i 64), (Z.leb_spec k i), (Z.ltb_spec i k);
        cbn [andb orb]; auto; try lia; try apply Bool.orb_false_r.
      symmetry; apply word_ok_high; auto.
    + assert (j = 0)%nat by lia. subst j.
      rewrite rd_shift_right_words by lia. rewrite testbit_hi by lia.
      destruct (Z.ltb_spec i 64), (Z.leb_spec k i); cbn [andb orb]; auto.
      * symmetry; apply Hlow; lia.
      * symmetry; apply word_ok_high; auto.
      * symmetry; apply word_ok_high; auto.
Qed.

Lemma bits_zero_low ws k :
  0 < k < 64 -> bits_zero ws 0 (Z.to_nat k) = true ->
  forall i, 0 <= i < k -> Z.testbit (rd ws 0) i = false.
Proof.
  intros Hk H i Hi. unfold bits_zero in H. rewrite forallb_forall in H.
  specialize (H (Z.to_nat i)). rewrite in_seq in H.
  specialize (H ltac:(lia)). apply Bool.negb_true_iff in H.
  unfold vec_bit, m4ri_radix in H.
  rewrite Nat.div_small, Nat.mod_small, Z2Nat.id in H by lia. exact H.
Qed.

(** ** The vector by matrix product *)

Lemma fold_left_id {A B : Type} (f : A -> B -> A) l c :
  (forall x, In x l -> forall c, f c x = c) -> fold_left f l c = c.
Proof.
  revert c; induction l as [|x l IH]; intros c H; simpl; auto.
  rewrite H by (left; reflexivity). apply IH. intros; apply H; right; auto.
Qed.

Lemma fold_left_ext_in {A B : Type} (f g : A -> B -> A) l c :
  (forall x, In x l -> forall c, f c x = g c x) ->
  fold_left f l c = fold_left g l c.
Proof.
  revert c; induction l as [|x l IH]; intros c H; simpl; auto.
  rewrite H by (left; reflexivity). apply IH. intros; apply H; right; auto.
Qed.

Lemma bit_fold_0 X A base nbits c : bit_fold X A 0 base nbits c = c.
Proof.
  unfold bit_fold. apply fold_left_id. intros j _ c'.
  rewrite Z.testbit_0_l. reflexivity.
Qed.

Lemma fold_left_map_in {A B C : Type} (f : A -> B -> A) (g : C -> B) l c :
  fold_left f (map g l) c = fold_left (fun a x => f a (g x)) l c.
Proof.
  revert c; induction l as [|x l IH]; intros c; simpl; auto.
Qed.

(** One more bit: the lowest bit first, then the rest of the word. *)
Lemma bit_fold_S X A idx base nbits c :
  bit_fold X A idx base (S nbits) c
  = bit_fold X A (Z.shiftr idx 1) (S base) nbits
      (if Z.testbit idx 0 then X c (row A base) else c).
Proof.
  unfold bit_fold. rewrite <- cons_seq. cbn [fold_left].
  rewrite Nat.add_0_r. change (Z.of_nat 0) with 0.
  rewrite <- seq_shift, fold_left_map_in.
  apply fold_left_ext_in. intros j _ c'.
  rewrite Z.shiftr_spec by lia.
  replace (Z.of_nat (S j)) with (Z.of_nat j + 1) by lia.
  replace (base + S j)%nat with (S base + j)%nat by lia. reflexivity.
Qed.

Lemma land_1_testbit idx : (Z.land idx 1 =? 0) = negb (Z.testbit idx 0).
Proof.
  change 1 with (Z.ones 1). rewrite Z.land_ones by lia.
  change (2 ^ 1) with 2. rewrite Z.bit0_eqb.
  pose proof (Z.mod_pos_bound idx 2 ltac:(lia)).
  destruct (Z.eqb_spec (idx mod 2) 0), (Z.eqb_spec (idx mod 2) 1);
    simpl; auto; lia.
Qed.

(** The bit loop of the portable path adds the rows that the bits of the
    word select. *)
Lemma addmul_bits_fold A len mask fuel idx Aptr c :
  addmul_bits A len mask fuel idx Aptr c
  = bit_fold (addmul_row len mask) A idx Aptr fuel c.
Proof.
  revert idx Aptr c; induction fuel as [|fuel IH]; intros; [reflexivity|].
  cbn [addmul_bits]. destruct (Z.eqb_spec idx 0) as [->|Hne].
  - rewrite bit_fold_0. reflexivity.
  - rewrite bit_fold_S, IH, land_1_testbit, Bool.negb_involutive. reflexivity.
Qed.

Lemma bit_fold_add X A idx base n1 n2 c :
  bit_fold X A idx base (n1 + n2) c
  = fold_left
      (fun c j =>
         if Z.testbit idx (Z.of_nat j) then X c (row A (base + j)) else c)
      (seq n1 n2) (bit_fold X A idx base n1 c).
Proof.
  unfold bit_fold. rewrite seq_app, fold_left_app. reflexivity.
Qed.

(** 64 rounds are enough for a word: more fuel changes nothing. *)
Lemma addmul_bits_fuel A len mask extra idx Aptr c :
  word_ok idx ->
  addmul_bits A len mask (64 + extra) idx Aptr c
  = addmul_bits A len mask 64 idx Aptr c.
Proof.
  intros W. rewrite !addmul_bits_fold, bit_fold_add.
  apply fold_left_id. intros j Hj c'. apply in_seq in Hj.
  rewrite (word_ok_high idx) by (auto; lia). reflexivity.
Qed.

Lemma bit_fold_shift X A idx base k n c :
  bit_fold X A idx base (k + n) c
  = bit_fold X A (Z.shiftr idx (Z.of_nat k)) (base + k) n
      (bit_fold X A idx base k c).
Proof.
  rewrite bit_fold_add. unfold bit_fold at 2.
  replace (seq k n) with (map (fun j => (j + k)%nat) (seq 0 n)).
  - rewrite fold_left_map_in. apply fold_left_ext_in. intros j _ c'.
    rewrite Z.shiftr_spec by lia.
    replace (Z.of_nat (j + k)) with (Z.of_nat j + Z.of_nat k) by lia.
    replace (base + (j + k))%nat with (base + k + j)%nat by lia. reflexivity.
  - clear. revert k; induction n as [|n IH]; intros k; [reflexivity|].
    cbn [seq map]. f_equal. rewrite <- seq_shift, map_map.
    rewrite <- (IH (S k)). apply map_ext. intros; lia.
Qed.

(** The table of the switch lists, for every nibble, its set bits. *)
Lemma nibble_rows_bits t :
  0 <= t < 16 ->
  nibble_rows t = filter (fun k => Z.testbit t (Z.of_nat k)) [0; 1; 2; 3]%nat.
Proof.
  intros H.
  assert (C : t = 0 \/ t = 1 \/ t = 2 \/ t = 3 \/ t = 4 \/ t = 5 \/ t = 6
              \/ t = 7 \/ t = 8 \/ t = 9 \/ t = 10 \/ t = 11 \/ t = 12
              \/ t = 13 \/ t = 14 \/ t = 15) by lia.
  repeat (destruct C as [->|C]; [reflexivity|]). subst t. reflexivity.
Qed.

Lemma fold_left_filter {A B : Type} (f : A -> B -> A) (p : B -> bool) l c :
  fold_left f (filter p l) c
  = fold_left (fun a x => if p x then f a x else a) l c.
Proof.
  revert c; induction l as [|x l IH]; intros c; simpl; auto.
  destruct (p x); simpl; apply IH.
Qed.

Lemma nibble_step X A idx Aptr c :
  fold_left (fun c k => X c (row A (Aptr + k)))
    (nibble_rows (Z.land idx 0x0F)) c
  = bit_fold X A idx Aptr 4 c.
Proof.
  assert (R : 0 <= Z.land idx 0x0F < 16).
  { change 0x0F with (Z.ones 4). rewrite Z.land_ones by lia.
    apply Z.mod_pos_bound. reflexivity. }
  rewrite nibble_rows_bits by exact R.
  rewrite fold_left_filter. unfold bit_fold. cbn [seq].
  apply fold_left_ext_in. intros j Hj c'.
  rewrite Z.land_spec.
  replace (Z.testbit 15 (Z.of_nat j)) with true; [rewrite Bool.andb_true_r; reflexivity|].
  cbn [In] in Hj. destruct Hj as [<-|[<-|[<-|[<-|[]]]]]; reflexivity.
Qed.

(** The nibble loop of the vector paths adds the same rows as a bit
    loop over four times as many rounds. *)
Lemma addmul_nibbles_fold A lane len fuel idx Aptr c :
  addmul_nibbles A lane len fuel idx Aptr c
  = bit_fold (xor_region lane len) A idx Aptr (4 * fuel) c.
Proof.
  revert idx Aptr c; induction fuel as [|fuel IH]; intros; [reflexivity|].
  cbn [addmul_nibbles]. destruct (Z.eqb_spec idx 0) as [->|Hne].
  - rewrite bit_fold_0. reflexivity.
  - replace (4 * S fuel)%nat with (4 + 4 * fuel)%nat by lia.
    rewrite bit_fold_shift, IH, nibble_step. reflexivity.
Qed.

(** 16 rounds are enough for a word in the nibble loop as well. *)
Lemma addmul_nibbles_fuel A lane len extra idx Aptr c :
  word_ok idx ->
  addmul_nibbles A lane len (16 + extra) idx Aptr c
  = addmul_nibbles A lane len 16 idx Aptr c.
Proof.
  intros W. rewrite !addmul_nibbles_fold.
  replace (4 * (16 + extra))%nat with (4 * 16 + 4 * extra)%nat by lia.
  rewrite bit_fold_add.
  apply fold_left_id. intros j Hj c'. apply in_seq in Hj.
  rewrite (word_ok_high idx) by (auto; lia). reflexivity.
Qed.

Lemma length_xor_into n i c a : length (xor_into n i c a) = length c.
Proof.
  revert i c; induction n as [|n IH]; intros; simpl; auto.
  rewrite IH, length_upd; reflexivity.
Qed.

Lemma rd_xor_into n i c a j :
  rd (xor_into n i c a) j =
  if (i <=? j)%nat && (j <? i + n)%nat && (j <? length c)%nat
  then Z.lxor (rd c j) (rd a j) else rd c j.
Proof.
  revert i c; induction n as [|n IH]; intros; simpl.
  - destruct (Nat.leb_spec i j), (Nat.ltb_spec j (i + 0)); simpl; auto; lia.
  - rewrite IH, length_upd, !rd_upd.
    destruct (Nat.leb_spec (S i) j), (Nat.leb_spec i j),
      (Nat.ltb_spec j (S i + n)), (Nat.ltb_spec j (i + S n)),
      (Nat.eqb_spec i j), (Nat.ltb_spec i (length c)),
      (Nat.ltb_spec j (length c)); simpl; subst; auto; lia.
Qed.

Lemma xor_into_all c a :
  length a = length c -> xor_into (length c) 0 c a = zipw Z.lxor c a.
Proof.
  intros H. apply rd_ext.
  - rewrite length_xor_into, length_zipw; lia.
  - intros j Hj. rewrite length_xor_into in Hj.
    rewrite rd_xor_into, rd_zipw by lia.
    destruct (Nat.ltb_spec j (0 + length c)), (Nat.ltb_spec j (length c));
      simpl; auto; lia.
Qed.

(** On rows with clear padding the portable row step is a plain XOR. *)
Lemma addmul_row_vwords n c a :
  (1 <= n)%nat -> vwords n c -> vwords n a ->
  addmul_row (words_of n) (mask_of n) c a = zipw Z.lxor c a.
Proof.
  intros Hn ((Lc & Wc) & Pc) ((La & Wa) & Pa).
  pose proof (words_of_pos n Hn). pose proof (pad_bits_range n).
  unfold addmul_row. apply rd_ext.
  - rewrite length_upd, length_xor_into, length_zipw; lia.
  - intros j Hj. rewrite length_upd, length_xor_into in Hj.
    rewrite rd_upd, length_xor_into, !rd_xor_into, rd_zipw by lia.
    replace (words_of n - 1 <? 0 + (words_of n - 1))%nat with false
      by (symmetry; apply Nat.ltb_ge; lia).
    rewrite Bool.andb_false_r. cbn [andb].
    destruct (Nat.eqb_spec (words_of n - 1) j) as [<-|Hne].
    + replace (words_of n - 1 <? length c)%nat with true
        by (symmetry; apply Nat.ltb_lt; lia).
      cbn [andb]. rewrite mask_of_ones. apply land_ones_fits; [lia|].
      apply fits_lxor; [lia|assumption|assumption].
    + cbn [andb].
      destruct (Nat.leb_spec 0 j), (Nat.ltb_spec j (0 + (words_of n - 1))),
        (Nat.ltb_spec j (length c)); simpl; auto; lia.
Qed.

Lemma fold_left_inv {A B : Type} (P : A -> Prop) (f g : A -> B -> A) l c :
  P c ->
  (forall x c, In x l -> P c -> f c x = g c x /\ P (g c x)) ->
  fold_left f l c = fold_left g l c /\ P (fold_left g l c).
Proof.
  revert c; induction l as [|x l IH]; intros c Hc H; simpl; auto.
  destruct (H x c (or_introl eq_refl) Hc) as [E Hx]. rewrite E.
  apply IH; [exact Hx|]. intros y c' Hy. apply H. right; exact Hy.
Qed.

Lemma words_pad_total n :
  (1 <= n)%nat -> Z.of_nat (words_of n - 1) * 64 + pad_bits n = Z.of_nat n.
Proof.
  intros Hn. unfold words_of, pad_bits, m4ri_radix.
  destruct (Nat.eqb_spec (n mod 64) 0); dlia.
Qed.

(** A set bit of a vector lies below its number of columns. *)
Lemma vwords_bit_bound n ws w j :
  (1 <= n)%nat -> vwords n ws -> (w < words_of n)%nat ->
  Z.testbit (rd ws w) (Z.of_nat j) = true -> (w * 64 + j < n)%nat.
Proof.
  intros Hn ((L & W) & P) Hw Hb.
  pose proof (words_pad_total n Hn) as T. pose proof (pad_bits_range n).
  assert (Hj : (j < 64)%nat).
  { destruct (Nat.ltb_spec j 64); [assumption|].
    rewrite (word_ok_high (rd ws w)) in Hb by (auto; lia). discriminate. }
  destruct (Nat.eqb_spec w (words_of n - 1)) as [->|Hne]; [|lia].
  assert (Z.of_nat j < pad_bits n); [|lia].
  destruct (Z.ltb_spec (Z.of_nat j) (pad_bits n)); [assumption|].
  apply (fits_bits (pad_bits n)) with (i := Z.of_nat j) in P; [|lia|lia].
  congruence.
Qed.

Lemma mzd_rawb_inv A :
  mzd_rawb A = true ->
  (1 <= ncols A)%nat /\ width A = words_of (ncols A)
  /\ high_bitmask A = mask_of (ncols A)
  /\ forall i, (i < nrows A)%nat -> rwords (ncols A) (row A i).
Proof.
  unfold mzd_rawb.
  rewrite !Bool.andb_true_iff, Nat.leb_le, !Nat.eqb_eq, Z.eqb_eq.
  intros [[[[H1 H2] H3] H4] H5].
  split; [exact H1|]. split; [exact H2|]. split; [exact H3|].
  intros i Hi. rewrite forallb_forall in H5. rewrite H2 in H5.
  apply raw_rowb_rwords. apply H5. apply nth_In. lia.
Qed.

Lemma mzd_okb_inv A :
  mzd_okb A = true ->
  (1 <= ncols A)%nat /\ width A = words_of (ncols A)
  /\ high_bitmask A = mask_of (ncols A)
  /\ forall i, (i < nrows A)%nat -> vwords (ncols A) (row A i).
Proof.
  unfold mzd_okb. rewrite Bool.andb_true_iff. intros [R P].
  pose proof R as R'. unfold mzd_rawb in R'.
  rewrite !Bool.andb_true_iff in R'.
  destruct R' as [[_ LR] _]. apply Nat.eqb_eq in LR.
  destruct (mzd_rawb_inv A R) as (H1 & H2 & H3 & H4).
  split; [exact H1|]. split; [exact H2|]. split; [exact H3|].
  intros i Hi. split; [apply H4; exact Hi|].
  unfold pad_okb in P. rewrite forallb_forall in P.
  rewrite H2, H3 in P. apply pad_rowb_fits. apply P. apply nth_In. lia.
Qed.

(** Any row step that is a plain XOR on rows with clear padding gives the
    reference sum. *)
Lemma addmul_words_ref X nv c0 v A :
  vec_okb nv v = true -> mzd_okb A = true -> nrows A = nv ->
  vwords (ncols A) c0 ->
  (forall c a, vwords (ncols A) c -> vwords (ncols A) a ->
               X c a = zipw Z.lxor c a) ->
  fold_left
    (fun c w => bit_fold X A (rd (row v 0) w) (w * 8 * 8) 64 c)
    (seq 0 (width v)) c0
  = addmul_v_ref c0 v A
  /\ vwords (ncols A) (addmul_v_ref c0 v A).
Proof.
  intros Hv HA Hnr Hc HX.
  destruct (mzd_okb_inv A HA) as (Hn & HW & HM & HR).
  pose proof (vec_rawb_pos _ _ (vec_okb_raw _ _ Hv)) as Hnv.
  pose proof (vec_okb_row _ _ Hv) as WV.
  assert (ML : forall ws, vwords (ncols A) ws -> mask_last (ncols A) ws = ws).
  { intros ws (_ & P). unfold mask_last. rewrite mask_of_ones.
    replace (Z.land _ _) with (rd ws (words_of (ncols A) - 1));
      [apply upd_same|].
    symmetry. apply land_ones_fits; [pose proof (pad_bits_range (ncols A)); lia|].
    exact P. }
  unfold addmul_v_ref.
  match goal with
  | |- fold_left ?f ?l ?c = mask_last _ (fold_left ?g ?l ?c) /\ _ =>
      destruct (fold_left_inv (vwords (ncols A)) f g l c Hc) as [E I]
  end.
  - intros w c Hw Pc. apply in_seq in Hw.
    rewrite (vec_rawb_width _ _ (vec_okb_raw _ _ Hv)) in Hw.
    unfold bit_fold.
    apply (fold_left_inv (vwords (ncols A))); [exact Pc|].
    intros j c' Hj Pc'. apply in_seq in Hj.
    destruct (Z.testbit (rd (row v 0) w) (Z.of_nat j)) eqn:B; [|auto].
    assert (Hi : (w * 64 + j < nrows A)%nat)
      by (rewrite Hnr; apply (vwords_bit_bound nv (row v 0)); auto; lia).
    replace (w * 8 * 8 + j)%nat with (w * 64 + j)%nat by lia.
    split; [apply HX; auto|]. apply vwords_zipw_lxor; auto.
  - rewrite E. rewrite ML by exact I. split; [reflexivity|exact I].
Qed.

Lemma land_low_mod n k :
  0 <= k -> Z.land (Z.of_nat n) (Z.ones k) = 0 ->
  Z.of_nat n mod 2 ^ k = 0.
Proof. intros Hk H. rewrite Z.land_ones in H by lia. exact H. Qed.

Lemma rd_repeat_0 k j : rd (repeat 0 k) j = 0.
Proof.
  unfold rd. destruct (Nat.ltb_spec j k).
  - apply nth_repeat_lt; assumption.
  - apply nth_overflow. rewrite repeat_length; assumption.
Qed.

Lemma vwords_zero n : (1 <= n)%nat -> vwords n (repeat 0 (words_of n)).
Proof.
  intros Hn. pose proof (pad_bits_range n). split; [split|].
  - apply repeat_length.
  - intros j. rewrite rd_repeat_0. apply word_ok_0.
  - rewrite rd_repeat_0. split; [lia|]. apply Z.pow_pos_nonneg; lia.
Qed.

Lemma length_clear_words n i r : length (clear_words n i r) = length r.
Proof.
  revert i r; induction n as [|n IH]; intros; simpl; auto.
  rewrite IH, length_upd; reflexivity.
Qed.

Lemma rd_clear_words n i r j :
  rd (clear_words n i r) j =
  if (i <=? j)%nat && (j <? i + n)%nat && (j <? length r)%nat
  then 0 else rd r j.
Proof.
  revert i r; induction n as [|n IH]; intros; simpl.
  - destruct (Nat.leb_spec i j), (Nat.ltb_spec j (i + 0)); simpl; auto; lia.
  - rewrite IH, length_upd, rd_upd.
    destruct (Nat.leb_spec (S i) j), (Nat.leb_spec i j),
      (Nat.ltb_spec j (S i + n)), (Nat.ltb_spec j (i + S n)),
      (Nat.eqb_spec i j), (Nat.ltb_spec i (length r)),
      (Nat.ltb_spec j (length r)); simpl; subst; auto; lia.
Qed.

(** Clearing a buffer from column 0 leaves the zero vector in it. *)
Lemma mzd_row_clear_offset_vec n c :
  vec_rawb n c = true ->
  mzd_row_clear_offset c 0 0 = set_row c 0 (repeat 0 (words_of n)).
Proof.
  intros H. pose proof (vec_rawb_row _ _ H) as (L & _).
  pose proof (words_of_pos n (vec_rawb_pos _ _ H)).
  unfold mzd_row_clear_offset. rewrite (vec_rawb_width _ _ H).
  change (0 / m4ri_radix)%nat with 0%nat. f_equal.
  apply rd_ext.
  - rewrite length_clear_words, length_upd, repeat_length. exact L.
  - intros j Hj. rewrite length_clear_words, length_upd in Hj.
    rewrite rd_clear_words, length_upd, rd_upd, rd_repeat_0.
    destruct (Nat.leb_spec (0 + 1) j), (Nat.ltb_spec j (0 + 1 + (words_of n - (0 + 1)))),
      (Nat.ltb_spec j (length (row c 0))), (Nat.eqb_spec 0 j),
      (Nat.ltb_spec 0 (length (row c 0))); simpl; auto; lia.
Qed.

Lemma vec_okb_init n : (1 <= n)%nat -> vec_okb n (mzd_local_init 1 n) = true.
Proof.
  intros Hn. unfold mzd_local_init. cbn [repeat].
  apply vec_okb_intro; [assumption| |apply vwords_zero; assumption].
  destruct (_ =? _); discriminate.
Qed.

Lemma row_init n : row (mzd_local_init 1 n) 0 = repeat 0 (words_of n).
Proof. reflexivity. Qed.

Section MulFacts.

Variable cfg : build_t.

Lemma xor_region_vwords lane n c a :
  (n mod (lane * 64) = 0)%nat -> (1 <= lane)%nat ->
  vwords n c -> vwords n a ->
  xor_region lane (words_of n * 8 / (lane * 8)) c a = zipw Z.lxor c a.
Proof.
  intros Hm Hl ((Lc & _) & _) ((La & _) & _). unfold xor_region.
  replace (words_of n * 8 / (lane * 8) * lane)%nat with (length c).
  - apply xor_into_all; lia.
  - rewrite Lc. unfold words_of, m4ri_radix.
    rewrite Nat.Div0.div_mul_cancel_r by lia.
    assert (E : exists q, n = (q * (lane * 64))%nat).
    { exists (n / (lane * 64))%nat.
      pose proof (Nat.div_mod_eq n (lane * 64)). lia. }
    destruct E as [q ->].
    replace (q * (lane * 64) + 64 - 1)%nat with (63 + (q * lane) * 64)%nat by lia.
    rewrite Nat.div_add by lia. change (63 / 64)%nat with 0%nat.
    rewrite Nat.add_0_l, Nat.div_mul by lia. reflexivity.
Qed.

(** [mzd_addmul_v] on well-formed operands adds the reference product to
    [c], in the portable and in both vector paths. *)
Lemma mzd_addmul_v_spec nv c v A :
  vec_okb nv v = true -> mzd_okb A = true -> nrows A = nv ->
  vec_okb (ncols A) c = true ->
  mzd_addmul_v cfg c v A = Some (set_row c 0 (addmul_v_ref (row c 0) v A)).
Proof.
  intros Hv HA Hnr Hc.
  destruct (mzd_okb_inv A HA) as (Hn & HW & HM & HR).
  pose proof (vec_okb_row _ _ Hc) as Wc.
  unfold mzd_addmul_v.
  rewrite (vec_rawb_ncols _ _ (vec_okb_raw _ _ Hc)).
  rewrite (vec_rawb_ncols _ _ (vec_okb_raw _ _ Hv)).
  rewrite Nat.eqb_refl. apply Nat.eqb_eq in Hnr. rewrite Hnr.
  apply Nat.eqb_eq in Hnr. cbn [negb orb].
  destruct (WITH_OPT cfg && (nrows A mod (8 * 8) =? 0)%nat
            && CPU_SUPPORTS_AVX2 cfg
            && (Z.land (Z.of_nat (ncols A)) 255 =? 0)) eqn:Eavx;
    [|destruct (WITH_OPT cfg && (nrows A mod (8 * 8) =? 0)%nat
                && CPU_SUPPORTS_SSE2 cfg
                && (Z.land (Z.of_nat (ncols A)) 127 =? 0)) eqn:Esse].
  - apply Bool.andb_true_iff in Eavx. destruct Eavx as [_ E].
    apply Z.eqb_eq in E. apply (land_low_mod _ 8) in E; [|lia].
    f_equal. unfold mzd_addmul_v_simd. f_equal. rewrite HW.
    erewrite fold_left_ext_in
      by (intros; rewrite addmul_nibbles_fold; reflexivity).
    apply (addmul_words_ref _ nv); auto.
    intros; apply xor_region_vwords; auto; dlia.
  - apply Bool.andb_true_iff in Esse. destruct Esse as [_ E].
    apply Z.eqb_eq in E. apply (land_low_mod _ 7) in E; [|lia].
    f_equal. unfold mzd_addmul_v_simd. f_equal. rewrite HW.
    erewrite fold_left_ext_in
      by (intros; rewrite addmul_nibbles_fold; reflexivity).
    apply (addmul_words_ref _ nv); auto.
    intros; apply xor_region_vwords; auto; dlia.
  - f_equal. unfold mzd_addmul_v_scalar. f_equal. rewrite HW, HM.
    erewrite fold_left_ext_in
      by (intros; rewrite addmul_bits_fold; reflexivity).
    apply (addmul_words_ref _ nv); auto.
    intros; apply addmul_row_vwords; auto.
Qed.

End MulFacts.

Lemma fold_left_abs {A B C : Type} (P : A -> Prop) (h : A -> C)
      (f : A -> B -> A) (g : C -> B -> C) l c :
  P c ->
  (forall x c, In x l -> P c -> h (f c x) = g (h c) x /\ P (f c x)) ->
  h (fold_left f l c) = fold_left g l (h c) /\ P (fold_left f l c).
Proof.
  revert c; induction l as [|x l IH]; intros c Hc H; simpl; auto.
  destruct (H x c (or_introl eq_refl) Hc) as [E Hx]. rewrite <- E.
  apply IH; [exact Hx|]. intros y c' Hy. apply H. right; exact Hy.
Qed.

Lemma vec_bit_zipw_lxor c a col :
  (col / 64 < length c)%nat -> (col / 64 < length a)%nat ->
  vec_bit (zipw Z.lxor c a) col = xorb (vec_bit c col) (vec_bit a col).
Proof.
  intros Hc Ha. unfold vec_bit, m4ri_radix.
  rewrite rd_zipw by assumption. apply Z.lxor_spec.
Qed.

Lemma vec_bit_index ws w j :
  (j < 64)%nat -> vec_bit ws (w * 64 + j) = Z.testbit (rd ws w) (Z.of_nat j).
Proof.
  intros Hj. unfold vec_bit, m4ri_radix.
  replace ((w * 64 + j) / 64)%nat with w by dlia.
  replace ((w * 64 + j) mod 64)%nat with j by dlia. reflexivity.
Qed.

Lemma seq_offset b k : map (fun j => (b + j)%nat) (seq 0 k) = seq b k.
Proof.
  revert b; induction k as [|k IH]; intros b; [reflexivity|].
  cbn [seq map]. rewrite Nat.add_0_r. f_equal.
  rewrite <- seq_shift, map_map, <- (IH (S b)).
  apply map_ext. intros; lia.
Qed.

(** A fold over words and their bits is a fold over the columns. *)
Lemma fold_words_bits {C : Type} (f : C -> nat -> C) W c :
  fold_left
    (fun c w => fold_left (fun c j => f c (w * 64 + j)%nat) (seq 0 64) c)
    (seq 0 W) c
  = fold_left f (seq 0 (W * 64)) c.
Proof.
  induction W as [|W IH].
  - reflexivity.
  - rewrite (seq_S W 0), fold_left_app, IH. cbn [fold_left Nat.add].
    replace (S W * 64)%nat with (W * 64 + 64)%nat by lia.
    rewrite (seq_app (W * 64) 64 0), fold_left_app. cbn [Nat.add].
    rewrite <- (seq_offset (W * 64) 64), fold_left_map_in. reflexivity.
Qed.

(** The reference sum computes, column by column, the product over
    GF(2) added to the start value. *)
Lemma addmul_v_ref_bits nv c0 v A col :
  vec_okb nv v = true -> mzd_okb A = true -> nrows A = nv ->
  vwords (ncols A) c0 -> (col < ncols A)%nat ->
  vec_bit (addmul_v_ref c0 v A) col = xorb (vec_bit c0 col) (dot_bit v A col).
Proof.
  intros Hv HA Hnr Hc Hcol.
  destruct (mzd_okb_inv A HA) as (Hn & HW & HM & HR).
  pose proof (vec_rawb_pos _ _ (vec_okb_raw _ _ Hv)) as Hnv.
  pose proof (vec_okb_row _ _ Hv) as WV.
  assert (Hq : (col / 64 < words_of (ncols A))%nat)
    by (unfold words_of, m4ri_radix; dlia).
  set (g := fun (b : bool) (i : nat) =>
              xorb b (vec_bit (row v 0) i && vec_bit (row A i) col)).
  assert (ML : forall ws, vwords (ncols A) ws -> mask_last (ncols A) ws = ws).
  { intros ws (_ & P). unfold mask_last. rewrite mask_of_ones.
    replace (Z.land _ _) with (rd ws (words_of (ncols A) - 1));
      [apply upd_same|].
    symmetry. apply land_ones_fits; [pose proof (pad_bits_range (ncols A)); lia|].
    exact P. }
  unfold addmul_v_ref.
  match goal with
  | |- vec_bit (mask_last _ (fold_left ?f ?l ?c)) _ = _ =>
      destruct (fold_left_abs (vwords (ncols A)) (fun ws => vec_bit ws col) f
                  (fun b w => fold_left (fun b j => g b (w * 64 + j)%nat)
                                (seq 0 64) b) l c Hc) as [E I]
  end.
  - intros w c Hw Pc. apply in_seq in Hw.
    rewrite (vec_rawb_width _ _ (vec_okb_raw _ _ Hv)) in Hw.
    apply (fold_left_abs (vwords (ncols A)) (fun ws => vec_bit ws col));
      [exact Pc|].
    intros j c' Hj Pc'. apply in_seq in Hj. unfold g.
    rewrite vec_bit_index by lia.
    destruct (Z.testbit (rd (row v 0) w) (Z.of_nat j)) eqn:B.
    + assert (Hi : (w * 64 + j < nrows A)%nat)
        by (rewrite Hnr; apply (vwords_bit_bound nv (row v 0)); auto; lia).
      pose proof (HR _ Hi) as WR.
      split; [|apply vwords_zipw_lxor; auto].
      destruct Pc' as ((Lc & _) & _), WR as ((La & _) & _).
      apply vec_bit_zipw_lxor; lia.
    + cbn [andb]. rewrite Bool.xorb_false_r. auto.
  - rewrite ML by exact I. cbv beta in E. rewrite E.
    rewrite fold_words_bits.
    rewrite (vec_rawb_width _ _ (vec_okb_raw _ _ Hv)).
    assert (Hle : (nv <= words_of nv * 64)%nat)
      by (unfold words_of, m4ri_radix; dlia).
    replace (words_of nv * 64)%nat with (nv + (words_of nv * 64 - nv))%nat
      by lia.
    rewrite (seq_app nv), fold_left_app. cbn [Nat.add].
    rewrite (fold_left_id g (seq nv _)).
    + unfold dot_bit. rewrite Hnr. fold g.
      generalize (seq 0 nv) as l. generalize (vec_bit c0 col) as b. clear.
      intros b l. revert b. induction l as [|x l IH]; intros b; cbn [fold_left].
      * rewrite Bool.xorb_false_r. reflexivity.
      * rewrite IH. rewrite (IH (g false x)). unfold g.
        rewrite Bool.xorb_false_l, Bool.xorb_assoc. reflexivity.
    + intros i Hi b. apply in_seq in Hi. unfold g.
      replace (vec_bit (row v 0) i) with false;
        [cbn [andb]; apply Bool.xorb_false_r|].
      symmetry. apply Bool.not_true_is_false. intros B.
      pose proof (Nat.div_mod_eq i 64) as D.
      assert (Hlt : (i / 64 * 64 + i mod 64 < nv)%nat).
      { apply (vwords_bit_bound nv (row v 0)); auto.
        assert ((i < words_of nv * 64)%nat) by lia.
        apply Nat.Div0.div_lt_upper_bound. lia. }
      lia.
Qed.

Section ShiftClaims.

Variable mzd_copy : mzd_t -> mzd_t -> mzd_t.

(** C6 (amended): for a count [0 < k < 64] and row buffers of [n] columns,
    [mzd_shift_right] stores [(v[i] >> k) | (v[i+1] << (64 - k))] at every
    word index below the last and [v[last] >> k] at the last one; on the
    two words [0x8000000000000001, 0x0000000000000002] and [k = 1] that is
    [0x4000000000000000, 0x0000000000000001]. *)
Theorem mzd_shift_right_words_spec :
  forall n res val k,
    0 < k < 64 -> vec_rawb n res = true -> vec_rawb n val = true ->
    let v := row val 0 in
    let out := row (mzd_shift_right mzd_copy res val k) 0 in
    length out = width val
    /\ (forall i, (S i < width val)%nat ->
          rd out i = Z.lor (word_shr (rd v i) k)
                           (word_shl (rd v (S i)) (64 - k)))
    /\ rd out (width val - 1) = word_shr (rd v (width val - 1)) k
    /\ (v = [0x8000000000000001; 0x0000000000000002] -> k = 1 ->
        out = [0x4000000000000000; 0x0000000000000001]).
Proof.
  intros n res val k Hk Hr Hv v out.
  assert (E : out = shift_right_words v k).
  { subst out v. rewrite (mzd_shift_right_vec mzd_copy n) by (auto; lia).
    apply (row_set_row n); assumption. }
  pose proof (vec_rawb_row _ _ Hv) as (Lv & _). fold v in Lv.
  pose proof (words_of_pos n (vec_rawb_pos _ _ Hv)) as Hw.
  rewrite (vec_rawb_width _ _ Hv). rewrite E.
  split; [rewrite length_shift_right_words; exact Lv|].
  split; [|split].
  - intros i Hi. rewrite rd_shift_right_words by lia. unfold shr_word.
    replace (S i <? length v)%nat with true
      by (symmetry; apply Nat.ltb_lt; lia).
    reflexivity.
  - rewrite rd_shift_right_words by lia. unfold shr_word.
    replace (S (words_of n - 1) <? length v)%nat with false
      by (symmetry; apply Nat.ltb_ge; lia).
    reflexivity.
  - intros -> ->. reflexivity.
Qed.

(** C8 (amended): for a count [0 < k < 64] and a vector whose low [k] bits
    (columns [0 .. k-1]) are zero, shifting right and then left by [k]
    gives the vector back. *)
Theorem shift_right_left_round_trip :
  forall n res1 res2 v k,
    0 < k < 64 ->
    vec_rawb n res1 = true -> vec_rawb n res2 = true ->
    vec_rawb n v = true ->
    bits_zero (row v 0) 0 (Z.to_nat k) = true ->
    row (mzd_shift_left mzd_copy res2
           (mzd_shift_right mzd_copy res1 v k) k) 0
    = row v 0.
Proof.
  intros n res1 res2 v k Hk H1 H2 Hv Hz.
  pose proof (vec_rawb_row _ _ Hv) as Rv.
  rewrite (mzd_shift_right_vec mzd_copy n) by (auto; lia).
  assert (H1' : vec_rawb n (set_row res1 0 (shift_right_words (row v 0) k))
                = true).
  { apply vec_rawb_set_row; [assumption|].
    apply rwords_shift_right; [lia|assumption]. }
  rewrite (mzd_shift_left_vec mzd_copy n) by (auto; lia).
  rewrite (row_set_row n) by assumption.
  rewrite (row_set_row n) by assumption.
  apply shift_left_right_words; [assumption|apply Rv|].
  apply bits_zero_low; assumption.
Qed.

End ShiftClaims.

Section GateClaims.

Variable cfg : build_t.
Variable mzd_copy : mzd_t -> mzd_t -> mzd_t.

(** C2: for every party [m] of the three, the prover gate [mpc_and] leaves
    in [res[m]] the value
    [(a[m] & b[m]) ^ (a[(m+1) mod 3] & b[m]) ^ (a[m] & b[(m+1) mod 3])
     ^ r[m] ^ r[(m+1) mod 3]],
    and in [view.s[m]] its previous value XOR that [res[m]] shifted right
    by [viewshift]. *)
Theorem mpc_and_shares_and_view :
  forall n res first second r view viewshift buffer,
    0 <= viewshift < 64 ->
    arr_rawb n 3 res = true -> arr_okb n 3 first = true ->
    arr_okb n 3 second = true -> arr_okb n 3 r = true ->
    arr_okb n 3 (s view) = true -> arr_rawb n 3 buffer = true ->
    let '(res', view', _) :=
      mpc_and cfg mzd_copy res first second r view viewshift buffer in
    forall m, (m < SC_PROOF)%nat ->
      row (ix res' m) 0
      = and_gate_words first second r m ((m + 1) mod 3)
      /\ row (ix (s view') m) 0
         = zipw Z.lxor (row (ix (s view) m) 0)
             (shift_right_words (row (ix res' m) 0) viewshift).
Proof.
  intros n res first second r view viewshift buffer Hk Hres Hf Hs Hr Hv Hb.
  rewrite (mpc_and_spec cfg mzd_copy n) by assumption.
  destruct (arr3_inv _ _ Hres) as (x0 & x1 & x2 & -> & X0 & X1 & X2).
  destruct (arr3_inv _ _ Hv) as (v0 & v1 & v2 & Ev & V0 & V1 & V2).
  rewrite Ev. cbn [s map ix nth].
  intros m Hm. unfold SC_PROOF in Hm.
  destruct m as [|[|[|m]]]; [| | |lia]; cbn [nth];
    rewrite !(row_set_row n) by (auto using vec_okb_raw); auto.
Qed.

(** C1: when the three slots of the share triples [a] and [b] XOR to [x]
    and [y], the three slots of the triple that [mpc_and] produces XOR to
    [x AND y], word by word; the XOR is the reference [xor3], not the
    code's own reconstruction.  [mpc_reconstruct_from_share] then returns
    that same vector for the result.  This holds for every mask triple
    [r], in particular for one that reconstructs to zero: every [r[m]]
    enters two of the three shares. *)
Theorem mpc_and_reconstructs_product :
  forall n res first second r view viewshift buffer x y,
    0 <= viewshift < 64 ->
    arr_rawb n 3 res = true -> arr_okb n 3 first = true ->
    arr_okb n 3 second = true -> arr_okb n 3 r = true ->
    arr_okb n 3 (s view) = true -> arr_rawb n 3 buffer = true ->
    xor3 first = x -> xor3 second = y ->
    let '(res', _, _) :=
      mpc_and cfg mzd_copy res first second r view viewshift buffer in
    xor3 res' = zipw Z.land x y
    /\ forall dst junk,
         dst_okb n dst = true ->
         row (mpc_reconstruct_from_share cfg dst res' junk) 0
         = zipw Z.land x y.
Proof.
  intros n res first second r view viewshift buffer x y
    Hk Hres Hf Hs Hr Hv Hb Hx Hy.
  rewrite (mpc_and_spec cfg mzd_copy n) by assumption.
  subst x y.
  destruct (arr3_inv _ _ Hres) as (x0 & x1 & x2 & -> & X0 & X1 & X2).
  destruct (arr3_inv _ _ Hf) as (a0 & a1 & a2 & -> & A0 & A1 & A2).
  destruct (arr3_inv _ _ Hs) as (b0 & b1 & b2 & -> & B0 & B1 & B2).
  destruct (arr3_inv _ _ Hr) as (r0 & r1 & r2 & -> & R0 & R1 & R2).
  pose proof (vec_rawb_pos _ _ X0) as Hn.
  set (a := [a0; a1; a2]) in *. set (b := [b0; b1; b2]) in *.
  set (rr := [r0; r1; r2]) in *.
  assert (G0 : vwords n (and_gate_words a b rr 0 1))
    by (apply vwords_and_gate; assumption).
  assert (G1 : vwords n (and_gate_words a b rr 1 2))
    by (apply vwords_and_gate; assumption).
  assert (G2 : vwords n (and_gate_words a b rr 2 0))
    by (apply vwords_and_gate; assumption).
  cbn [map ix nth].
  change ((0 + 1) mod 3)%nat with 1%nat. change ((1 + 1) mod 3)%nat with 2%nat.
  change ((2 + 1) mod 3)%nat with 0%nat.
  set (out := [set_row x0 0 (and_gate_words a b rr 0 1);
               set_row x1 0 (and_gate_words a b rr 1 2);
               set_row x2 0 (and_gate_words a b rr 2 0)]).
  assert (E : xor3 out = zipw Z.land (xor3 a) (xor3 b)).
  { unfold xor3, out. cbn [ix nth]. rewrite !(row_set_row n) by assumption.
    unfold and_gate_words, a, b, rr. cbn [ix nth].
    pose proof (vec_okb_row _ _ A0) as ((LA0 & _) & _).
    pose proof (vec_okb_row _ _ A1) as ((LA1 & _) & _).
    pose proof (vec_okb_row _ _ A2) as ((LA2 & _) & _).
    pose proof (vec_okb_row _ _ B0) as ((LB0 & _) & _).
    pose proof (vec_okb_row _ _ B1) as ((LB1 & _) & _).
    pose proof (vec_okb_row _ _ B2) as ((LB2 & _) & _).
    pose proof (vec_okb_row _ _ R0) as ((LR0 & _) & _).
    pose proof (vec_okb_row _ _ R1) as ((LR1 & _) & _).
    pose proof (vec_okb_row _ _ R2) as ((LR2 & _) & _).
    apply rd_ext.
    + transitivity (words_of n); [|symmetry];
        repeat apply length_zipw_same; assumption.
    + intros j Hj.
      rewrite (length_zipw_same _ _ _ (words_of n)) in Hj
        by (repeat apply length_zipw_same; assumption).
      repeat (rewrite (rd_zipw_same _ _ _ (words_of n))
                by first [assumption
                         | repeat apply length_zipw_same; assumption]).
      apply and_gate_bits. }
  split; [exact E|].
  intros dst junk Hd. rewrite <- E.
  apply (mpc_reconstruct_spec cfg n); [|exact Hd].
  unfold arr_okb, out. cbn [length forallb Nat.eqb andb].
  rewrite !(vec_okb_set_row n) by assumption. reflexivity.
Qed.

(** C3: the verifier gate [mpc_and_verify] computes [res[0]] from the
    inputs with neighbour [1]; it takes [res[1]] from the view instead, as
    [view.s[1]] shifted left by [viewshift] and ANDed with [mask]; it XORs
    the computed [res[0]], shifted right, into [view.s[0]] and leaves
    [view.s[1]] as it was.  The gate has no failure result and no branch
    on the views: this is its outcome on every input. *)
Theorem mpc_and_verify_reads_back :
  forall n res first second r view mask viewshift buffer,
    0 <= viewshift < 64 ->
    pair_rawb n res = true -> pair_okb n first = true ->
    pair_okb n second = true -> pair_okb n r = true ->
    pair_okb n (s view) = true -> vec_okb n mask = true ->
    vec_rawb n (ix buffer 0) = true ->
    let '(res', view', _) :=
      mpc_and_verify cfg mzd_copy res first second r view mask viewshift
        buffer in
    row (ix res' 0) 0 = and_gate_words first second r 0 1
    /\ row (ix res' (SC_VERIFY - 1)) 0
       = zipw Z.land
           (shift_left_words (row (ix (s view) (SC_VERIFY - 1)) 0) viewshift)
           (row mask 0)
    /\ row (ix (s view') 0) 0
       = zipw Z.lxor (row (ix (s view) 0) 0)
           (shift_right_words (row (ix res' 0) 0) viewshift)
    /\ ix (s view') (SC_VERIFY - 1) = ix (s view) (SC_VERIFY - 1).
Proof.
  intros n res first second r view mask viewshift buffer
    Hk Hres Hf Hs Hr Hv Hm Hb.
  rewrite (mpc_and_verify_spec cfg mzd_copy n) by assumption.
  unfold pair_rawb, pair_okb in Hres, Hv.
  apply Bool.andb_true_iff in Hres, Hv.
  destruct Hres as [X0 X1], Hv as [V0 V1].
  pose proof (ix_rawb_lt _ _ _ X0) as LX0.
  pose proof (ix_rawb_lt _ _ _ X1) as LX1.
  pose proof (ix_rawb_lt _ _ _ (vec_okb_raw _ _ V0)) as LV0.
  cbn [s SC_VERIFY Nat.sub].
  rewrite (ix_upd_other _ 1 0) by lia.
  rewrite !ix_upd_same by (rewrite ?length_upd; lia).
  rewrite (ix_upd_other _ 0 1) by lia.
  rewrite !(row_set_row n) by auto using vec_okb_raw.
  auto.
Qed.

End GateClaims.

Section ShareClaims.

Variable cfg : build_t.

(** C4: for every vector [v], [mpc_init_share_vector] returns three
    vectors with [s2 = s0 XOR s1 XOR v], whatever words the random source
    delivers for [s0] and [s1]; reconstructing them gives [v] exactly. *)
Theorem mpc_init_share_vector_reconstructs :
  forall n v junk g,
    vec_okb n v = true ->
    let '(sh, _) := mpc_init_share_vector cfg v junk g in
    arr_okb n 3 sh = true
    /\ row (ix sh 2) 0
       = zipw Z.lxor (zipw Z.lxor (row (ix sh 0) 0) (row (ix sh 1) 0))
           (row v 0)
    /\ forall dst junk',
         dst_okb n dst = true ->
         row (mpc_reconstruct_from_share cfg dst sh junk') 0 = row v 0.
Proof.
  intros n v junk g Hv.
  pose proof (vec_rawb_pos _ _ (vec_okb_raw _ _ Hv)) as Hn.
  pose proof (vec_okb_row _ _ Hv) as WV.
  unfold mpc_init_share_vector, mzd_local_init_multiple_ex.
  rewrite (vec_rawb_ncols _ _ (vec_okb_raw _ _ Hv)).
  cbn [seq map ix nth].
  pose proof (vec_rawb_init_ex n (junk 0%nat) Hn) as I0.
  pose proof (vec_rawb_init_ex n (junk 1%nat) Hn) as I1.
  pose proof (vec_rawb_init_ex n (junk 2%nat) Hn) as I2.
  rewrite (mzd_randomize_ssl_vec n) by assumption. cbn [upd ix nth].
  rewrite (mzd_randomize_ssl_vec n) by assumption. cbn [upd ix nth].
  set (W0 := mask_last n (fst (rand_bytes (words_of n) g))).
  set (W1 := mask_last n (fst (rand_bytes (words_of n) _))).
  assert (H0 : vwords n W0)
    by (apply vwords_mask_last; [assumption|apply rwords_rand_bytes]).
  assert (H1 : vwords n W1)
    by (apply vwords_mask_last; [assumption|apply rwords_rand_bytes]).
  set (i0 := mzd_local_init_ex 1 n false (junk 0%nat)) in *.
  set (i1 := mzd_local_init_ex 1 n false (junk 1%nat)) in *.
  set (i2 := mzd_local_init_ex 1 n false (junk 2%nat)) in *.
  rewrite (mzd_xor_vec cfg n i2 (set_row i0 0 W0) (set_row i1 0 W1))
    by auto using vec_okb_set_row.
  rewrite !(row_set_row n) by assumption.
  rewrite (xor_acc cfg n) by auto using vwords_zipw_lxor.
  assert (OK : arr_okb n 3
                 [set_row i0 0 W0; set_row i1 0 W1;
                  set_row i2 0 (zipw Z.lxor (zipw Z.lxor W0 W1) (row v 0))]
               = true).
  { unfold arr_okb. cbn [length forallb Nat.eqb andb].
    rewrite !(vec_okb_set_row n) by auto using vwords_zipw_lxor.
    reflexivity. }
  split; [exact OK|]. split.
  - rewrite !(row_set_row n) by assumption. reflexivity.
  - intros dst junk' Hd.
    rewrite (mpc_reconstruct_spec cfg n) by assumption.
    cbn [ix nth]. rewrite !(row_set_row n) by assumption.
    destruct H0 as ((L0 & _) & _), H1 as ((L1 & _) & _), WV as ((LV & _) & _).
    apply rd_ext.
    + transitivity (words_of n); [|symmetry];
        repeat apply length_zipw_same; assumption.
    + intros j Hj.
      rewrite (length_zipw_same _ _ _ (words_of n)) in Hj
        by (repeat apply length_zipw_same; assumption).
      repeat (rewrite (rd_zipw_same _ _ _ (words_of n))
                by first [assumption
                         | repeat apply length_zipw_same; assumption]).
      apply lxor_cancel.
Qed.

(** C9 (amended): [mpc_const_add] with share count [sc] and argument [c]
    sets result slot 0 to [first[0] XOR second] when [c = 0], sets result
    slot [sc - 1] to [first[sc-1] XOR second] when [c = sc] and [c] is not
    0, and returns the array unchanged for every other [c]; no slot other
    than the selected one is ever modified. *)
Theorem mpc_const_add_slots :
  forall n result first second sc c,
    let result' := mpc_const_add cfg result first second sc c in
    let touched k :=
      (forall i, i <> k -> ix result' i = ix result i)
      /\ (vec_rawb n (ix result k) = true ->
          vec_okb n (ix first k) = true -> vec_okb n second = true ->
          row (ix result' k) 0
          = zipw Z.lxor (row (ix first k) 0) (row second 0)) in
    (c = 0%nat -> touched 0%nat)
    /\ (c <> 0%nat -> c = sc -> touched (sc - 1)%nat)
    /\ (c <> 0%nat -> c <> sc -> result' = result).
Proof.
  intros n result first second sc c result' touched.
  assert (T : forall k,
             result' = upd result k
                         (mzd_xor cfg (Some (ix result k)) (ix first k) second)
             -> touched k).
  { intros k E. split.
    - intros i Hi. rewrite E. apply ix_upd_other. congruence.
    - intros Hr Hf Hs. rewrite E.
      rewrite ix_upd_same by (eapply ix_rawb_lt; eassumption).
      rewrite (mzd_xor_vec cfg n) by assumption.
      apply (row_set_row n); assumption. }
  split; [|split].
  - intros E. apply T. subst result' c. reflexivity.
  - intros E0 E1. apply T. subst result'. unfold mpc_const_add.
    apply Nat.eqb_neq in E0. apply Nat.eqb_eq in E1.
    rewrite E0, E1. reflexivity.
  - intros E0 E1. subst result'. unfold mpc_const_add.
    apply Nat.eqb_neq in E0, E1. rewrite E0, E1. reflexivity.
Qed.

End ShareClaims.

Section MulClaims.

Variable cfg : build_t.

Lemma vec_bit_zero k col : vec_bit (repeat 0 k) col = false.
Proof. unfold vec_bit. rewrite rd_repeat_0. apply Z.testbit_0_l. Qed.

(** C5: for a vector [v] and a matrix [A] with [A.nrows = v.ncols] (and a
    destination that is absent or has [A.ncols] columns), [mzd_mul_v]
    returns a vector whose words are those of the scalar reference (from
    the zero vector, XOR row [w * W + j] of [A] for every set bit [j] of
    word [w] of [v], final word masked), and whose column [col] is the
    GF(2) sum over the rows [i] of [v_i AND A_(i, col)]. *)
Theorem mzd_mul_v_product :
  forall c v A,
    vec_okb (ncols v) v = true -> mzd_okb A = true ->
    nrows A = ncols v -> dst_okb (ncols A) c = true ->
    exists c',
      fst (mzd_mul_v cfg c v A) = Some c'
      /\ row c' 0 = mul_v_ref v A
      /\ forall col, (col < ncols A)%nat ->
           vec_bit (row c' 0) col = dot_bit v A col.
Proof.
  intros c v A Hv HA Hnr Hd.
  destruct (mzd_okb_inv A HA) as (Hn & HW & HM & HR).
  pose proof (vwords_zero (ncols A) Hn) as WZ.
  assert (K : forall c0,
             vec_okb (ncols A) c0 = true ->
             row c0 0 = repeat 0 (words_of (ncols A)) ->
             exists c',
               mzd_addmul_v cfg c0 v A = Some c'
               /\ row c' 0 = mul_v_ref v A
               /\ forall col, (col < ncols A)%nat ->
                    vec_bit (row c' 0) col = dot_bit v A col).
  { intros c0 Hc0 Ec0.
    rewrite (mzd_addmul_v_spec cfg (ncols v)) by assumption.
    eexists; split; [reflexivity|].
    rewrite (row_set_row (ncols A)) by (apply vec_okb_raw; assumption).
    rewrite Ec0. unfold mul_v_ref. rewrite HW. split; [reflexivity|].
    intros col Hcol.
    rewrite (addmul_v_ref_bits (ncols v)) by assumption.
    rewrite vec_bit_zero. apply Bool.xorb_false_l. }
  unfold mzd_mul_v. apply Nat.eqb_eq in Hnr. rewrite Hnr. cbn [negb].
  destruct c as [c0|]; cbn [dst_okb] in Hd.
  - rewrite (mzd_row_clear_offset_vec (ncols A)) by assumption.
    destruct (K (set_row c0 0 (repeat 0 (words_of (ncols A)))))
      as (c' & E & R & B).
    + apply vec_okb_set_row; assumption.
    + apply (row_set_row (ncols A)); assumption.
    + rewrite E. exists c'. cbn [fst]. auto.
  - destruct (K (mzd_local_init 1 (ncols A))) as (c' & E & R & B).
    + apply vec_okb_init; assumption.
    + apply row_init.
    + rewrite E. exists c'. cbn [fst]. auto.
Qed.

(** C10: when [mzd_mul_v] gets a destination [c] and [At.nrows = v.ncols]
    but [At.ncols] differs from [c.ncols], it returns [NULL] and leaves
    [c] with its row cleared to zero, so a non-zero [c] has changed; when
    [At.nrows] differs from [v.ncols] it returns [NULL] and leaves [c]
    untouched. *)
Theorem mzd_mul_v_mismatch_clears :
  forall n c v At,
    vec_rawb n c = true ->
    (nrows At = ncols v -> ncols At <> ncols c ->
     exists c',
       mzd_mul_v cfg (Some c) v At = (None, Some c')
       /\ row c' 0 = repeat 0 (width c)
       /\ (row c 0 <> repeat 0 (width c) -> c' <> c))
    /\ (nrows At <> ncols v -> mzd_mul_v cfg (Some c) v At = (None, Some c)).
Proof.
  intros n c v At Hc. split.
  - intros Hnr Hnc. unfold mzd_mul_v, mzd_addmul_v.
    apply Nat.eqb_eq in Hnr. rewrite Hnr. cbn [negb].
    rewrite (mzd_row_clear_offset_vec n) by assumption.
    replace (ncols (set_row c 0 (repeat 0 (words_of n)))) with (ncols c)
      by reflexivity.
    apply Nat.eqb_neq in Hnc. rewrite Hnc. cbn [negb orb].
    eexists; split; [reflexivity|].
    rewrite (row_set_row n), (vec_rawb_width n) by assumption.
    split; [reflexivity|].
    intros Hne E. apply Hne. rewrite <- E at 1.
    apply (row_set_row n); assumption.
  - intros Hnr. unfold mzd_mul_v.
    apply Nat.eqb_neq in Hnr. rewrite Hnr. reflexivity.
Qed.

End MulClaims.

Section PaddingKept.

Variable cfg : build_t.
Variable mzd_copy : mzd_t -> mzd_t -> mzd_t.

(** Every kernel operation other than the left shift returns a vector
    with clear padding when its operands have clear padding: the results
    of [mzd_local_init], [mzd_local_copy], [mzd_xor], [mzd_and],
    [mzd_shift_right], [mzd_randomize_ssl], [mzd_addmul_v] and
    [mzd_mul_v] satisfy the invariants of the data model. *)
Lemma padding_kept_by_other_operations n res a b k g v A c :
  0 <= k < 64 ->
  vec_rawb n res = true -> vec_okb n a = true -> vec_okb n b = true ->
  vec_okb (ncols v) v = true -> mzd_okb A = true -> nrows A = ncols v ->
  vec_okb (ncols A) c = true ->
  vec_okb n (mzd_local_init 1 n) = true
  /\ vec_okb n (mzd_local_copy mzd_copy (Some res) a) = true
  /\ vec_okb n (mzd_xor cfg (Some res) a b) = true
  /\ vec_okb n (mzd_and cfg (Some res) a b) = true
  /\ vec_okb n (mzd_shift_right mzd_copy res a k) = true
  /\ vec_okb n (fst (mzd_randomize_ssl res g)) = true
  /\ (exists c', mzd_addmul_v cfg c v A = Some c'
                 /\ vec_okb (ncols A) c' = true)
  /\ (exists c', fst (mzd_mul_v cfg (Some c) v A) = Some c'
                 /\ vec_okb (ncols A) c' = true).
Proof.
  intros Hk Hr Ha Hb Hv HA Hnr Hc.
  pose proof (vec_rawb_pos _ _ Hr) as Hn.
  pose proof (vec_okb_row _ _ Ha) as Wa.
  pose proof (vec_okb_row _ _ Hb) as Wb.
  destruct (mzd_okb_inv A HA) as (HnA & HW & HM & HR).
  assert (REF : forall c0, vwords (ncols A) c0 ->
                           vwords (ncols A) (addmul_v_ref c0 v A)).
  { intros c0 H0.
    apply (addmul_words_ref (zipw Z.lxor) (ncols v) c0 v A); auto. }
  split; [apply vec_okb_init; assumption|].
  split; [rewrite (mzd_local_copy_vec mzd_copy n) by auto using vec_okb_raw;
          apply vec_okb_set_row; assumption|].
  split; [rewrite (mzd_xor_vec cfg n) by assumption;
          apply vec_okb_set_row; auto using vwords_zipw_lxor|].
  split; [rewrite (mzd_and_vec cfg n) by assumption;
          apply vec_okb_set_row; auto; apply vwords_zipw_land_l; auto;
          apply Wb|].
  split; [rewrite (mzd_shift_right_vec mzd_copy n) by auto using vec_okb_raw;
          apply vec_okb_set_row; auto; apply vwords_shift_right; auto; lia|].
  split; [rewrite (mzd_randomize_ssl_vec n) by assumption; cbn [fst];
          apply vec_okb_set_row; auto; apply vwords_mask_last; auto;
          apply rwords_rand_bytes|].
  split.
  - rewrite (mzd_addmul_v_spec cfg (ncols v)) by assumption.
    eexists; split; [reflexivity|].
    apply vec_okb_set_row; [apply vec_okb_raw; assumption|].
    apply REF. apply vec_okb_row; assumption.
  - unfold mzd_mul_v. apply Nat.eqb_eq in Hnr. rewrite Hnr. cbn [negb].
    apply Nat.eqb_eq in Hnr.
    rewrite (mzd_row_clear_offset_vec (ncols A))
      by (apply vec_okb_raw; assumption).
    rewrite (mzd_addmul_v_spec cfg (ncols v));
      auto using vec_okb_set_row, vec_okb_raw, vwords_zero.
    eexists; split; [reflexivity|].
    rewrite set_row_set_row.
    apply vec_okb_set_row; [apply vec_okb_raw; assumption|].
    apply REF. rewrite (row_set_row (ncols A)) by (apply vec_okb_raw; assumption).
    apply vwords_zero; assumption.
Qed.

End PaddingKept.

(** C7 at the failing input: the vector of three columns [111] and a
    destination of the same shape both satisfy the padding invariant, yet
    [mzd_shift_left] by one bit stores [1110] in the word, so bit 3, an
    unused high bit of the last word, is set in the result. *)
Theorem mzd_shift_left_sets_padding_bits :
  vec_okb 3 (mk_vec 3 [0]) = true
  /\ vec_okb 3 (mk_vec 3 [7]) = true
  /\ row (mzd_shift_left no_copy (mk_vec 3 [0]) (mk_vec 3 [7]) 1) 0 = [14]
  /\ Z.testbit 14 3 = true
  /\ pad_okb (mzd_shift_left no_copy (mk_vec 3 [0]) (mk_vec 3 [7]) 1) = false.
Proof. repeat split; reflexivity. Qed.

(** ** Instances and counterexamples *)

(** The hypotheses of C6 hold for the two-word vector of the example. *)
Lemma mzd_shift_right_words_spec_witness :
  row (mzd_shift_right no_copy (mk_vec 128 [0; 0])
         (mk_vec 128 [0x8000000000000001; 0x0000000000000002]) 1) 0
  = [0x4000000000000000; 0x0000000000000001].
Proof.
  apply (mzd_shift_right_words_spec no_copy 128 (mk_vec 128 [0; 0])
           (mk_vec 128 [0x8000000000000001; 0x0000000000000002]) 1);
    [lia | reflexivity | reflexivity | reflexivity | reflexivity].
Defined.

(** C6 as stated fails on its own example: the low word of the result is
    [0x4000000000000000], because bit 0 of the second word is clear. *)
Lemma mzd_shift_right_example_differs :
  row (mzd_shift_right no_copy (mk_vec 128 [0; 0])
         (mk_vec 128 [0x8000000000000001; 0x0000000000000002]) 1) 0
  <> [0xc000000000000000; 0x0000000000000001].
Proof. vm_compute. discriminate. Qed.

(** The hypotheses of C8 hold for a two-word vector with a clear low bit. *)
Lemma shift_right_left_round_trip_witness :
  row (mzd_shift_left no_copy (mk_vec 128 [0; 0])
         (mzd_shift_right no_copy (mk_vec 128 [0; 0])
            (mk_vec 128 [0x8000000000000002; 0x0000000000000003]) 1) 1) 0
  = row (mk_vec 128 [0x8000000000000002; 0x0000000000000003]) 0.
Proof.
  apply (shift_right_left_round_trip no_copy 128);
    [lia | reflexivity | reflexivity | reflexivity | reflexivity].
Defined.

(** C8 as stated fails: the one-word vector [1] has its top bit clear, yet
    the right shift drops its bit 0 and the left shift cannot restore it. *)
Lemma shift_round_trip_top_bits_fails :
  bits_zero (row (mk_vec 64 [1]) 0) (64 - 1) 1 = true
  /\ row (mzd_shift_left no_copy (mk_vec 64 [0])
            (mzd_shift_right no_copy (mk_vec 64 [0]) (mk_vec 64 [1]) 1) 1) 0
     <> row (mk_vec 64 [1]) 0.
Proof. split; [reflexivity | vm_compute; discriminate]. Qed.

(** The hypotheses of C2 hold for shares of 70 columns and a shift of 3. *)
Lemma mpc_and_shares_and_view_witness :
  let '(res', view', _) :=
    mpc_and portable no_copy ex_zero ex_a ex_b ex_r ex_view 3 ex_zero in
  forall m, (m < SC_PROOF)%nat ->
    row (ix res' m) 0 = and_gate_words ex_a ex_b ex_r m ((m + 1) mod 3)
    /\ row (ix (s view') m) 0
       = zipw Z.lxor (row (ix (s ex_view) m) 0)
           (shift_right_words (row (ix res' m) 0) 3).
Proof.
  apply (mpc_and_shares_and_view portable no_copy 70);
    [lia | reflexivity | reflexivity | reflexivity | reflexivity
    | reflexivity | reflexivity].
Defined.

(** The hypotheses of C1 hold for the same shares: their slots XOR to
    [[0xa; 0x0f]] and to [[0x5; 0x38]]. *)
Lemma mpc_and_reconstructs_product_witness :
  let '(res', _, _) :=
    mpc_and optimised no_copy ex_zero ex_a ex_b ex_r ex_view 3 ex_zero in
  xor3 res' = zipw Z.land [0xa; 0x0f] [0x5; 0x38]
  /\ forall dst junk,
       dst_okb 70 dst = true ->
       row (mpc_reconstruct_from_share optimised dst res' junk) 0
       = zipw Z.land [0xa; 0x0f] [0x5; 0x38].
Proof.
  apply (mpc_and_reconstructs_product optimised no_copy 70 ex_zero ex_a ex_b
           ex_r ex_view 3 ex_zero [0xa; 0x0f] [0x5; 0x38]);
    [lia | reflexivity | reflexivity | reflexivity | reflexivity
    | reflexivity | reflexivity | reflexivity | reflexivity].
Defined.

(** The hypotheses of C3 hold for the first two of the same shares. *)
Lemma mpc_and_verify_reads_back_witness :
  let '(res', view', _) :=
    mpc_and_verify portable no_copy ex_zero ex_a ex_b ex_r ex_view ex_mask 3
      ex_zero in
  row (ix res' 0) 0 = and_gate_words ex_a ex_b ex_r 0 1
  /\ row (ix res' (SC_VERIFY - 1)) 0
     = zipw Z.land
         (shift_left_words (row (ix (s ex_view) (SC_VERIFY - 1)) 0) 3)
         (row ex_mask 0)
  /\ row (ix (s view') 0) 0
     = zipw Z.lxor (row (ix (s ex_view) 0) 0)
         (shift_right_words (row (ix res' 0) 0) 3)
  /\ ix (s view') (SC_VERIFY - 1) = ix (s ex_view) (SC_VERIFY - 1).
Proof.
  apply (mpc_and_verify_reads_back portable no_copy 70);
    [lia | reflexivity | reflexivity | reflexivity | reflexivity
    | reflexivity | reflexivity | reflexivity].
Defined.

(** The hypothesis of C4 holds for a vector of 70 columns; the random
    source here delivers the squares of the positions. *)
Lemma mpc_init_share_vector_reconstructs_witness :
  let '(sh, _) :=
    mpc_init_share_vector portable (mk_vec 70 [0x1234; 0x2b])
      (fun _ _ _ => 0x77) (mk_rng (fun k => Z.of_nat (k * k + 100)) 0) in
  arr_okb 70 3 sh = true
  /\ row (ix sh 2) 0
     = zipw Z.lxor (zipw Z.lxor (row (ix sh 0) 0) (row (ix sh 1) 0))
         (row (mk_vec 70 [0x1234; 0x2b]) 0)
  /\ forall dst junk',
       dst_okb 70 dst = true ->
       row (mpc_reconstruct_from_share portable dst sh junk') 0
       = row (mk_vec 70 [0x1234; 0x2b]) 0.
Proof.
  apply (mpc_init_share_vector_reconstructs portable 70
           (mk_vec 70 [0x1234; 0x2b]));
    reflexivity.
Defined.

(** C9 at the verifier's call with [sc = 2] and [c = 2]: slot 1 takes the
    constant. *)
Lemma mpc_const_add_slots_witness :
  row (ix (mpc_const_add portable ex_zero ex_a ex_mask 2 2) 1) 0
  = zipw Z.lxor (row (ix ex_a 1) 0) (row ex_mask 0).
Proof.
  apply (mpc_const_add_slots portable 70 ex_zero ex_a ex_mask 2 2);
    [discriminate | reflexivity | reflexivity | reflexivity | reflexivity].
Defined.

(** C9 as stated fails: with three shares, the slot argument 2 selects
    nothing, so slot 2 keeps its old value and not [first[2] XOR second];
    and the argument 3, which names no slot, does change slot 2. *)
Lemma mpc_const_add_slot_two_untouched :
  mpc_const_add portable ex_zero ex_a ex_mask 3 2 = ex_zero
  /\ row (ix ex_zero 2) 0 <> zipw Z.lxor (row (ix ex_a 2) 0) (row ex_mask 0)
  /\ mpc_const_add portable ex_zero ex_a ex_mask 3 3 <> ex_zero.
Proof.
  split; [reflexivity|]. split; vm_compute; discriminate.
Qed.

(** The hypotheses of C5 hold for the all-ones vector of 64 columns and
    the 64 x 64 identity; the product is the vector itself. *)
Lemma mzd_mul_v_product_witness :
  exists c',
    fst (mzd_mul_v optimised None (mk_vec 64 [0xffffffffffffffff])
           (identity_matrix 64)) = Some c'
    /\ row c' 0 = mul_v_ref (mk_vec 64 [0xffffffffffffffff])
                    (identity_matrix 64)
    /\ forall col, (col < ncols (identity_matrix 64))%nat ->
         vec_bit (row c' 0) col
         = dot_bit (mk_vec 64 [0xffffffffffffffff]) (identity_matrix 64) col.
Proof.
  apply (mzd_mul_v_product optimised None (mk_vec 64 [0xffffffffffffffff])
           (identity_matrix 64));
    vm_compute; reflexivity.
Defined.

(** The hypothesis of C10 holds for a destination of three columns that
    holds the bits 101: after the failed call it holds zero. *)
Lemma mzd_mul_v_mismatch_clears_witness :
  exists c',
    mzd_mul_v portable (Some (mk_vec 3 [5])) (mk_vec 64 [1])
      (identity_matrix 64) = (None, Some c')
    /\ row c' 0 = repeat 0 (width (mk_vec 3 [5]))
    /\ (row (mk_vec 3 [5]) 0 <> repeat 0 (width (mk_vec 3 [5])) ->
        c' <> mk_vec 3 [5]).
Proof.
  apply (mzd_mul_v_mismatch_clears portable 3 (mk_vec 3 [5]) (mk_vec 64 [1])
           (identity_matrix 64));
    [reflexivity | reflexivity | vm_compute; discriminate].
Defined.


(** ** Further properties: allocation *)

Lemma land_lnot_ones a n :
  0 <= n -> Z.land a (Z.lnot (Z.ones n)) = a / 2 ^ n * 2 ^ n.
Proof.
  intros Hn. rewrite <- Z.ldiff_land, Z.ldiff_ones_r by lia.
  rewrite Z.shiftl_mul_pow2, Z.shiftr_div_pow2 by lia. reflexivity.
Qed.


Lemma to_size_t_small z : 0 <= z < 2 ^ 64 -> to_size_t z = z.
Proof. intros H. unfold to_size_t. apply Z.mod_small. exact H. Qed.

Lemma to_rci_small z : - 2 ^ 31 <= z <= rci_max -> to_rci z = z.
Proof.
  unfold to_rci, rci_max. intros H. rewrite Z.mod_small by lia. lia.
Qed.

(** Under a [size_t] operand the converted mask [~(2^n - 1)] acts as the
    mask itself. *)
Lemma land_size_t_mask x n :
  0 <= x < 2 ^ 64 ->
  Z.land x (to_size_t (Z.lnot (Z.ones n))) = Z.land x (Z.lnot (Z.ones n)).
Proof.
  intros Hx. apply Z.bits_inj'; intros i Hi. unfold to_size_t.
  rewrite !Z.land_spec, Z.testbit_mod_pow2 by lia.
  destruct (Z.ltb_spec i 64); cbn [andb]; [reflexivity|].
  rewrite (proj1 (fits_bits 64 x ltac:(lia)) Hx i) by lia. reflexivity.
Qed.

(** The function on machine integers agrees with the arithmetic as long
    as the rounded width fits. *)
Lemma calculate_rowstride_rci_fits w :
  Z.of_nat w <= rci_max - 3 ->
  calculate_rowstride_rci (Z.of_nat w) = Z.of_nat (calculate_rowstride w).
Proof.
  unfold rci_max. intros H.
  unfold calculate_rowstride_rci, calculate_rowstride, avx_bound.
  change (256 / 64)%nat with 4%nat.
  change (Z.lnot 31) with (Z.lnot (Z.ones 5)).
  change (Z.lnot 15) with (Z.lnot (Z.ones 4)).
  change (2 ^ 31) with 2147483648 in H.
  assert (B : 2 ^ 64 = 18446744073709551616) by reflexivity.
  rewrite (to_size_t_small (Z.of_nat w)) by lia.
  rewrite (to_size_t_small (Z.of_nat w * 8)) by lia.
  rewrite (to_size_t_small (Z.of_nat w * 8 + 31)),
    (to_size_t_small (Z.of_nat w * 8 + 15)) by lia.
  rewrite !land_size_t_mask by lia.
  rewrite !land_lnot_ones by lia.
  change (2 ^ 5) with 32. change (2 ^ 4) with 16.
  destruct (Nat.leb_spec 4 w), (Z.leb_spec (Z.of_nat 4) (Z.of_nat w));
    try lia;
    (rewrite to_rci_small
       by (unfold rci_max; change (2 ^ 31) with 2147483648; dlia)); dlia.
Qed.

(** X1: for a width whose rounded value fits in [rci_t], that is up to
    [INT_MAX - 3], [calculate_rowstride] returns the least number of words
    that is at least [width] and a whole number of alignment units: 32
    bytes (four words) from the AVX bound on, 16 bytes (two words) below
    it; the value is that of the arithmetic on mathematical integers that
    the model of [mzd_local_init] uses.  The bound is sharp: for the three
    widths above it the conversion of the result to [rci_t] wraps, and the
    function returns [INT_MIN]. *)
Theorem calculate_rowstride_is_round_up :
  forall w,
    Z.of_nat w <= rci_max - 3 ->
    let rs := calculate_rowstride_rci (Z.of_nat w) in
    let al := Z.of_nat (calculate_row_alignment w) in
    rs = Z.of_nat (calculate_rowstride w)
    /\ Z.of_nat w <= rs <= rci_max
    /\ (rs * 8) mod al = 0
    /\ rs * 8 < Z.of_nat w * 8 + al
    /\ forall z, rci_max - 3 < z <= rci_max ->
         calculate_rowstride_rci z = - 2 ^ 31.
Proof.
  intros w Hw rs al. subst rs al.
  rewrite calculate_rowstride_rci_fits by exact Hw.
  split; [reflexivity|].
  unfold rci_max in *.
  unfold calculate_rowstride, calculate_row_alignment, avx_bound.
  change (256 / 64)%nat with 4%nat.
  change (Z.lnot 31) with (Z.lnot (Z.ones 5)).
  change (Z.lnot 15) with (Z.lnot (Z.ones 4)).
  split; [|split; [|split]].
  - destruct (4 <=? w)%nat; rewrite land_lnot_ones by lia;
      [change (2 ^ 5) with 32|change (2 ^ 4) with 16]; dlia.
  - destruct (4 <=? w)%nat; rewrite land_lnot_ones by lia;
      [change (2 ^ 5) with 32|change (2 ^ 4) with 16]; dlia.
  - destruct (4 <=? w)%nat; rewrite land_lnot_ones by lia;
      [change (2 ^ 5) with 32|change (2 ^ 4) with 16]; dlia.
  - intros z Hz.
    assert (E : z = 2 ^ 31 - 3 \/ z = 2 ^ 31 - 2 \/ z = 2 ^ 31 - 1) by lia.
    destruct E as [-> | [-> | ->]]; vm_compute; reflexivity.
Qed.

Lemma forallb_repeat {A : Type} (P : A -> bool) x k :
  P x = true -> forallb P (repeat x k) = true.
Proof. intros H. induction k; simpl; [reflexivity|]. rewrite H, IHk; auto. Qed.


Lemma init_flags_custom hb :
  Z.land (Z.lor mzd_flag_custom_layout
            (if hb =? m4ri_ffff then 0 else mzd_flag_nonzero_excess))
         mzd_flag_custom_layout <> 0.
Proof. destruct (hb =? m4ri_ffff); discriminate. Qed.

Lemma mzd_okb_init r c : (1 <= c)%nat -> mzd_okb (mzd_local_init r c) = true.
Proof.
  intros Hc. pose proof (vwords_zero c Hc) as ((L & W) & P).
  unfold mzd_okb, mzd_rawb, pad_okb, mzd_local_init. fields.
  fold (words_of c). fold (mask_of c).
  apply Nat.leb_le in Hc. rewrite Hc, Nat.eqb_refl, Z.eqb_refl.
  rewrite repeat_length, Nat.eqb_refl. cbn [andb].
  rewrite !forallb_repeat; [reflexivity| |].
  - apply pad_rowb_fits. exact P.
  - apply raw_rowb_rwords. split; assumption.
Qed.

Lemma has_custom_layout_init r c :
  has_custom_layout (mzd_local_init r c) = true.
Proof.
  unfold has_custom_layout, mzd_local_init. fields.
  apply Bool.negb_true_iff, Z.eqb_neq, init_flags_custom.
Qed.


Lemma mzd_okb_raw m : mzd_okb m = true -> mzd_rawb m = true.
Proof. unfold mzd_okb. rewrite Bool.andb_true_iff. tauto. Qed.


Lemma mzd_okb_intro m :
  (1 <= ncols m)%nat -> width m = words_of (ncols m) ->
  high_bitmask m = mask_of (ncols m) -> length (rows m) = nrows m ->
  (forall i, (i < nrows m)%nat -> vwords (ncols m) (row m i)) ->
  mzd_okb m = true.
Proof.
  intros H1 H2 H3 H4 H5. unfold mzd_okb, mzd_rawb, pad_okb.
  apply Nat.leb_le in H1. rewrite H1, H2, H3, H4, !Nat.eqb_refl, Z.eqb_refl.
  cbn [andb]. apply Bool.andb_true_iff. split.
  - apply forallb_forall. intros r Hr.
    destruct (In_nth _ _ [] Hr) as (i & Hi & <-).
    apply raw_rowb_rwords. apply (H5 i). lia.
  - apply forallb_forall. intros r Hr.
    destruct (In_nth _ _ [] Hr) as (i & Hi & <-).
    apply pad_rowb_fits. apply (H5 i). lia.
Qed.

(** ** Further properties: copies *)

Lemma row_set_row_same m i r :
  (i < length (rows m))%nat -> row (set_row m i r) i = r.
Proof.
  intros H. unfold row, set_row. fields. rewrite nth_upd, Nat.eqb_refl.
  apply Nat.ltb_lt in H. rewrite H. reflexivity.
Qed.

Lemma row_set_row_other m i j r : i <> j -> row (set_row m i r) j = row m j.
Proof.
  intros H. unfold row, set_row. fields. rewrite nth_upd.
  apply Nat.eqb_neq in H. rewrite H. reflexivity.
Qed.

(** A loop that rewrites row [i] from its old contents, for [i] below
    [k], rewrites exactly these rows. *)
Lemma fold_rows_spec (F : nat -> list Z -> list Z) k m :
  (k <= length (rows m))%nat ->
  let m' := fold_left (fun d i => set_row d i (F i (row d i))) (seq 0 k) m in
  length (rows m') = length (rows m)
  /\ nrows m' = nrows m /\ ncols m' = ncols m /\ width m' = width m
  /\ rowstride m' = rowstride m /\ flags m' = flags m
  /\ high_bitmask m' = high_bitmask m
  /\ forall i, row m' i = if (i <? k)%nat then F i (row m i) else row m i.
Proof.
  induction k as [|k IH]; intros Hk m'; subst m'.
  - cbn [seq fold_left]. repeat split; auto.
  - rewrite seq_S, fold_left_app. cbn [fold_left Nat.add].
    destruct (IH ltac:(lia)) as (L & H1 & H2 & H3 & H4 & H5 & H6 & R).
    cbv zeta in L, H1, H2, H3, H4, H5, H6, R.
    set (d := fold_left _ (seq 0 k) m) in *.
    split; [|split; [|split; [|split; [|split; [|split; [|split]]]]]];
      try assumption.
    + unfold set_row. fields. rewrite length_upd. exact L.
    + intros i. destruct (Nat.eqb_spec i k) as [->|Hne].
      * rewrite row_set_row_same by lia. rewrite R.
        replace (k <? k)%nat with false by (symmetry; apply Nat.ltb_ge; lia).
        replace (k <? S k)%nat with true by (symmetry; apply Nat.ltb_lt; lia).
        reflexivity.
      * rewrite row_set_row_other by congruence. rewrite R.
        destruct (Nat.ltb_spec i k), (Nat.ltb_spec i (S k)); auto; lia.
Qed.

Section CopyFacts.

Variable mzd_copy : mzd_t -> mzd_t -> mzd_t.

(** What [mzd_local_copy] does to a destination of the repository's
    layout with matching shape. *)
Lemma mzd_local_copy_spec dst src :
  mzd_rawb dst = true -> mzd_rawb src = true ->
  has_custom_layout dst = true ->
  (nrows src <= nrows dst)%nat -> ncols dst = ncols src ->
  let d := mzd_local_copy mzd_copy (Some dst) src in
  (forall i, (i < nrows src)%nat -> row d i = row src i)
  /\ (forall i, (nrows src <= i)%nat -> row d i = row dst i)
  /\ nrows d = nrows dst /\ ncols d = ncols dst
  /\ (mzd_okb dst = true -> mzd_okb src = true -> mzd_okb d = true).
Proof.
  intros Hd Hs Hc Hr Hn d. subst d.
  destruct (mzd_rawb_inv dst Hd) as (D1 & D2 & D3 & D4).
  destruct (mzd_rawb_inv src Hs) as (S1 & S2 & S3 & S4).
  assert (LD : length (rows dst) = nrows dst).
  { unfold mzd_rawb in Hd. rewrite !Bool.andb_true_iff in Hd.
    destruct Hd as [[_ LD] _]. apply Nat.eqb_eq in LD. exact LD. }
  unfold mzd_local_copy. rewrite Hc.
  apply Nat.leb_le in Hr. rewrite Hr. apply Nat.leb_le in Hr.
  rewrite Hn, Nat.eqb_refl. cbn [andb].
  destruct (fold_rows_spec (fun i r => memcpy (width src) 0 r (row src i))
              (nrows src) dst ltac:(lia))
    as (L & H1 & H2 & H3 & H4 & H5 & H6 & R).
  cbv zeta beta in L, H1, H2, H3, H4, H5, H6, R.
  set (d := fold_left _ (seq 0 (nrows src)) dst) in *.
  assert (RC : forall i, (i < nrows src)%nat -> row d i = row src i).
  { intros i Hi. rewrite R.
    replace (i <? nrows src)%nat with true by (symmetry; apply Nat.ltb_lt; lia).
    destruct (D4 i ltac:(lia)) as (Ld & _).
    destruct (S4 i Hi) as (Ls & _).
    rewrite S2, <- Hn, <- Ld. apply memcpy_all.
    rewrite Ld, Ls, Hn; reflexivity. }
  assert (RK : forall i, (nrows src <= i)%nat -> row d i = row dst i).
  { intros i Hi. rewrite R.
    replace (i <? nrows src)%nat with false
      by (symmetry; apply Nat.ltb_ge; lia).
    reflexivity. }
  split; [exact RC|]. split; [exact RK|]. split; [exact H1|].
  split; [congruence|].
  intros Od Os.
  destruct (mzd_okb_inv dst Od) as (_ & _ & _ & OD).
  destruct (mzd_okb_inv src Os) as (_ & _ & _ & OS).
  apply mzd_okb_intro.
  - rewrite H2. exact D1.
  - rewrite H3, H2. exact D2.
  - rewrite H6, H2. exact D3.
  - rewrite L, H1. exact LD.
  - intros i Hi. rewrite H1 in Hi. rewrite H2.
    destruct (Nat.ltb_spec i (nrows src)).
    + rewrite RC by assumption. rewrite Hn. apply OS; assumption.
    + rewrite RK by assumption. apply OD; assumption.
Qed.

(** X3: [mzd_local_copy] into a destination of the repository's layout
    with the same number of columns and at least as many rows copies
    every row of the source, leaves the further rows of the destination
    as they were, and does not touch the descriptor; the result keeps the
    invariants of the data model when both operands satisfy them. *)
Theorem mzd_local_copy_rows :
  forall dst src,
    mzd_rawb dst = true -> mzd_rawb src = true ->
    has_custom_layout dst = true ->
    (nrows src <= nrows dst)%nat -> ncols dst = ncols src ->
    let d := mzd_local_copy mzd_copy (Some dst) src in
    (forall i, (i < nrows src)%nat -> row d i = row src i)
    /\ (forall i, (nrows src <= i)%nat -> row d i = row dst i)
    /\ nrows d = nrows dst /\ ncols d = ncols dst
    /\ (mzd_okb dst = true -> mzd_okb src = true -> mzd_okb d = true).
Proof. intros dst src. apply mzd_local_copy_spec. Qed.

(** X4: without a destination, [mzd_local_copy] returns a fresh matrix of
    the shape of the source that holds the rows of the source and
    satisfies the invariants of the data model. *)
Theorem mzd_local_copy_fresh :
  forall src,
    mzd_okb src = true ->
    let d := mzd_local_copy mzd_copy None src in
    nrows d = nrows src /\ ncols d = ncols src
    /\ (forall i, (i < nrows src)%nat -> row d i = row src i)
    /\ mzd_okb d = true /\ has_custom_layout d = true.
Proof.
  intros src Hs d.
  destruct (mzd_okb_inv src Hs) as (S1 & _).
  pose proof (mzd_okb_init (nrows src) (ncols src) S1) as Hi.
  pose proof (has_custom_layout_init (nrows src) (ncols src)) as Hc.
  destruct (mzd_local_copy_spec (mzd_local_init (nrows src) (ncols src)) src)
    as (R & _ & N & C & O);
    auto using mzd_okb_raw.
  cbv zeta in R, N, C, O.
  change (mzd_local_copy mzd_copy
            (Some (mzd_local_init (nrows src) (ncols src))) src) with d in *.
  split; [exact N|]. split; [exact C|]. split; [exact R|].
  split; [apply O; assumption|].
  subst d. unfold mzd_local_copy. rewrite Hc.
  change (nrows (mzd_local_init (nrows src) (ncols src))) with (nrows src).
  change (ncols (mzd_local_init (nrows src) (ncols src))) with (ncols src).
  rewrite Nat.leb_refl, Nat.eqb_refl. cbn [andb].
  destruct (fold_rows_spec (fun i r => memcpy (width src) 0 r (row src i))
              (nrows src) (mzd_local_init (nrows src) (ncols src)))
    as (_ & _ & _ & _ & _ & F & _).
  - unfold mzd_local_init. fields. rewrite repeat_length. lia.
  - cbv zeta beta in F. unfold has_custom_layout in *. rewrite F. exact Hc.
Qed.

End CopyFacts.

(** ** Further properties: the element-wise operations *)

(** Equality of word arrays built by word-by-word combination, all of
    length [n]: compare them word by word. *)
Ltac zipw_ext n :=
  apply rd_ext;
  [ transitivity n; [|symmetry];
    first [assumption | repeat apply length_zipw_same; assumption]
  | let j := fresh "j" in
    let Hj := fresh "Hj" in
    intros j Hj;
    try rewrite (length_zipw_same _ _ _ n) in Hj
      by (repeat apply length_zipw_same; assumption);
    repeat (rewrite (rd_zipw_same _ _ _ n)
              by first [assumption | lia
                       | repeat apply length_zipw_same; assumption]) ].

Lemma vwords_length n ws : vwords n ws -> length ws = words_of n.
Proof. intros ((L & _) & _). exact L. Qed.

Lemma rwords_length n ws : rwords n ws -> length ws = words_of n.
Proof. intros (L & _). exact L. Qed.

Lemma vec_okb_length n m : vec_okb n m = true -> length (row m 0) = words_of n.
Proof. intros H. apply vwords_length, vec_okb_row, H. Qed.

Section ElementWiseLaws.

Variable cfg : build_t.

(** X5: XOR with the same vector twice gives the first operand back, and
    a vector XORed with itself is the zero vector, destinations apart. *)
Theorem mzd_xor_cancels :
  forall n r1 r2 a b,
    vec_rawb n r1 = true -> vec_rawb n r2 = true ->
    vec_okb n a = true -> vec_okb n b = true ->
    row (mzd_xor cfg (Some r2) (mzd_xor cfg (Some r1) a b) b) 0 = row a 0
    /\ row (mzd_xor cfg (Some r1) a a) 0 = zero_row n.
Proof.
  intros n r1 r2 a b H1 H2 Ha Hb.
  pose proof (vec_rawb_pos _ _ H1) as Hn.
  pose proof (vec_okb_length _ _ Ha) as La.
  pose proof (vec_okb_length _ _ Hb) as Lb.
  assert (Hx : vec_okb n (set_row r1 0 (zipw Z.lxor (row a 0) (row b 0)))
               = true)
    by (apply vec_okb_set_row; auto using vwords_zipw_lxor, vec_okb_row).
  rewrite (mzd_xor_vec cfg n r1 a b) by assumption.
  rewrite (mzd_xor_vec cfg n r2) by assumption.
  rewrite (mzd_xor_vec cfg n r1 a a) by assumption.
  rewrite !(row_set_row n) by assumption.
  split.
  - zipw_ext (words_of n).
    rewrite Z.lxor_assoc, Z.lxor_nilpotent. apply Z.lxor_0_r.
  - unfold zero_row. apply rd_ext.
    + rewrite repeat_length. apply length_zipw_same; assumption.
    + intros j Hj.
      rewrite (length_zipw_same _ _ _ (words_of n)) in Hj by assumption.
      rewrite (rd_zipw_same _ _ _ (words_of n)), rd_repeat_0 by assumption.
      apply Z.lxor_nilpotent.
Qed.

(** X6: AND distributes over XOR through the kernel:
    [a AND (b XOR c)] is [(a AND b) XOR (a AND c)], and a vector ANDed
    with itself is unchanged. *)
Theorem mzd_and_distributes_over_xor :
  forall n r t t1 t2 a b c,
    vec_rawb n r = true -> vec_rawb n t = true ->
    vec_rawb n t1 = true -> vec_rawb n t2 = true ->
    vec_okb n a = true -> vec_okb n b = true -> vec_okb n c = true ->
    row (mzd_and cfg (Some r) a (mzd_xor cfg (Some t) b c)) 0
    = row (mzd_xor cfg (Some r) (mzd_and cfg (Some t1) a b)
             (mzd_and cfg (Some t2) a c)) 0
    /\ row (mzd_and cfg (Some r) a a) 0 = row a 0.
Proof.
  intros n r t t1 t2 a b c Hr Ht H1 H2 Ha Hb Hc.
  pose proof (vec_rawb_pos _ _ Hr) as Hn.
  pose proof (vec_okb_length _ _ Ha) as La.
  pose proof (vec_okb_length _ _ Hb) as Lb.
  pose proof (vec_okb_length _ _ Hc) as Lc.
  pose proof (vec_okb_row _ _ Ha) as Wa.
  pose proof (vec_okb_row _ _ Hb) as Wb.
  pose proof (vec_okb_row _ _ Hc) as Wc.
  assert (Wab : vwords n (zipw Z.land (row a 0) (row b 0)))
    by (apply vwords_zipw_land_l; auto; apply Wb).
  assert (Wac : vwords n (zipw Z.land (row a 0) (row c 0)))
    by (apply vwords_zipw_land_l; auto; apply Wc).
  rewrite (mzd_xor_vec cfg n t b c) by assumption.
  rewrite (mzd_and_vec cfg n t1 a b), (mzd_and_vec cfg n t2 a c) by assumption.
  rewrite (mzd_and_vec cfg n r a a) by assumption.
  rewrite (mzd_and_vec cfg n r)
    by auto using vec_okb_set_row, vwords_zipw_lxor.
  rewrite (mzd_xor_vec cfg n r) by auto using vec_okb_set_row.
  rewrite !(row_set_row n) by assumption.
  split.
  - zipw_ext (words_of n). apply Z.bits_inj'; intros i Hi.
    rewrite ?Z.land_spec, ?Z.lxor_spec, ?Z.land_spec. btauto.
  - zipw_ext (words_of n). apply Z.land_diag.
Qed.

End ElementWiseLaws.

(** ** Further properties: the shifts, column by column *)

Lemma rd_overflow v j : (length v <= j)%nat -> rd v j = 0.
Proof. intros H. unfold rd. apply nth_overflow, H. Qed.

Lemma vec_bit_overflow v c : (length v * 64 <= c)%nat -> vec_bit v c = false.
Proof.
  intros H. unfold vec_bit, m4ri_radix.
  rewrite rd_overflow by dlia. apply Z.testbit_0_l.
Qed.

Lemma testbit_shr_word v k j i :
  0 <= k < 64 -> 0 <= i < 64 -> (forall j, word_ok (rd v j)) ->
  Z.testbit (shr_word v k j) i
  = if i + k <? 64 then Z.testbit (rd v j) (i + k)
    else Z.testbit (rd v (S j)) (i + k - 64).
Proof.
  intros Hk Hi W. unfold shr_word.
  destruct (Nat.ltb_spec (S j) (length v)).
  - rewrite Z.lor_spec, testbit_word_shr, testbit_word_shl by lia.
    replace (i - (64 - k)) with (i + k - 64) by lia.
    destruct (Z.ltb_spec (i + k) 64), (Z.ltb_spec i 64),
      (Z.leb_spec (64 - k) i); cbn [andb orb]; try lia.
    + apply Bool.orb_false_r.
    + rewrite (word_ok_high (rd v j)) by (auto; lia). reflexivity.
  - rewrite testbit_word_shr by lia. rewrite (rd_overflow v (S j)) by lia.
    rewrite Z.testbit_0_l.
    destruct (Z.ltb_spec (i + k) 64); auto.
    apply word_ok_high; auto.
Qed.

Lemma testbit_shl_word v k j i :
  0 <= k < 64 -> 0 <= i < 64 -> (forall j, word_ok (rd v j)) ->
  Z.testbit (shl_word v k j) i
  = if k <=? i then Z.testbit (rd v j) (i - k)
    else (0 <? j)%nat && Z.testbit (rd v (j - 1)) (i - k + 64).
Proof.
  intros Hk Hi W. unfold shl_word.
  destruct (Nat.ltb_spec 0 j).
  - rewrite Z.lor_spec, testbit_word_shr, testbit_word_shl by lia.
    replace (i + (64 - k)) with (i - k + 64) by lia.
    destruct (Z.leb_spec k i), (Z.ltb_spec i 64); cbn [andb orb]; try lia.
    + rewrite (word_ok_high (rd v (j - 1))) by (auto; lia).
      apply Bool.orb_false_r.
    + reflexivity.
  - rewrite testbit_word_shl by lia.
    destruct (Z.leb_spec k i), (Z.ltb_spec i 64); cbn [andb orb]; auto; lia.
Qed.

(** Column [c] of the right shift is column [c + k] of the input. *)
Lemma vec_bit_shift_right_words v k c :
  (k < 64)%nat -> (forall j, word_ok (rd v j)) ->
  vec_bit (shift_right_words v (Z.of_nat k)) c = vec_bit v (c + k).
Proof.
  intros Hk W. destruct (Nat.ltb_spec c (length v * 64)) as [Hc|Hc].
  - unfold vec_bit, m4ri_radix.
    rewrite rd_shift_right_words by dlia.
    rewrite testbit_shr_word by (auto; dlia).
    destruct (Z.ltb_spec (Z.of_nat (c mod 64) + Z.of_nat k) 64).
    + replace ((c + k) / 64)%nat with (c / 64)%nat by dlia.
      f_equal. dlia.
    + replace ((c + k) / 64)%nat with (S (c / 64)) by dlia.
      f_equal. dlia.
  - rewrite !vec_bit_overflow; auto; try lia.
    rewrite length_shift_right_words; lia.
Qed.

(** Column [c] of the left shift is column [c - k] of the input, and zero
    below column [k]. *)
Lemma vec_bit_shift_left_words v k c :
  (k < 64)%nat -> (forall j, word_ok (rd v j)) -> (c < length v * 64)%nat ->
  vec_bit (shift_left_words v (Z.of_nat k)) c
  = (k <=? c)%nat && vec_bit v (c - k).
Proof.
  intros Hk W Hc. unfold vec_bit, m4ri_radix.
  rewrite rd_shift_left_words by dlia.
  rewrite testbit_shl_word by (auto; dlia).
  destruct (Z.leb_spec (Z.of_nat k) (Z.of_nat (c mod 64))).
  - replace (k <=? c)%nat with true by (symmetry; apply Nat.leb_le; dlia).
    replace ((c - k) / 64)%nat with (c / 64)%nat by dlia.
    cbn [andb]. f_equal. dlia.
  - destruct (Nat.ltb_spec 0 (c / 64)), (Nat.leb_spec k c);
      cbn [andb]; auto; try dlia.
    replace ((c - k) / 64)%nat with (c / 64 - 1)%nat by dlia.
    f_equal. dlia.
Qed.

(** Word arrays with the same columns are equal. *)
Lemma vec_bit_ext a b :
  length a = length b ->
  (forall j, word_ok (rd a j)) -> (forall j, word_ok (rd b j)) ->
  (forall c, (c < length a * 64)%nat -> vec_bit a c = vec_bit b c) -> a = b.
Proof.
  intros L Wa Wb H. apply rd_ext; [exact L|]. intros j Hj.
  apply Z.bits_inj'; intros i Hi.
  destruct (Z.ltb_spec i 64).
  - specialize (H (j * 64 + Z.to_nat i)%nat ltac:(lia)).
    rewrite !vec_bit_index, Z2Nat.id in H by lia. exact H.
  - rewrite !word_ok_high; auto.
Qed.

(** The columns of a vector from [n] on are zero. *)
Lemma vwords_bit_high n ws c :
  (1 <= n)%nat -> vwords n ws -> (n <= c)%nat -> vec_bit ws c = false.
Proof.
  intros Hn V Hc. destruct (Nat.ltb_spec (c / 64) (words_of n)) as [Hw|Hw].
  - unfold vec_bit, m4ri_radix.
    destruct (Z.testbit (rd ws (c / 64)) (Z.of_nat (c mod 64))) eqn:E; auto.
    pose proof (vwords_bit_bound n ws _ _ Hn V Hw E). dlia.
  - apply vec_bit_overflow. rewrite (vwords_length _ _ V). dlia.
Qed.

Section ShiftColumns.

Variable mzd_copy : mzd_t -> mzd_t -> mzd_t.

(** X7: [mzd_shift_right] by [k] moves column [c + k] of a vector to
    column [c], across the word boundaries, fills the top [k] columns with
    zeros and returns a well-formed vector. *)
Theorem mzd_shift_right_columns :
  forall n res val k,
    (k < 64)%nat -> vec_rawb n res = true -> vec_okb n val = true ->
    let out := mzd_shift_right mzd_copy res val (Z.of_nat k) in
    vec_okb n out = true
    /\ forall c, vec_bit (row out 0) c
                 = (c + k <? n)%nat && vec_bit (row val 0) (c + k).
Proof.
  intros n res val k Hk Hr Hv out. subst out.
  pose proof (vec_rawb_pos _ _ Hr) as Hn.
  pose proof (vec_okb_row _ _ Hv) as V.
  rewrite (mzd_shift_right_vec mzd_copy n) by (auto using vec_okb_raw; lia).
  split.
  - apply vec_okb_set_row; [assumption|].
    apply vwords_shift_right; auto; lia.
  - intros c. rewrite (row_set_row n) by assumption.
    rewrite vec_bit_shift_right_words by (auto; apply V).
    destruct (Nat.ltb_spec (c + k) n); cbn [andb]; auto.
    apply (vwords_bit_high n); auto.
Qed.

(** X8: [mzd_shift_left] by [k] moves column [c - k] of the stored row to
    column [c] for every stored bit position [c], the positions past
    [ncols] included, and clears the columns below [k]. *)
Theorem mzd_shift_left_columns :
  forall n res val k c,
    (k < 64)%nat -> vec_rawb n res = true -> vec_rawb n val = true ->
    (c < words_of n * 64)%nat ->
    let out := mzd_shift_left mzd_copy res val (Z.of_nat k) in
    vec_rawb n out = true
    /\ vec_bit (row out 0) c = (k <=? c)%nat && vec_bit (row val 0) (c - k).
Proof.
  intros n res val k c Hk Hr Hv Hc out. subst out.
  pose proof (vec_rawb_row _ _ Hv) as (L & W).
  rewrite (mzd_shift_left_vec mzd_copy n) by (auto; lia).
  split.
  - apply vec_rawb_set_row; [assumption|].
    apply rwords_shift_left; [lia|split; assumption].
  - rewrite (row_set_row n) by assumption.
    apply vec_bit_shift_left_words; auto. rewrite L; exact Hc.
Qed.

(** X9: shifting left by [k] and then right by [k] gives the stored row
    back when its top [k] stored bits are zero; the columns pushed past
    [ncols] by the left shift survive in the padding. *)
Theorem shift_left_then_right_restores :
  forall n r1 r2 val k,
    (k < 64)%nat ->
    vec_rawb n r1 = true -> vec_rawb n r2 = true -> vec_rawb n val = true ->
    bits_zero (row val 0) (words_of n * 64 - k) k = true ->
    row (mzd_shift_right mzd_copy r2
           (mzd_shift_left mzd_copy r1 val (Z.of_nat k)) (Z.of_nat k)) 0
    = row val 0.
Proof.
  intros n r1 r2 val k Hk H1 H2 Hv Hz.
  pose proof (vec_rawb_row _ _ Hv) as (L & W).
  assert (R : rwords n (shift_left_words (row val 0) (Z.of_nat k)))
    by (apply rwords_shift_left; [lia|split; assumption]).
  rewrite (mzd_shift_left_vec mzd_copy n) by (auto; lia).
  rewrite (mzd_shift_right_vec mzd_copy n)
    by (auto using vec_rawb_set_row; lia).
  rewrite !(row_set_row n) by assumption.
  apply vec_bit_ext; auto.
  - rewrite length_shift_right_words, length_shift_left_words; reflexivity.
  - apply (rwords_shift_right n); [lia|exact R].
  - intros c Hc.
    rewrite length_shift_right_words, length_shift_left_words in Hc.
    rewrite vec_bit_shift_right_words by (auto; apply R).
    destruct (Nat.ltb_spec (c + k) (length (row val 0) * 64)) as [Hck|Hck].
    + rewrite vec_bit_shift_left_words by auto.
      replace (k <=? c + k)%nat with true by (symmetry; apply Nat.leb_le; lia).
      replace (c + k - k)%nat with c by lia. reflexivity.
    + rewrite vec_bit_overflow by (rewrite length_shift_left_words; lia).
      unfold bits_zero in Hz. rewrite forallb_forall in Hz.
      specialize (Hz c). rewrite in_seq in Hz.
      symmetry. apply Bool.negb_true_iff, Hz. lia.
Qed.

(** X10: two shifts in the same direction compose: shifting by [j] and
    then by [k] is shifting by [j + k], as long as [j + k] is below the
    word width. *)
Theorem shifts_compose :
  forall n r1 r2 r3 val j k,
    (j + k < 64)%nat ->
    vec_rawb n r1 = true -> vec_rawb n r2 = true -> vec_rawb n r3 = true ->
    vec_rawb n val = true ->
    row (mzd_shift_right mzd_copy r2
           (mzd_shift_right mzd_copy r1 val (Z.of_nat j)) (Z.of_nat k)) 0
    = row (mzd_shift_right mzd_copy r3 val (Z.of_nat (j + k))) 0
    /\ row (mzd_shift_left mzd_copy r2
           (mzd_shift_left mzd_copy r1 val (Z.of_nat j)) (Z.of_nat k)) 0
       = row (mzd_shift_left mzd_copy r3 val (Z.of_nat (j + k))) 0.
Proof.
  intros n r1 r2 r3 val j k Hk H1 H2 H3 Hv.
  pose proof (vec_rawb_row _ _ Hv) as (L & W).
  assert (Rr : rwords n (shift_right_words (row val 0) (Z.of_nat j)))
    by (apply rwords_shift_right; [lia|split; assumption]).
  assert (Rl : rwords n (shift_left_words (row val 0) (Z.of_nat j)))
    by (apply rwords_shift_left; [lia|split; assumption]).
  rewrite !(mzd_shift_right_vec mzd_copy n _ val) by (auto; lia).
  rewrite !(mzd_shift_left_vec mzd_copy n _ val) by (auto; lia).
  rewrite (mzd_shift_right_vec mzd_copy n)
    by (auto using vec_rawb_set_row; lia).
  rewrite (mzd_shift_left_vec mzd_copy n)
    by (auto using vec_rawb_set_row; lia).
  rewrite !(row_set_row n) by assumption.
  split; apply vec_bit_ext.
  - rewrite !length_shift_right_words; reflexivity.
  - apply (rwords_shift_right n); [lia|exact Rr].
  - apply (rwords_shift_right n); [lia|split; assumption].
  - intros c Hc.
    rewrite !vec_bit_shift_right_words by (auto; try apply Rr; lia).
    f_equal; lia.
  - rewrite !length_shift_left_words; reflexivity.
  - apply (rwords_shift_left n); [lia|exact Rl].
  - apply (rwords_shift_left n); [lia|split; assumption].
  - intros c Hc. rewrite !length_shift_left_words in Hc.
    rewrite !vec_bit_shift_left_words
      by (auto; try apply Rl; rewrite ?length_shift_left_words; lia).
    destruct (Nat.leb_spec k c), (Nat.leb_spec (j + k) c),
      (Nat.leb_spec j (c - k)); cbn [andb]; auto; try lia.
    f_equal; lia.
Qed.

End ShiftColumns.

(** ** Further properties: the vector by matrix product *)

Lemma vec_bit_repeat_0 k col : vec_bit (repeat 0 k) col = false.
Proof. unfold vec_bit. rewrite rd_repeat_0. apply Z.testbit_0_l. Qed.

(** Vectors with the same columns are equal. *)
Lemma vwords_ext n a b :
  (1 <= n)%nat -> vwords n a -> vwords n b ->
  (forall col, (col < n)%nat -> vec_bit a col = vec_bit b col) -> a = b.
Proof.
  intros Hn Va Vb H. apply vec_bit_ext.
  - rewrite (vwords_length _ _ Va), (vwords_length _ _ Vb); reflexivity.
  - apply Va.
  - apply Vb.
  - intros c _. destruct (Nat.ltb_spec c n); [auto|].
    rewrite !(vwords_bit_high n); auto.
Qed.

Lemma addmul_v_ref_vwords nv c0 v A :
  vec_okb nv v = true -> mzd_okb A = true -> nrows A = nv ->
  vwords (ncols A) c0 -> vwords (ncols A) (addmul_v_ref c0 v A).
Proof.
  intros Hv HA Hnr Hc.
  apply (addmul_words_ref (zipw Z.lxor) nv c0 v A); auto.
Qed.

Lemma mul_v_ref_vwords v A :
  vec_okb (ncols v) v = true -> mzd_okb A = true -> nrows A = ncols v ->
  vwords (ncols A) (mul_v_ref v A).
Proof.
  intros Hv HA Hnr. destruct (mzd_okb_inv A HA) as (Hn & HW & _).
  unfold mul_v_ref. rewrite HW.
  apply (addmul_v_ref_vwords (ncols v)); auto using vwords_zero.
Qed.

Lemma mul_v_ref_bits v A col :
  vec_okb (ncols v) v = true -> mzd_okb A = true -> nrows A = ncols v ->
  (col < ncols A)%nat -> vec_bit (mul_v_ref v A) col = dot_bit v A col.
Proof.
  intros Hv HA Hnr Hcol. destruct (mzd_okb_inv A HA) as (Hn & HW & _).
  unfold mul_v_ref. rewrite HW.
  rewrite (addmul_v_ref_bits (ncols v)) by auto using vwords_zero.
  rewrite vec_bit_repeat_0. apply Bool.xorb_false_l.
Qed.

(** The product is additive in the vector. *)
Lemma dot_bit_xor v v1 v2 A col :
  (forall i, vec_bit (row v 0) i
             = xorb (vec_bit (row v1 0) i) (vec_bit (row v2 0) i)) ->
  dot_bit v A col = xorb (dot_bit v1 A col) (dot_bit v2 A col).
Proof.
  intros H. unfold dot_bit.
  change false with (xorb false false) at 1.
  generalize false at 1 3. generalize false at 1 2.
  induction (seq 0 (nrows A)) as [|i l IH]; intros b2 b1; cbn [fold_left].
  - reflexivity.
  - rewrite <- IH. f_equal. rewrite H.
    destruct b1, b2, (vec_bit (row v1 0) i), (vec_bit (row v2 0) i),
      (vec_bit (row A i) col); reflexivity.
Qed.

(** The reference product is additive in the vector. *)
Lemma mul_v_ref_additive x v1 v2 A :
  vec_okb (nrows A) x = true ->
  vec_okb (nrows A) v1 = true -> vec_okb (nrows A) v2 = true ->
  mzd_okb A = true ->
  row x 0 = zipw Z.lxor (row v1 0) (row v2 0) ->
  mul_v_ref x A = zipw Z.lxor (mul_v_ref v1 A) (mul_v_ref v2 A).
Proof.
  intros Hx H1 H2 HA Rx.
  destruct (mzd_okb_inv A HA) as (Hn & _).
  pose proof (vec_okb_row _ _ H1) as W1.
  pose proof (vec_okb_row _ _ H2) as W2.
  pose proof (vec_rawb_ncols _ _ (vec_okb_raw _ _ Hx)) as Nx.
  pose proof (vec_rawb_ncols _ _ (vec_okb_raw _ _ H1)) as N1.
  pose proof (vec_rawb_ncols _ _ (vec_okb_raw _ _ H2)) as N2.
  rewrite <- Nx in Hx. rewrite <- N1 in H1. rewrite <- N2 in H2.
  pose proof (mul_v_ref_vwords v1 A H1 HA (eq_sym N1)) as V1.
  pose proof (mul_v_ref_vwords v2 A H2 HA (eq_sym N2)) as V2.
  apply (vwords_ext (ncols A)); auto using vwords_zipw_lxor.
  - apply mul_v_ref_vwords; auto.
  - intros col Hcol.
    assert (Hq : (col / 64 < words_of (ncols A))%nat)
      by (unfold words_of, m4ri_radix; dlia).
    rewrite vec_bit_zipw_lxor
      by (rewrite ?(vwords_length _ _ V1), ?(vwords_length _ _ V2); exact Hq).
    rewrite !mul_v_ref_bits by (auto; congruence).
    apply dot_bit_xor. intros i. rewrite Rx.
    destruct (Nat.ltb_spec (i / 64) (words_of (nrows A))) as [Hi|Hi].
    + apply vec_bit_zipw_lxor;
        rewrite ?(vwords_length _ _ W1), ?(vwords_length _ _ W2); exact Hi.
    + rewrite !vec_bit_overflow; auto;
        rewrite ?(length_zipw_same _ _ _ (words_of (nrows A))),
          ?(vwords_length _ _ W1), ?(vwords_length _ _ W2);
        auto using vwords_length; lia.
Qed.

(** [mzd_mul_v] into a destination: the destination is cleared, receives
    the reference product and is returned. *)
Lemma mzd_mul_v_exact cfg c0 v A :
  vec_okb (ncols v) v = true -> mzd_okb A = true -> nrows A = ncols v ->
  vec_rawb (ncols A) c0 = true ->
  mzd_mul_v cfg (Some c0) v A
  = (Some (set_row c0 0 (mul_v_ref v A)), Some (set_row c0 0 (mul_v_ref v A))).
Proof.
  intros Hv HA Hnr Hc. destruct (mzd_okb_inv A HA) as (Hn & HW & _).
  unfold mzd_mul_v. apply Nat.eqb_eq in Hnr. rewrite Hnr. cbn [negb].
  apply Nat.eqb_eq in Hnr.
  rewrite (mzd_row_clear_offset_vec (ncols A)) by assumption.
  rewrite (mzd_addmul_v_spec cfg (ncols v))
    by auto using vec_okb_set_row, vwords_zero.
  rewrite (row_set_row (ncols A)), set_row_set_row by assumption.
  unfold mul_v_ref. rewrite HW. reflexivity.
Qed.

(** [mzd_mul_v] without a destination returns a fresh vector. *)
Lemma mzd_mul_v_fresh cfg v A :
  vec_okb (ncols v) v = true -> mzd_okb A = true -> nrows A = ncols v ->
  mzd_mul_v cfg None v A
  = (Some (set_row (mzd_local_init 1 (ncols A)) 0 (mul_v_ref v A)), None).
Proof.
  intros Hv HA Hnr. destruct (mzd_okb_inv A HA) as (Hn & HW & _).
  unfold mzd_mul_v. apply Nat.eqb_eq in Hnr. rewrite Hnr. cbn [negb].
  apply Nat.eqb_eq in Hnr.
  rewrite (mzd_addmul_v_spec cfg (ncols v)) by auto using vec_okb_init.
  rewrite row_init. unfold mul_v_ref. rewrite HW. reflexivity.
Qed.

(** X11: the dispatch on the build and on the CPU never changes a
    result: on well-formed operands [mzd_xor], [mzd_and], [mzd_addmul_v]
    and [mzd_mul_v] return the same object in every configuration; the
    SSE and AVX paths agree with the portable loops word for word, the
    final mask included. *)
Theorem kernel_same_on_every_build :
  forall cfg1 cfg2 n res a b d c v A,
    vec_rawb n res = true -> vec_okb n a = true -> vec_okb n b = true ->
    vec_okb (ncols v) v = true -> mzd_okb A = true -> nrows A = ncols v ->
    vec_okb (ncols A) c = true -> dst_okb (ncols A) d = true ->
    mzd_xor cfg1 (Some res) a b = mzd_xor cfg2 (Some res) a b
    /\ mzd_and cfg1 (Some res) a b = mzd_and cfg2 (Some res) a b
    /\ vec_okb n (mzd_xor cfg1 (Some res) a b) = true
    /\ vec_okb n (mzd_and cfg1 (Some res) a b) = true
    /\ mzd_addmul_v cfg1 c v A = mzd_addmul_v cfg2 c v A
    /\ mzd_mul_v cfg1 d v A = mzd_mul_v cfg2 d v A.
Proof.
  intros cfg1 cfg2 n res a b d c v A Hr Ha Hb Hv HA Hnr Hc Hd.
  pose proof (vec_rawb_pos _ _ Hr) as Hn.
  rewrite !(mzd_xor_vec _ n), !(mzd_and_vec _ n) by assumption.
  split; [reflexivity|]. split; [reflexivity|].
  split; [|split; [|split]].
  - apply vec_okb_set_row; auto using vwords_zipw_lxor, vec_okb_row.
  - apply vec_okb_set_row; auto.
    apply vwords_zipw_land_l; auto using vec_okb_row.
    apply (vec_okb_row _ _ Hb).
  - rewrite !(mzd_addmul_v_spec _ (ncols v)) by assumption. reflexivity.
  - destruct d as [c0|]; cbn [dst_okb] in Hd.
    + rewrite !mzd_mul_v_exact by assumption. reflexivity.
    + rewrite !mzd_mul_v_fresh by assumption. reflexivity.
Qed.

Section ProductLaws.

Variable cfg : build_t.

(** X12: [mzd_addmul_v] adds the product over GF(2) to the accumulator:
    column [col] of the result is column [col] of [c] XOR the sum over the
    rows [i] of [A] of [v_i AND A_(i, col)]; the result is a well-formed
    vector. *)
Theorem mzd_addmul_v_adds_product :
  forall c v A,
    vec_okb (ncols v) v = true -> mzd_okb A = true -> nrows A = ncols v ->
    vec_okb (ncols A) c = true ->
    exists c',
      mzd_addmul_v cfg c v A = Some c'
      /\ vec_okb (ncols A) c' = true
      /\ forall col, (col < ncols A)%nat ->
           vec_bit (row c' 0) col
           = xorb (vec_bit (row c 0) col) (dot_bit v A col).
Proof.
  intros c v A Hv HA Hnr Hc.
  pose proof (vec_okb_row _ _ Hc) as Wc.
  rewrite (mzd_addmul_v_spec cfg (ncols v)) by assumption.
  eexists; split; [reflexivity|]. split.
  - apply vec_okb_set_row; [apply vec_okb_raw; assumption|].
    apply (addmul_v_ref_vwords (ncols v)); assumption.
  - intros col Hcol.
    rewrite (row_set_row (ncols A)) by (apply vec_okb_raw; assumption).
    apply (addmul_v_ref_bits (ncols v)); assumption.
Qed.

(** X13: adding the same product twice gives the accumulator back. *)
Theorem mzd_addmul_v_twice_cancels :
  forall c v A,
    vec_okb (ncols v) v = true -> mzd_okb A = true -> nrows A = ncols v ->
    vec_okb (ncols A) c = true ->
    exists c1,
      mzd_addmul_v cfg c v A = Some c1
      /\ mzd_addmul_v cfg c1 v A = Some c.
Proof.
  intros c v A Hv HA Hnr Hc.
  destruct (mzd_okb_inv A HA) as (Hn & _).
  pose proof (vec_okb_row _ _ Hc) as Wc.
  pose proof (vec_okb_raw _ _ Hc) as Rc.
  pose proof (addmul_v_ref_vwords (ncols v) _ v A Hv HA Hnr Wc) as W1.
  rewrite (mzd_addmul_v_spec cfg (ncols v)) by assumption.
  eexists; split; [reflexivity|].
  rewrite (mzd_addmul_v_spec cfg (ncols v))
    by auto using vec_okb_set_row.
  rewrite (row_set_row (ncols A)), set_row_set_row by assumption.
  f_equal. rewrite <- (set_row_row (ncols A) c) at 3 by assumption.
  f_equal. apply (vwords_ext (ncols A)); auto.
  - apply (addmul_v_ref_vwords (ncols v)); assumption.
  - intros col Hcol.
    rewrite !(addmul_v_ref_bits (ncols v)) by assumption.
    destruct (vec_bit (row c 0) col), (dot_bit v A col); reflexivity.
Qed.

(** X14: the product is additive in the vector: multiplying the XOR of
    two vectors gives the XOR of the two products. *)
Theorem mzd_mul_v_additive :
  forall r v1 v2 A,
    vec_rawb (nrows A) r = true ->
    vec_okb (nrows A) v1 = true -> vec_okb (nrows A) v2 = true ->
    mzd_okb A = true ->
    exists p p1 p2,
      fst (mzd_mul_v cfg None (mzd_xor cfg (Some r) v1 v2) A) = Some p
      /\ fst (mzd_mul_v cfg None v1 A) = Some p1
      /\ fst (mzd_mul_v cfg None v2 A) = Some p2
      /\ row p 0 = zipw Z.lxor (row p1 0) (row p2 0).
Proof.
  intros r v1 v2 A Hr H1 H2 HA.
  destruct (mzd_okb_inv A HA) as (Hn & _).
  pose proof (vec_rawb_pos _ _ Hr) as Hnv.
  pose proof (vec_rawb_ncols _ _ (vec_okb_raw _ _ H1)) as N1.
  pose proof (vec_rawb_ncols _ _ (vec_okb_raw _ _ H2)) as N2.
  rewrite (mzd_xor_vec cfg (nrows A)) by assumption.
  set (x := set_row r 0 (zipw Z.lxor (row v1 0) (row v2 0))).
  assert (Hx : vec_okb (nrows A) x = true)
    by (apply vec_okb_set_row; auto using vwords_zipw_lxor, vec_okb_row).
  pose proof (vec_rawb_ncols _ _ (vec_okb_raw _ _ Hx)) as Nx.
  assert (Rx : row x 0 = zipw Z.lxor (row v1 0) (row v2 0))
    by (apply (row_set_row (nrows A)); assumption).
  rewrite !mzd_mul_v_fresh by (auto; congruence).
  do 3 eexists. cbn [fst]. repeat (split; [reflexivity|]).
  assert (I : vec_rawb (ncols A) (mzd_local_init 1 (ncols A)) = true)
    by (apply vec_okb_raw, vec_okb_init; assumption).
  rewrite !(row_set_row (ncols A)) by assumption.
  apply mul_v_ref_additive; assumption.
Qed.

(** X15: [mzd_mul_v] overwrites its destination: what the destination
    held before does not matter, the object returned is the destination as
    the call leaves it, with its descriptor unchanged, and its row is the
    row of the vector that a call without destination allocates. *)
Theorem mzd_mul_v_overwrites_destination :
  forall c0 ws v A,
    vec_okb (ncols v) v = true -> mzd_okb A = true -> nrows A = ncols v ->
    vec_rawb (ncols A) c0 = true ->
    raw_rowb (words_of (ncols A)) ws = true ->
    mzd_mul_v cfg (Some (set_row c0 0 ws)) v A = mzd_mul_v cfg (Some c0) v A
    /\ exists r f,
         mzd_mul_v cfg (Some c0) v A = (Some r, Some r)
         /\ flags r = flags c0 /\ rowstride r = rowstride c0
         /\ vec_okb (ncols A) r = true
         /\ mzd_mul_v cfg None v A = (Some f, None)
         /\ row f 0 = row r 0.
Proof.
  intros c0 ws v A Hv HA Hnr Hc Hws. apply raw_rowb_rwords in Hws.
  destruct (mzd_okb_inv A HA) as (Hn & _).
  rewrite !mzd_mul_v_exact by auto using vec_rawb_set_row.
  rewrite mzd_mul_v_fresh by assumption.
  rewrite set_row_set_row. split; [reflexivity|].
  do 2 eexists. split; [reflexivity|].
  split; [reflexivity|]. split; [reflexivity|].
  split; [|split; [reflexivity|]].
  - apply vec_okb_set_row; [assumption|]. apply mul_v_ref_vwords; assumption.
  - rewrite !(row_set_row (ncols A));
      auto using vec_okb_raw, vec_okb_init.
Qed.

End ProductLaws.

(** ** Further properties: the share layer *)

Lemma arr_okb_raw n k a : arr_okb n k a = true -> arr_rawb n k a = true.
Proof.
  unfold arr_okb, arr_rawb. rewrite !Bool.andb_true_iff, !forallb_forall.
  intros [L F]. split; [exact L|]. intros x Hx. apply vec_okb_raw, F, Hx.
Qed.

Lemma arr_okb_intro3 n x0 x1 x2 :
  vec_okb n x0 = true -> vec_okb n x1 = true -> vec_okb n x2 = true ->
  arr_okb n 3 [x0; x1; x2] = true.
Proof.
  intros H0 H1 H2. unfold arr_okb. cbn [length forallb Nat.eqb andb].
  rewrite H0, H1, H2. reflexivity.
Qed.

Lemma vwords_xor3 n sh : arr_okb n 3 sh = true -> vwords n (xor3 sh).
Proof.
  intros H. destruct (arr3_inv _ _ H) as (x0 & x1 & x2 & -> & X0 & X1 & X2).
  pose proof (vec_rawb_pos _ _ (vec_okb_raw _ _ X0)).
  unfold xor3. cbn [ix nth]. auto using vwords_zipw_lxor, vec_okb_row.
Qed.

(** The right shift of words is additive. *)
Lemma shift_right_words_lxor n a b k :
  (k < 64)%nat -> rwords n a -> rwords n b ->
  shift_right_words (zipw Z.lxor a b) (Z.of_nat k)
  = zipw Z.lxor (shift_right_words a (Z.of_nat k))
      (shift_right_words b (Z.of_nat k)).
Proof.
  intros Hk Ra Rb.
  pose proof (rwords_zipw Z.lxor n a b word_ok_lxor Ra Rb) as Rx.
  pose proof (rwords_shift_right n a (Z.of_nat k) ltac:(lia) Ra) as Sa.
  pose proof (rwords_shift_right n b (Z.of_nat k) ltac:(lia) Rb) as Sb.
  pose proof (rwords_zipw Z.lxor n _ _ word_ok_lxor Sa Sb) as Sx.
  apply vec_bit_ext.
  - rewrite length_shift_right_words, (rwords_length _ _ Rx),
      (rwords_length _ _ Sx). reflexivity.
  - apply (rwords_shift_right n); [lia|exact Rx].
  - apply Sx.
  - intros c Hc.
    rewrite length_shift_right_words, (rwords_length _ _ Rx) in Hc.
    rewrite vec_bit_shift_right_words by (auto; apply Rx).
    rewrite (vec_bit_zipw_lxor (shift_right_words a (Z.of_nat k)))
      by (rewrite ?(rwords_length _ _ Sa), ?(rwords_length _ _ Sb); dlia).
    rewrite !vec_bit_shift_right_words
      by (auto; first [apply Ra | apply Rb]).
    destruct (Nat.ltb_spec ((c + k) / 64) (words_of n)).
    + apply vec_bit_zipw_lxor;
        rewrite ?(rwords_length _ _ Ra), ?(rwords_length _ _ Rb); assumption.
    + rewrite !vec_bit_overflow; auto;
        rewrite ?(rwords_length _ _ Rx), ?(rwords_length _ _ Ra),
          ?(rwords_length _ _ Rb); dlia.
Qed.

(** The left shift of words is additive. *)
Lemma shift_left_words_lxor n a b k :
  (k < 64)%nat -> rwords n a -> rwords n b ->
  shift_left_words (zipw Z.lxor a b) (Z.of_nat k)
  = zipw Z.lxor (shift_left_words a (Z.of_nat k))
      (shift_left_words b (Z.of_nat k)).
Proof.
  intros Hk Ra Rb.
  pose proof (rwords_zipw Z.lxor n a b word_ok_lxor Ra Rb) as Rx.
  pose proof (rwords_shift_left n a (Z.of_nat k) ltac:(lia) Ra) as Sa.
  pose proof (rwords_shift_left n b (Z.of_nat k) ltac:(lia) Rb) as Sb.
  pose proof (rwords_zipw Z.lxor n _ _ word_ok_lxor Sa Sb) as Sx.
  apply vec_bit_ext.
  - rewrite length_shift_left_words, (rwords_length _ _ Rx),
      (rwords_length _ _ Sx). reflexivity.
  - apply (rwords_shift_left n); [lia|exact Rx].
  - apply Sx.
  - intros c Hc.
    rewrite length_shift_left_words, (rwords_length _ _ Rx) in Hc.
    rewrite vec_bit_shift_left_words
      by (auto; try apply Rx; rewrite (rwords_length _ _ Rx); exact Hc).
    rewrite (vec_bit_zipw_lxor (shift_left_words a (Z.of_nat k)))
      by (rewrite ?(rwords_length _ _ Sa), ?(rwords_length _ _ Sb); dlia).
    rewrite !vec_bit_shift_left_words
      by (auto; first [apply Ra | apply Rb
                      | rewrite ?(rwords_length _ _ Ra),
                          ?(rwords_length _ _ Rb); exact Hc]).
    destruct (Nat.leb_spec k c); cbn [andb]; [|reflexivity].
    apply vec_bit_zipw_lxor;
      rewrite ?(rwords_length _ _ Ra), ?(rwords_length _ _ Rb); dlia.
Qed.

Section ShareLaws.

Variable cfg : build_t.
Variable mzd_copy : mzd_t -> mzd_t -> mzd_t.

(** [mpc_reconstruct_from_share] writes the XOR of the three shares into
    its destination. *)
Lemma mpc_reconstruct_exact n dst sv junk :
  arr_okb n 3 sv = true -> dst_okb n dst = true ->
  mpc_reconstruct_from_share cfg dst sv junk
  = set_row
      (match dst with
       | Some d => d
       | None => mzd_local_init_ex (nrows (ix sv 0)) (ncols (ix sv 0)) false
                   junk
       end) 0 (xor3 sv)
  /\ vec_okb n (mpc_reconstruct_from_share cfg dst sv junk) = true.
Proof.
  intros Hs Hd. pose proof (vwords_xor3 _ _ Hs) as WX.
  destruct (arr3_inv _ _ Hs) as (s0 & s1 & s2 & -> & S0 & S1 & S2).
  pose proof (vec_rawb_pos _ _ (vec_okb_raw _ _ S0)) as Hn.
  unfold mpc_reconstruct_from_share, xor3 in *. cbn [ix nth] in *.
  set (d := match dst with Some d => d | None => _ end).
  assert (Hd' : vec_rawb n d = true).
  { subst d. destruct dst as [d|]; [exact Hd|].
    destruct (vec_okb_inv n s0 S0) as (rs & fl & ws & -> & _). fields.
    apply vec_rawb_init_ex; assumption. }
  rewrite (mzd_xor_vec cfg n d) by assumption.
  rewrite (xor_acc cfg n) by auto using vwords_zipw_lxor, vec_okb_row.
  split; [reflexivity|]. apply vec_okb_set_row; assumption.
Qed.

(** X16: [mpc_reconstruct_from_share] returns a well-formed vector that
    holds the XOR of the three shares, whatever the destination held
    before and whatever an uncleared fresh buffer contains; a destination
    that is passed in keeps its descriptor. *)
Theorem mpc_reconstruct_from_share_is_xor :
  forall n d sv junk1 junk2,
    arr_okb n 3 sv = true -> vec_rawb n d = true ->
    vec_okb n (mpc_reconstruct_from_share cfg None sv junk1) = true
    /\ row (mpc_reconstruct_from_share cfg None sv junk1) 0 = xor3 sv
    /\ mpc_reconstruct_from_share cfg None sv junk1
       = mpc_reconstruct_from_share cfg None sv junk2
    /\ mpc_reconstruct_from_share cfg (Some d) sv junk1
       = set_row d 0 (xor3 sv).
Proof.
  intros n d sv junk1 junk2 Hs Hd.
  destruct (mpc_reconstruct_exact n None sv junk1 Hs eq_refl) as [E1 O1].
  destruct (mpc_reconstruct_exact n None sv junk2 Hs eq_refl) as [E2 _].
  destruct (mpc_reconstruct_exact n (Some d) sv junk1 Hs Hd) as [E3 _].
  split; [exact O1|]. split; [|split; [|exact E3]].
  - rewrite E1. unfold mzd_local_init_ex, set_row, row. fields.
    destruct (arr3_inv _ _ Hs) as (s0 & s1 & s2 & -> & S0 & _).
    destruct (vec_okb_inv n s0 S0) as (rs & fl & ws & -> & _).
    cbn [ix nth nrows seq map upd]. reflexivity.
  - rewrite E1, E2. unfold mzd_local_init_ex, set_row. fields.
    destruct (arr3_inv _ _ Hs) as (s0 & s1 & s2 & -> & S0 & _).
    destruct (vec_okb_inv n s0 S0) as (rs & fl & ws & -> & _).
    cbn [ix nth nrows seq map upd]. reflexivity.
Qed.

(** X17: [mpc_add] (and with it [mpc_xor], the same loop) is addition of
    the shared values: the shares of the result XOR to the XOR of the two
    shared values, also when the destination is one of the operands. *)
Theorem mpc_add_shares_the_sum :
  forall n res a b,
    arr_rawb n 3 res = true -> arr_okb n 3 a = true -> arr_okb n 3 b = true ->
    arr_okb n 3 (mpc_add cfg res a b 3) = true
    /\ xor3 (mpc_add cfg res a b 3) = zipw Z.lxor (xor3 a) (xor3 b)
    /\ xor3 (mpc_add cfg a a b 3) = zipw Z.lxor (xor3 a) (xor3 b)
    /\ mpc_xor cfg res a b 3 = mpc_add cfg res a b 3.
Proof.
  assert (K : forall n res a b,
             arr_rawb n 3 res = true -> arr_okb n 3 a = true ->
             arr_okb n 3 b = true ->
             arr_okb n 3 (mpc_add cfg res a b 3) = true
             /\ xor3 (mpc_add cfg res a b 3) = zipw Z.lxor (xor3 a) (xor3 b)).
  { intros n res a b Hr Ha Hb.
    destruct (arr3_inv _ _ Hr) as (x0 & x1 & x2 & -> & X0 & X1 & X2).
    destruct (arr3_inv _ _ Ha) as (a0 & a1 & a2 & -> & A0 & A1 & A2).
    destruct (arr3_inv _ _ Hb) as (b0 & b1 & b2 & -> & B0 & B1 & B2).
    pose proof (vec_rawb_pos _ _ X0) as Hn.
    pose proof (vec_okb_length _ _ A0). pose proof (vec_okb_length _ _ A1).
    pose proof (vec_okb_length _ _ A2). pose proof (vec_okb_length _ _ B0).
    pose proof (vec_okb_length _ _ B1). pose proof (vec_okb_length _ _ B2).
    unfold mpc_add, xor3. cbn [fold_left seq upd ix nth].
    rewrite !(mzd_xor_vec cfg n) by assumption. split.
    - apply arr_okb_intro3; apply vec_okb_set_row;
        auto using vwords_zipw_lxor, vec_okb_row.
    - rewrite !(row_set_row n) by assumption.
      zipw_ext (words_of n). apply Z.bits_inj'; intros i Hi.
      rewrite !Z.lxor_spec. btauto. }
  intros n res a b Hr Ha Hb.
  destruct (K n res a b Hr Ha Hb) as [O E].
  destruct (K n a a b (arr_okb_raw _ _ _ Ha) Ha Hb) as [_ E'].
  repeat split; assumption.
Qed.

(** X18: [mpc_and_const] multiplies the shared value by a public vector:
    the shares of the result XOR to the shared value AND the constant. *)
Theorem mpc_and_const_shares_the_product :
  forall n res a c,
    arr_rawb n 3 res = true -> arr_okb n 3 a = true -> vec_okb n c = true ->
    arr_okb n 3 (mpc_and_const cfg res a c 3) = true
    /\ xor3 (mpc_and_const cfg res a c 3) = zipw Z.land (xor3 a) (row c 0).
Proof.
  intros n res a c Hr Ha Hc.
  destruct (arr3_inv _ _ Hr) as (x0 & x1 & x2 & -> & X0 & X1 & X2).
  destruct (arr3_inv _ _ Ha) as (a0 & a1 & a2 & -> & A0 & A1 & A2).
  pose proof (vec_rawb_pos _ _ X0) as Hn.
  pose proof (vec_okb_length _ _ A0). pose proof (vec_okb_length _ _ A1).
  pose proof (vec_okb_length _ _ A2). pose proof (vec_okb_length _ _ Hc).
  pose proof (vec_okb_row _ _ Hc) as [Rc _].
  unfold mpc_and_const, xor3. cbn [fold_left seq upd ix nth].
  rewrite !(mzd_and_vec cfg n) by assumption. split.
  - apply arr_okb_intro3; apply vec_okb_set_row;
      auto using vwords_zipw_land_l, vec_okb_row.
  - rewrite !(row_set_row n) by assumption.
    zipw_ext (words_of n). apply Z.bits_inj'; intros i Hi.
    rewrite ?Z.lxor_spec, ?Z.land_spec, ?Z.lxor_spec. btauto.
Qed.

(** X19: [mpc_const_add] in place adds a public vector to the shared
    value when [c] is [0] or [sc], and does nothing for any other [c]. *)
Theorem mpc_const_add_shares_the_sum :
  forall n a k c,
    arr_okb n 3 a = true -> vec_okb n k = true ->
    (c = 0%nat \/ c = 3%nat ->
     arr_okb n 3 (mpc_const_add cfg a a k 3 c) = true
     /\ xor3 (mpc_const_add cfg a a k 3 c) = zipw Z.lxor (xor3 a) (row k 0))
    /\ (c <> 0%nat -> c <> 3%nat -> mpc_const_add cfg a a k 3 c = a).
Proof.
  intros n a k c Ha Hk.
  destruct (arr3_inv _ _ Ha) as (a0 & a1 & a2 & -> & A0 & A1 & A2).
  pose proof (vec_rawb_pos _ _ (vec_okb_raw _ _ A0)) as Hn.
  pose proof (vec_okb_length _ _ A0). pose proof (vec_okb_length _ _ A1).
  pose proof (vec_okb_length _ _ A2). pose proof (vec_okb_length _ _ Hk).
  split.
  - intros [-> | ->]; unfold mpc_const_add, xor3;
      cbn [Nat.eqb Nat.sub upd ix nth];
      rewrite (mzd_xor_vec cfg n) by auto using vec_okb_raw;
      (split;
       [ apply arr_okb_intro3; auto; apply vec_okb_set_row;
         auto using vec_okb_raw, vwords_zipw_lxor, vec_okb_row
       | rewrite !(row_set_row n) by auto using vec_okb_raw;
         zipw_ext (words_of n); apply Z.bits_inj'; intros i Hi;
         rewrite !Z.lxor_spec; btauto ]).
  - intros Hc0 Hc3. unfold mpc_const_add.
    apply Nat.eqb_neq in Hc0, Hc3. rewrite Hc0, Hc3. reflexivity.
Qed.

(** X20: [mpc_const_mat_mul] multiplies the shared value by a public
    matrix: the shares of the result XOR to the product of the
    reconstructed vector and the matrix. *)
Theorem mpc_const_mat_mul_shares_the_product :
  forall res A v junk,
    mzd_okb A = true -> arr_okb (nrows A) 3 v = true ->
    arr_rawb (ncols A) 3 res = true ->
    exists p,
      fst (mzd_mul_v cfg None (mpc_reconstruct_from_share cfg None v junk) A)
      = Some p
      /\ xor3 (mpc_const_mat_mul cfg res A v 3) = row p 0
      /\ arr_okb (ncols A) 3 (mpc_const_mat_mul cfg res A v 3) = true.
Proof.
  intros res A v junk HA Hv Hr.
  destruct (mzd_okb_inv A HA) as (Hn & _).
  destruct (mpc_reconstruct_exact (nrows A) None v junk Hv eq_refl) as [E O].
  assert (RX : row (mpc_reconstruct_from_share cfg None v junk) 0 = xor3 v).
  { rewrite E.
    destruct (arr3_inv _ _ Hv) as (s0 & s1 & s2 & -> & S0 & _).
    destruct (vec_okb_inv _ s0 S0) as (rs & fl & ws & -> & _).
    reflexivity. }
  set (x := mpc_reconstruct_from_share cfg None v junk) in *. clearbody x.
  destruct (arr3_inv _ _ Hr) as (x0 & x1 & x2 & -> & X0 & X1 & X2).
  destruct (arr3_inv _ _ Hv) as (v0 & v1 & v2 & -> & V0 & V1 & V2).
  pose proof (vec_rawb_pos _ _ (vec_okb_raw _ _ V0)) as Hnv.
  pose proof (vec_rawb_ncols _ _ (vec_okb_raw _ _ V0)) as N0.
  pose proof (vec_rawb_ncols _ _ (vec_okb_raw _ _ V1)) as N1.
  pose proof (vec_rawb_ncols _ _ (vec_okb_raw _ _ V2)) as N2.
  pose proof (vec_rawb_ncols _ _ (vec_okb_raw _ _ O)) as Nx.
  assert (M0 : vwords (ncols A) (mul_v_ref v0 A))
    by (apply mul_v_ref_vwords; auto; congruence).
  assert (M1 : vwords (ncols A) (mul_v_ref v1 A))
    by (apply mul_v_ref_vwords; auto; congruence).
  assert (M2 : vwords (ncols A) (mul_v_ref v2 A))
    by (apply mul_v_ref_vwords; auto; congruence).
  rewrite mzd_mul_v_fresh by (auto; congruence).
  eexists. cbn [fst]. split; [reflexivity|].
  unfold mpc_const_mat_mul. cbn [fold_left seq upd ix nth].
  rewrite (mzd_mul_v_exact cfg x0 v0) by (auto; congruence). cbn [snd upd].
  rewrite (mzd_mul_v_exact cfg x1 v1) by (auto; congruence). cbn [snd upd].
  rewrite (mzd_mul_v_exact cfg x2 v2) by (auto; congruence). cbn [snd upd].
  split.
  - unfold xor3. cbn [ix nth].
    rewrite !(row_set_row (ncols A))
      by auto using vec_okb_raw, vec_okb_init.
    set (y := set_row v0 0 (zipw Z.lxor (row v0 0) (row v1 0))).
    assert (Hy : vec_okb (nrows A) y = true)
      by (apply vec_okb_set_row;
          auto using vec_okb_raw, vwords_zipw_lxor, vec_okb_row).
    assert (Ry : row y 0 = zipw Z.lxor (row v0 0) (row v1 0))
      by (apply (row_set_row (nrows A)); auto using vec_okb_raw).
    rewrite <- (mul_v_ref_additive y v0 v1 A) by assumption.
    symmetry. apply mul_v_ref_additive; auto.
    rewrite RX, Ry. reflexivity.
  - apply arr_okb_intro3; apply vec_okb_set_row; assumption.
Qed.

(** X21: the shifts commute with reconstruction: the shares that
    [mpc_shift_right] and [mpc_shift_left] produce XOR to the shifted XOR
    of the input shares. *)
Theorem mpc_shifts_share_the_shift :
  forall n res a k,
    (k < 64)%nat -> arr_rawb n 3 res = true -> arr_rawb n 3 a = true ->
    xor3 (mpc_shift_right mzd_copy res a (Z.of_nat k) 3)
    = shift_right_words (xor3 a) (Z.of_nat k)
    /\ xor3 (mpc_shift_left mzd_copy res a (Z.of_nat k) 3)
       = shift_left_words (xor3 a) (Z.of_nat k).
Proof.
  intros n res a k Hk Hr Ha.
  destruct (arr3_inv _ _ Hr) as (x0 & x1 & x2 & -> & X0 & X1 & X2).
  destruct (arr3_inv _ _ Ha) as (a0 & a1 & a2 & -> & A0 & A1 & A2).
  pose proof (vec_rawb_row _ _ A0) as R0.
  pose proof (vec_rawb_row _ _ A1) as R1.
  pose proof (vec_rawb_row _ _ A2) as R2.
  unfold mpc_shift_right, mpc_shift_left, xor3.
  cbn [fold_left seq upd ix nth].
  rewrite !(mzd_shift_right_vec mzd_copy n) by (auto; lia).
  rewrite !(mzd_shift_left_vec mzd_copy n) by (auto; lia).
  rewrite !(row_set_row n) by assumption.
  rewrite (shift_right_words_lxor n), (shift_left_words_lxor n)
    by auto using rwords_zipw, word_ok_lxor.
  rewrite (shift_right_words_lxor n), (shift_left_words_lxor n)
    by assumption.
  split; reflexivity.
Qed.

End ShareLaws.

(** ** Further properties: copies and constructors of share arrays *)

(** A loop that rewrites slot [i] of an array from its old value, for
    [i] below [sc]. *)
Lemma fold_upd_spec (F : nat -> mzd_t -> mzd_t) sc (a : list mzd_t) :
  (sc <= length a)%nat ->
  let a' := fold_left (fun res i => upd res i (F i (ix res i))) (seq 0 sc) a in
  length a' = length a
  /\ forall i, ix a' i = if (i <? sc)%nat then F i (ix a i) else ix a i.
Proof.
  induction sc as [|sc IH]; intros Hsc a'; subst a'.
  - cbn [seq fold_left]. split; reflexivity.
  - rewrite seq_S, fold_left_app. cbn [fold_left Nat.add].
    destruct (IH ltac:(lia)) as (L & R).
    split; [rewrite length_upd; exact L|].
    intros i. destruct (Nat.eq_dec sc i) as [<-|Hne].
    + rewrite ix_upd_same by lia. rewrite R.
      replace (sc <? sc)%nat with false by (symmetry; apply Nat.ltb_ge; lia).
      replace (sc <? S sc)%nat with true by (symmetry; apply Nat.ltb_lt; lia).
      reflexivity.
    + rewrite ix_upd_other by exact Hne. rewrite R.
      destruct (Nat.ltb_spec i sc), (Nat.ltb_spec i (S sc)); auto; lia.
Qed.

Lemma arr_okb_intro n k a :
  length a = k -> (forall i, (i < k)%nat -> vec_okb n (ix a i) = true) ->
  arr_okb n k a = true.
Proof.
  intros L H. unfold arr_okb. apply Nat.eqb_eq in L. rewrite L. cbn [andb].
  apply Nat.eqb_eq in L.
  apply forallb_forall. intros x Hx.
  destruct (In_nth _ _ (mk_mzd 0 0 0 0 0 0 []) Hx) as (i & Hi & <-).
  apply H. lia.
Qed.

Lemma ix_init_multiple_ex sc n junk i :
  (i < sc)%nat ->
  ix (mzd_local_init_multiple_ex sc 1 n false junk) i
  = mzd_local_init_ex 1 n false (junk i).
Proof.
  intros Hi. unfold ix, mzd_local_init_multiple_ex.
  rewrite nth_indep with (d' := mzd_local_init_ex 1 n false (junk 0%nat))
    by (rewrite length_map, length_seq; exact Hi).
  rewrite (map_nth (fun k => mzd_local_init_ex 1 n false (junk k))
             (seq 0 sc) 0%nat i).
  rewrite seq_nth by exact Hi. reflexivity.
Qed.

Lemma length_init_multiple_ex sc r c clear junk :
  length (mzd_local_init_multiple_ex sc r c clear junk) = sc.
Proof.
  unfold mzd_local_init_multiple_ex. rewrite length_map, length_seq.
  reflexivity.
Qed.

(** The loop of [mpc_init_random_vector]: slot [i] receives the [i]-th
    chunk of the random tape. *)
Lemma random_fill_spec n sc (s0 : list mzd_t) g :
  (sc <= length s0)%nat ->
  (forall i, (i < sc)%nat -> vec_rawb n (ix s0 i) = true) ->
  let st :=
    fold_left
      (fun (st : list mzd_t * rng_t) i =>
         let '(s, g) := st in
         let '(x, g') := mzd_randomize_ssl (ix s i) g in
         (upd s i x, g'))
      (seq 0 sc) (s0, g) in
  length (fst st) = length s0
  /\ snd st = mk_rng (tape g) (pos g + sc * words_of n)
  /\ forall i,
       ix (fst st) i
       = if (i <? sc)%nat
         then set_row (ix s0 i) 0
                (mask_last n
                   (fst (rand_bytes (words_of n)
                           (mk_rng (tape g) (pos g + i * words_of n)))))
         else ix s0 i.
Proof.
  induction sc as [|sc IH]; intros Hsc Hraw st; subst st.
  - cbn [seq fold_left fst snd]. split; [reflexivity|].
    split; [|reflexivity].
    destruct g as [t p]. cbn [tape pos]. f_equal. lia.
  - rewrite seq_S, fold_left_app. cbn [fold_left Nat.add].
    destruct (IH ltac:(lia) ltac:(intros; apply Hraw; lia)) as (L & G & R).
    destruct (fold_left _ (seq 0 sc) (s0, g)) as [s1 g1].
    cbn [fst snd] in L, G, R.
    assert (E : ix s1 sc = ix s0 sc).
    { rewrite R.
      replace (sc <? sc)%nat with false by (symmetry; apply Nat.ltb_ge; lia).
      reflexivity. }
    rewrite (mzd_randomize_ssl_vec n) by (rewrite E; apply Hraw; lia).
    cbn [fst snd]. split; [rewrite length_upd; exact L|]. split.
    + subst g1. unfold rand_bytes. cbn [snd tape pos]. f_equal. lia.
    + intros i. destruct (Nat.eq_dec sc i) as [<-|Hne].
      * rewrite ix_upd_same by lia.
        replace (sc <? S sc)%nat with true
          by (symmetry; apply Nat.ltb_lt; lia).
        rewrite E, G. reflexivity.
      * rewrite ix_upd_other by exact Hne. rewrite R.
        destruct (Nat.ltb_spec i sc), (Nat.ltb_spec i (S sc)); auto; lia.
Qed.

(** The first [sc] slots of an array are buffers of [n] columns. *)
Lemma arr_rawb_firstn n sc a :
  arr_rawb n sc (firstn sc a) = true ->
  (sc <= length a)%nat
  /\ forall i, (i < sc)%nat -> vec_rawb n (ix a i) = true.
Proof.
  unfold arr_rawb. rewrite Bool.andb_true_iff, Nat.eqb_eq, forallb_forall.
  intros [L F]. rewrite length_firstn in L. split; [lia|].
  intros i Hi. apply F. unfold ix.
  rewrite <- (firstn_skipn sc a) at 1.
  rewrite app_nth1 by (rewrite length_firstn; lia).
  apply nth_In. rewrite length_firstn. lia.
Qed.

Section ShareArrays.

Variable cfg : build_t.
Variable mzd_copy : mzd_t -> mzd_t -> mzd_t.

(** X22: [mpc_copy] copies slot by slot: each of the first [sc] slots of
    the destination receives the row of the same slot of the input and
    keeps its own descriptor; the slots from [sc] on are untouched. *)
Theorem mpc_copy_slots :
  forall n sc out inp,
    arr_rawb n sc (firstn sc out) = true ->
    arr_rawb n sc (firstn sc inp) = true ->
    let out' := mpc_copy mzd_copy out inp sc in
    length out' = length out
    /\ (forall i, (i < sc)%nat ->
                  ix out' i = set_row (ix out i) 0 (row (ix inp i) 0))
    /\ (forall i, (sc <= i)%nat -> ix out' i = ix out i).
Proof.
  intros n sc out inp Ho Hi out'. subst out'. unfold mpc_copy.
  destruct (arr_rawb_firstn _ _ _ Ho) as (Hsc & Hro).
  destruct (arr_rawb_firstn _ _ _ Hi) as (_ & Hri).
  destruct (fold_upd_spec
              (fun i x => mzd_local_copy mzd_copy (Some x) (ix inp i))
              sc out Hsc) as (L & R).
  split; [exact L|]. split.
  - intros i Hlt. rewrite R.
    replace (i <? sc)%nat with true by (symmetry; apply Nat.ltb_lt; lia).
    apply (mzd_local_copy_vec mzd_copy n); auto.
  - intros i Hge. rewrite R.
    replace (i <? sc)%nat with false by (symmetry; apply Nat.ltb_ge; lia).
    reflexivity.
Qed.

(** X23: [mpc_init_plain_share_vector] returns three well-formed copies
    of [v]; they XOR to [v], whatever the fresh buffers contained. *)
Theorem mpc_init_plain_share_vector_copies :
  forall v junk,
    vec_okb (ncols v) v = true ->
    let sh := mpc_init_plain_share_vector mzd_copy v junk in
    arr_okb (ncols v) 3 sh = true
    /\ (forall i, (i < 3)%nat -> row (ix sh i) 0 = row v 0)
    /\ xor3 sh = row v 0.
Proof.
  intros v junk Hv sh. subst sh. set (n := ncols v) in *.
  pose proof (vec_rawb_pos _ _ (vec_okb_raw _ _ Hv)) as Hn.
  pose proof (vec_okb_row _ _ Hv) as Wv.
  pose proof (vec_okb_length _ _ Hv) as Lv.
  unfold mpc_init_plain_share_vector, mzd_local_init_multiple_ex. fold n.
  cbn [seq map fold_left upd ix nth].
  rewrite !(mzd_local_copy_vec mzd_copy n)
    by auto using vec_rawb_init_ex, vec_okb_raw.
  split; [|split].
  - apply arr_okb_intro3; apply vec_okb_set_row;
      auto using vec_rawb_init_ex.
  - intros [|[|[|i]]] Hi; try lia; cbn [ix nth];
      apply (row_set_row n); auto using vec_rawb_init_ex.
  - unfold xor3. cbn [ix nth].
    rewrite !(row_set_row n) by auto using vec_rawb_init_ex.
    zipw_ext (words_of n).
    rewrite Z.lxor_nilpotent. apply Z.lxor_0_l.
Qed.


(** X25: [mpc_init_random_vector] fills [sc] vectors from consecutive
    chunks of the random source: share [i] holds the words read at
    offset [i * width], its last word masked; the shares are well-formed
    whatever the fresh buffers contained, and the source has advanced by
    [sc * width] words. *)
Theorem mpc_init_random_vector_chunks :
  forall n sc junk g,
    (1 <= n)%nat ->
    let sh := fst (mpc_init_random_vector n sc junk g) in
    let g' := snd (mpc_init_random_vector n sc junk g) in
    arr_okb n sc sh = true
    /\ (forall i, (i < sc)%nat ->
          row (ix sh i) 0
          = mask_last n
              (fst (rand_bytes (words_of n)
                      (mk_rng (tape g) (pos g + i * words_of n)))))
    /\ g' = mk_rng (tape g) (pos g + sc * words_of n).
Proof.
  intros n sc junk g Hn sh g'. subst sh g'. unfold mpc_init_random_vector.
  assert (Hraw : forall i, (i < sc)%nat ->
            vec_rawb n (ix (mzd_local_init_multiple_ex sc 1 n false junk) i)
            = true).
  { intros i Hi. rewrite ix_init_multiple_ex by exact Hi.
    apply vec_rawb_init_ex; exact Hn. }
  destruct (random_fill_spec n sc
              (mzd_local_init_multiple_ex sc 1 n false junk) g
              ltac:(rewrite length_init_multiple_ex; lia) Hraw)
    as (L & G & R).
  rewrite length_init_multiple_ex in L.
  split; [|split; [|exact G]].
  - apply arr_okb_intro; [exact L|]. intros i Hi. rewrite R.
    replace (i <? sc)%nat with true by (symmetry; apply Nat.ltb_lt; lia).
    apply vec_okb_set_row; [apply Hraw; exact Hi|].
    apply vwords_mask_last; [exact Hn|apply rwords_rand_bytes].
  - intros i Hi. rewrite R.
    replace (i <? sc)%nat with true by (symmetry; apply Nat.ltb_lt; lia).
    apply (row_set_row n). apply Hraw; exact Hi.
Qed.

End ShareArrays.


(** ** Further properties: prover and verifier *)

Lemma vec_bit_zipw_land c a col :
  (col / 64 < length c)%nat -> (col / 64 < length a)%nat ->
  vec_bit (zipw Z.land c a) col = vec_bit c col && vec_bit a col.
Proof.
  intros Hc Ha. unfold vec_bit, m4ri_radix.
  rewrite rd_zipw by assumption. apply Z.land_spec.
Qed.

Lemma zipw_lxor_zero_l n ws :
  length ws = words_of n -> zipw Z.lxor (zero_row n) ws = ws.
Proof.
  intros L. unfold zero_row. apply rd_ext.
  - rewrite L. apply length_zipw_same; [apply repeat_length|exact L].
  - intros j Hj.
    rewrite (length_zipw_same _ _ _ (words_of n)) in Hj
      by (rewrite ?repeat_length; auto).
    rewrite (rd_zipw_same _ _ _ (words_of n))
      by (rewrite ?repeat_length; auto).
    rewrite rd_repeat_0. apply Z.lxor_0_l.
Qed.

Lemma pair_okb_of_arr n a : arr_okb n 3 a = true -> pair_okb n a = true.
Proof.
  intros H. destruct (arr3_inv _ _ H) as (x0 & x1 & x2 & -> & H0 & H1 & _).
  unfold pair_okb. cbn [ix nth]. rewrite H0, H1. reflexivity.
Qed.

Section ProverVerifier.

Variable cfg : build_t.
Variable mzd_copy : mzd_t -> mzd_t -> mzd_t.

(** X27: the verifier gate recomputes what the prover gate computed.  Run
    on the same shares, with a view that holds the prover's slot 0 as it
    was before the gate and the prover's slot 1 as the gate left it,
    [mpc_and_verify] produces the prover's [res[0]] and the prover's
    final [view.s[0]]; when slot 1 of the view was zero before the gate,
    column [c] of the verifier's [res[1]] is column [c] of the prover's
    [res[1]] under the mask, for every column from [viewshift] on, and
    zero below. *)
Theorem mpc_and_verify_recomputes_prover :
  forall n res resv first second r view mask k buffer bufferv,
    (k < 64)%nat ->
    arr_rawb n 3 res = true -> arr_okb n 3 first = true ->
    arr_okb n 3 second = true -> arr_okb n 3 r = true ->
    arr_okb n 3 (s view) = true -> arr_rawb n 3 buffer = true ->
    pair_rawb n resv = true -> vec_okb n mask = true ->
    vec_rawb n (ix bufferv 0) = true ->
    let P := mpc_and cfg mzd_copy res first second r view (Z.of_nat k)
               buffer in
    let resp := fst (fst P) in
    let viewp := snd (fst P) in
    let viewv := mk_view [ix (s view) 0; ix (s viewp) 1] in
    let V := mpc_and_verify cfg mzd_copy resv first second r viewv mask
               (Z.of_nat k) bufferv in
    let resv' := fst (fst V) in
    let viewv' := snd (fst V) in
    row (ix resv' 0) 0 = row (ix resp 0) 0
    /\ row (ix (s viewv') 0) 0 = row (ix (s viewp) 0) 0
    /\ (row (ix (s view) 1) 0 = zero_row n ->
        forall c, (c < n)%nat ->
          vec_bit (row (ix resv' 1) 0) c
          = (k <=? c)%nat && vec_bit (row (ix resp 1) 0) c
            && vec_bit (row mask 0) c).
Proof.
  intros n res resv first second r view mask k buffer bufferv
    Hk Hres Hf Hs Hr Hv Hb Hresv Hm Hbv P resp viewp viewv V resv' viewv'.
  pose proof (mpc_and_spec cfg mzd_copy n res first second r view
                (Z.of_nat k) buffer ltac:(lia) Hres Hf Hs Hr Hv Hb) as EP.
  cbv zeta in EP. fold P in EP.
  change ((0 + 1) mod 3)%nat with 1%nat in EP.
  change ((1 + 1) mod 3)%nat with 2%nat in EP.
  set (G0 := and_gate_words first second r 0 1) in *.
  set (G1 := and_gate_words first second r 1 2) in *.
  destruct (arr3_inv _ _ Hres) as (x0 & x1 & x2 & Ex & X0 & X1 & X2).
  destruct (arr3_inv _ _ Hv) as (v0 & v1 & v2 & Ev & V0 & V1 & V2).
  pose proof (vec_rawb_pos _ _ X0) as Hn.
  pose proof (pair_okb_of_arr _ _ Hf) as Pf.
  pose proof (pair_okb_of_arr _ _ Hs) as Ps.
  pose proof (pair_okb_of_arr _ _ Hr) as Pr.
  assert (WG0 : vwords n G0).
  { destruct (arr3_inv _ _ Hf) as (? & ? & ? & Ea & ? & ? & ?).
    destruct (arr3_inv _ _ Hs) as (? & ? & ? & Eb & ? & ? & ?).
    destruct (arr3_inv _ _ Hr) as (? & ? & ? & Er & ? & ? & ?).
    subst G0. apply vwords_and_gate; rewrite ?Ea, ?Eb, ?Er; assumption. }
  assert (WG1 : vwords n G1).
  { destruct (arr3_inv _ _ Hf) as (? & ? & ? & Ea & ? & ? & ?).
    destruct (arr3_inv _ _ Hs) as (? & ? & ? & Eb & ? & ? & ?).
    destruct (arr3_inv _ _ Hr) as (? & ? & ? & Er & ? & ? & ?).
    subst G1. apply vwords_and_gate; rewrite ?Ea, ?Eb, ?Er; assumption. }
  assert (S1 : vwords n (shift_right_words G1 (Z.of_nat k)))
    by (apply vwords_shift_right; [assumption|lia|assumption]).
  assert (Rp0 : ix resp 0 = set_row x0 0 G0)
    by (subst resp; rewrite EP, Ex; reflexivity).
  assert (Rp1 : ix resp 1 = set_row x1 0 G1)
    by (subst resp; rewrite EP, Ex; reflexivity).
  assert (Vp0 : ix (s viewp) 0
                = set_row v0 0 (zipw Z.lxor (row v0 0)
                                  (shift_right_words G0 (Z.of_nat k))))
    by (subst viewp; rewrite EP, Ev; reflexivity).
  assert (Vp1 : ix (s viewp) 1
                = set_row v1 0 (zipw Z.lxor (row v1 0)
                                  (shift_right_words G1 (Z.of_nat k))))
    by (subst viewp; rewrite EP, Ev; reflexivity).
  assert (Pv : pair_okb n (s viewv) = true).
  { subst viewv. unfold pair_okb. cbn [s ix nth]. fold (ix (s view) 0).
    fold (ix (s viewp) 1). rewrite Vp1, Ev. cbn [ix nth]. rewrite V0.
    cbn [andb]. apply vec_okb_set_row; [apply vec_okb_raw; assumption|].
    apply vwords_zipw_lxor; auto using vec_okb_row. }
  pose proof (mpc_and_verify_spec cfg mzd_copy n resv first second r viewv
                mask (Z.of_nat k) bufferv ltac:(lia) Hresv Pf Ps Pr Pv Hm Hbv)
    as EV.
  cbv zeta in EV. fold V in EV. fold G0 in EV.
  unfold pair_rawb in Hresv. apply Bool.andb_true_iff in Hresv.
  destruct Hresv as [Y0 Y1].
  pose proof (ix_rawb_lt _ _ _ Y0) as LY0.
  pose proof (ix_rawb_lt _ _ _ Y1) as LY1.
  assert (Sv0 : ix (s viewv) 0 = v0)
    by (subst viewv; cbn [s ix nth]; rewrite Ev; reflexivity).
  assert (Sv1 : ix (s viewv) 1 = ix (s viewp) 1) by reflexivity.
  subst resv' viewv'. rewrite EV. cbn [fst snd s].
  rewrite (ix_upd_other _ 1 0) by lia.
  rewrite !ix_upd_same
    by (rewrite ?length_upd; first [lia | unfold viewv; cbn [s length]; lia]).
  rewrite Rp0, Rp1, Vp0, Sv0, Sv1, Vp1.
  rewrite !(row_set_row n) by auto using vec_okb_raw.
  split; [reflexivity|]. split; [reflexivity|].
  intros Z1 c Hc. rewrite Ev in Z1. cbn [s ix nth] in Z1. rewrite Z1.
  rewrite zipw_lxor_zero_l by (apply vwords_length; exact S1).
  pose proof (vec_okb_row _ _ Hm) as WM.
  assert (Hq : (c / 64 < words_of n)%nat)
    by (unfold words_of, m4ri_radix; dlia).
  rewrite vec_bit_zipw_land
    by (rewrite ?length_shift_left_words, ?(vwords_length _ _ S1),
          ?(vwords_length _ _ WM); exact Hq).
  rewrite vec_bit_shift_left_words
    by (auto; try apply S1; rewrite (vwords_length _ _ S1); dlia).
  rewrite vec_bit_shift_right_words by (auto; apply WG1).
  destruct (Nat.leb_spec k c); cbn [andb]; [|reflexivity].
  replace (c - k + k)%nat with c by lia. reflexivity.
Qed.

End ProverVerifier.

(** ** Further properties: the single-register gates *)

Lemma and_gate_reg_bits a0 aj b0 bj r0 rj :
  Z.lxor (Z.lxor (Z.land (Z.lxor b0 bj) a0) (Z.land aj b0)) (Z.lxor r0 rj)
  = Z.lxor
      (Z.lxor (Z.lxor (Z.lxor (Z.land a0 b0) (Z.land aj b0)) (Z.land a0 bj))
         r0) rj.
Proof.
  apply Z.bits_inj'; intros i Hi.
  rewrite ?Z.lxor_spec, ?Z.land_spec, ?Z.lxor_spec. btauto.
Qed.

Lemma regs_okb_rd bits l :
  0 <= bits -> regs_okb bits l = true -> forall m, reg_ok bits (rd l m).
Proof.
  intros Hb H m. unfold regs_okb in H. rewrite forallb_forall in H.
  unfold reg_ok. destruct (Nat.ltb_spec m (length l)) as [Hm|Hm].
  - specialize (H (rd l m) (nth_In _ _ Hm)).
    apply Bool.andb_true_iff in H. destruct H as [H1 H2].
    apply Z.leb_le in H1. apply Z.ltb_lt in H2. lia.
  - unfold rd. rewrite nth_overflow by exact Hm.
    split; [lia|]. apply Z.pow_pos_nonneg; lia.
Qed.

Section RegisterGate.

Variable mm_shift_right : Z -> Z -> Z.

(** X28: the gates on single registers, [mpc_and_sse] and [mpc_and_avx],
    compute for every party the five-term share of the portable gate,
    whatever the register shift of [simd.h] does: the three results XOR to
    the AND of the two shared values, each view register receives the
    shifted result, and results of [bits]-bit operands fit in [bits]
    bits. *)
Theorem mpc_and_simd_shares :
  forall bits res first second r sm k,
    length res = 3%nat -> length sm = 3%nat -> 0 <= bits ->
    regs_okb bits first = true -> regs_okb bits second = true ->
    regs_okb bits r = true ->
    let res' := fst (mpc_and_simd mm_shift_right res first second r sm k) in
    let sm' := snd (mpc_and_simd mm_shift_right res first second r sm k) in
    (forall m, (m < 3)%nat ->
       rd res' m = and_gate_reg first second r m ((m + 1) mod 3)
       /\ reg_ok bits (rd res' m)
       /\ rd sm' m = Z.lxor (mm_shift_right (rd res' m) k) (rd sm m))
    /\ Z.lxor (Z.lxor (rd res' 0) (rd res' 1)) (rd res' 2)
       = Z.land (Z.lxor (Z.lxor (rd first 0) (rd first 1)) (rd first 2))
           (Z.lxor (Z.lxor (rd second 0) (rd second 1)) (rd second 2)).
Proof.
  intros bits res first second r sm k Lr Ls Hb Hf Hs Hr res' sm'.
  pose proof (regs_okb_rd bits first Hb Hf) as Rf.
  pose proof (regs_okb_rd bits second Hb Hs) as Rs.
  pose proof (regs_okb_rd bits r Hb Hr) as Rr.
  destruct res as [|x0 [|x1 [|x2 [|? ?]]]]; try discriminate.
  destruct sm as [|s0 [|s1 [|s2 [|? ?]]]]; try discriminate.
  subst res' sm'. unfold mpc_and_simd, SC_PROOF.
  cbn [fold_left seq].
  change ((0 + 1) mod 3)%nat with 1%nat.
  change ((1 + 1) mod 3)%nat with 2%nat.
  change ((2 + 1) mod 3)%nat with 0%nat.
  cbv zeta. cbn [upd rd nth fst snd].
  fold (rd first 0) (rd first 1) (rd first 2).
  fold (rd second 0) (rd second 1) (rd second 2).
  fold (rd r 0) (rd r 1) (rd r 2).
  rewrite !and_gate_reg_bits.
  assert (RO : forall m j, reg_ok bits (and_gate_reg first second r m j)).
  { intros m j. unfold and_gate_reg, reg_ok in *.
    repeat apply fits_lxor; auto;
      apply fits_land_l; auto. }
  split.
  - intros [|[|[|m]]] Hm; try lia.
    + change ((0 + 1) mod 3)%nat with 1%nat.
      split; [reflexivity|]. split; [apply (RO 0%nat 1%nat)|reflexivity].
    + change ((1 + 1) mod 3)%nat with 2%nat.
      split; [reflexivity|]. split; [apply (RO 1%nat 2%nat)|reflexivity].
    + change ((2 + 1) mod 3)%nat with 0%nat.
      split; [reflexivity|]. split; [apply (RO 2%nat 0%nat)|reflexivity].
  - apply and_gate_bits.
Qed.

End RegisterGate.

Section RegisterGates.

Variable mm_shift_right : Z -> Z -> Z.
Variable mm_shift_left : Z -> Z -> Z.

(** X29: the verifier gates on single registers, [mpc_and_verify_sse] and
    [mpc_and_verify_avx], recompute the prover's [res[0]] and view
    register 0 from the same operands, take [res[1]] from view register 1
    (shifted left and masked) and leave that view register as it was. *)
Theorem mpc_and_verify_simd_recomputes_prover :
  forall res resv first second r sm smv mask k,
    length res = 3%nat -> length sm = 3%nat ->
    length resv = 2%nat -> length smv = 2%nat -> rd smv 0 = rd sm 0 ->
    let P := mpc_and_simd mm_shift_right res first second r sm k in
    let V := mpc_and_verify_simd mm_shift_right mm_shift_left resv first
               second r smv mask k in
    rd (fst V) 0 = rd (fst P) 0
    /\ rd (snd V) 0 = rd (snd P) 0
    /\ rd (fst V) 1 = Z.land (mm_shift_left (rd smv 1) k) mask
    /\ rd (snd V) 1 = rd smv 1.
Proof.
  intros res resv first second r sm smv mask k Lr Ls Lrv Lsv E0 P V.
  destruct res as [|x0 [|x1 [|x2 [|? ?]]]]; try discriminate.
  destruct sm as [|s0 [|s1 [|s2 [|? ?]]]]; try discriminate.
  destruct resv as [|y0 [|y1 [|? ?]]]; try discriminate.
  destruct smv as [|t0 [|t1 [|? ?]]]; try discriminate.
  cbn [rd nth] in E0. subst t0.
  subst P V. unfold mpc_and_simd, mpc_and_verify_simd, SC_PROOF, SC_VERIFY.
  cbn [fold_left seq Nat.sub].
  change ((0 + 1) mod 3)%nat with 1%nat.
  change ((1 + 1) mod 3)%nat with 2%nat.
  change ((2 + 1) mod 3)%nat with 0%nat.
  cbv zeta. cbn [upd rd nth fst snd Nat.add].
  repeat split; reflexivity.
Qed.

End RegisterGates.

(** ** Further properties: the comparison *)

Lemma words_equal_spec n i f s :
  words_equal n i f s = true
  <-> forall j, (i <= j < i + n)%nat -> rd f j = rd s j.
Proof.
  revert i; induction n as [|n IH]; intros i; cbn [words_equal].
  - split; [intros _ j Hj; lia|reflexivity].
  - destruct (Z.eqb_spec (rd f i) (rd s i)) as [E|E].
    + rewrite IH. split.
      * intros H j Hj. destruct (Nat.eq_dec i j) as [<-|Hne]; [exact E|].
        apply H. lia.
      * intros H j Hj. apply H. lia.
    + split; [discriminate|]. intros H. exfalso. apply E, H. lia.
Qed.

(** The register loop either finds a difference in the words it scans or
    stops with fewer than [bound] words left and every scanned word
    equal. *)
Lemma lanes_equal_spec lane bound fuel w i f s :
  (1 <= lane <= bound)%nat -> (bound <= w)%nat -> (w <= fuel)%nat ->
  match lanes_equal lane bound fuel w i f s with
  | None => exists j, (i <= j < i + w)%nat /\ rd f j <> rd s j
  | Some (w', i') =>
      (w' + i' = w + i)%nat /\ (i <= i')%nat
      /\ forall j, (i <= j < i')%nat -> rd f j = rd s j
  end.
Proof.
  intros Hl. revert w i; induction fuel as [|fuel IH]; intros w i Hb Hf.
  - lia.
  - cbn [lanes_equal].
    destruct (words_equal lane i f s) eqn:E.
    + rewrite words_equal_spec in E.
      destruct (Nat.leb_spec bound (w - lane)) as [Hge|Hlt].
      * specialize (IH (w - lane)%nat (i + lane)%nat Hge ltac:(lia)).
        destruct (lanes_equal lane bound fuel (w - lane) (i + lane) f s)
          as [[w' i']|].
        -- destruct IH as (A & B & C). split; [lia|]. split; [lia|].
           intros j Hj. destruct (Nat.ltb_spec j (i + lane)).
           ++ apply E. lia.
           ++ apply C. lia.
        -- destruct IH as (j & Hj & Hne). exists j. split; [lia|exact Hne].
      * split; [lia|]. split; [lia|]. intros j Hj. apply E. lia.
    + assert (N : ~ forall j, (i <= j < i + lane)%nat -> rd f j = rd s j)
        by (rewrite <- words_equal_spec, E; discriminate).
      clear E.
      assert (K : forall q,
                 (q <= lane)%nat ->
                 ~ (forall j, (i <= j < i + q)%nat -> rd f j = rd s j) ->
                 exists j, (i <= j < i + w)%nat /\ rd f j <> rd s j).
      { clear N. induction q as [|q IHq]; intros Hq N.
        - exfalso. apply N. intros j Hj. lia.
        - destruct (Z.eq_dec (rd f (i + q)) (rd s (i + q))) as [Eq|Nq].
          + apply IHq; [lia|]. intros H. apply N. intros j Hj.
            destruct (Nat.eq_dec j (i + q)) as [->|]; [exact Eq|].
            apply H. lia.
          + exists (i + q)%nat. split; [lia|exact Nq]. }
      apply (K lane); [lia|]. exact N.
Qed.

Lemma mzd_equal_simd_spec lane bound a b :
  (1 <= lane <= bound)%nat ->
  mzd_equal_simd lane bound a b = true
  <-> forall j, (j < width a)%nat -> rd (row a 0) j = rd (row b 0) j.
Proof.
  intros Hl. unfold mzd_equal_simd.
  destruct (Nat.leb_spec bound (width a)) as [Hb|Hb].
  - pose proof (lanes_equal_spec lane bound (width a) (width a) 0
                  (row a 0) (row b 0) Hl Hb (le_n _)) as H.
    destruct (lanes_equal lane bound (width a) (width a) 0 (row a 0) (row b 0))
      as [[w' i']|].
    + destruct H as (A & B & C). rewrite words_equal_spec. split.
      * intros H j Hj. destruct (Nat.ltb_spec j i').
        -- apply C. lia.
        -- apply H. lia.
      * intros H j Hj. apply H. lia.
    + destruct H as (j & Hj & Hne). split; [discriminate|].
      intros H. exfalso. apply Hne, H. lia.
  - rewrite words_equal_spec. split; intros H j Hj; apply H; lia.
Qed.

(** X30: in a build with the vector paths and on a CPU with SSE,
    [mzd_local_equal] does not reach m4ri's comparison: it is true exactly
    when the two matrices have the same numbers of rows and columns and
    their first rows agree in each of the [width] words, padding bits
    included.  No other row is read: storing into a row other than the
    first never changes the answer. *)
Theorem mzd_local_equal_compares_first_row :
  forall cfg sse4 mzd_cmp a b,
    WITH_OPT cfg = true -> sse4 || CPU_SUPPORTS_SSE2 cfg = true ->
    (mzd_local_equal cfg sse4 mzd_cmp a b = true
     <-> ncols a = ncols b /\ nrows a = nrows b
         /\ forall j, (j < width a)%nat -> rd (row a 0) j = rd (row b 0) j)
    /\ forall i ws, (1 <= i)%nat ->
         mzd_local_equal cfg sse4 mzd_cmp a (set_row b i ws)
         = mzd_local_equal cfg sse4 mzd_cmp a b.
Proof.
  intros cfg sse4 mzd_cmp a b Ho Hs.
  assert (L2 : (1 <= 2 <= sse_bound)%nat) by (unfold sse_bound; cbn; lia).
  assert (L4 : (1 <= 4 <= avx_bound)%nat) by (unfold avx_bound; cbn; lia).
  assert (K : forall b',
             mzd_local_equal cfg sse4 mzd_cmp a b' = true
             <-> ncols a = ncols b' /\ nrows a = nrows b'
                 /\ forall j, (j < width a)%nat ->
                      rd (row a 0) j = rd (row b' 0) j).
  { intros b'. unfold mzd_local_equal. rewrite Ho. cbn [andb].
    destruct (Nat.eqb_spec (ncols a) (ncols b')) as [Ec|Ec];
      [|cbn [negb orb]; split; [discriminate|tauto]].
    destruct (Nat.eqb_spec (nrows a) (nrows b')) as [Er|Er];
      [|cbn [negb orb]; split; [discriminate|tauto]].
    cbn [negb orb].
    destruct (CPU_SUPPORTS_AVX2 cfg && (256 <=? ncols a)%nat).
    - unfold mzd_equal_avx.
      rewrite (mzd_equal_simd_spec 4 avx_bound) by exact L4. tauto.
    - destruct sse4.
      + unfold mzd_equal_sse41.
        rewrite (mzd_equal_simd_spec 2 sse_bound) by exact L2. tauto.
      + cbn [orb] in Hs. rewrite Hs. unfold mzd_equal_sse.
        rewrite (mzd_equal_simd_spec 2 sse_bound) by exact L2. tauto. }
  split; [apply K|].
  intros i ws Hi.
  assert (R0 : row (set_row b i ws) 0 = row b 0).
  { unfold row, set_row. fields. rewrite nth_upd.
    replace (i =? 0)%nat with false by (symmetry; apply Nat.eqb_neq; lia).
    reflexivity. }
  destruct (mzd_local_equal cfg sse4 mzd_cmp a b) eqn:E.
  - apply K. apply K in E. rewrite R0. exact E.
  - destruct (mzd_local_equal cfg sse4 mzd_cmp a (set_row b i ws)) eqn:E';
      [|reflexivity].
    apply K in E'. rewrite R0 in E'.
    change (ncols (set_row b i ws)) with (ncols b) in E'.
    change (nrows (set_row b i ws)) with (nrows b) in E'.
    apply (K b) in E'. congruence.
Qed.

(** ** Instances of the further properties *)

(** The hypothesis of X1 holds for a width of five words, which is
    rounded up to eight. *)
Lemma calculate_rowstride_is_round_up_witness :
  let rs := calculate_rowstride_rci (Z.of_nat 5) in
  let al := Z.of_nat (calculate_row_alignment 5) in
  rs = Z.of_nat (calculate_rowstride 5)
  /\ Z.of_nat 5 <= rs <= rci_max
  /\ (rs * 8) mod al = 0
  /\ rs * 8 < Z.of_nat 5 * 8 + al
  /\ forall z, rci_max - 3 < z <= rci_max ->
       calculate_rowstride_rci z = - 2 ^ 31.
Proof.
  apply (calculate_rowstride_is_round_up 5). unfold rci_max. lia.
Defined.


(** The hypotheses of X3 hold for a copy of a two-row matrix into a fresh
    matrix of three rows. *)
Lemma mzd_local_copy_rows_witness :
  let d := mzd_local_copy no_copy (Some (mzd_local_init 3 70)) ex_two_rows in
  (forall i : nat,
   (i < nrows ex_two_rows)%nat -> row d i = row ex_two_rows i) /\
  (forall i : nat,
   (nrows ex_two_rows <= i)%nat -> row d i = row (mzd_local_init 3 70) i) /\
  nrows d = nrows (mzd_local_init 3 70) /\
  ncols d = ncols (mzd_local_init 3 70) /\
  (mzd_okb (mzd_local_init 3 70) = true ->
   mzd_okb ex_two_rows = true -> mzd_okb d = true).
Proof.
  apply (mzd_local_copy_rows no_copy (mzd_local_init 3 70) ex_two_rows);
    first [reflexivity | lia | vm_compute; reflexivity | vm_compute; lia].
Defined.

(** The hypotheses of X4 hold for a copy of a two-row matrix of 70 columns. *)
Lemma mzd_local_copy_fresh_witness :
  let d := mzd_local_copy no_copy None ex_two_rows in
  nrows d = nrows ex_two_rows /\
  ncols d = ncols ex_two_rows /\
  (forall i : nat,
   (i < nrows ex_two_rows)%nat -> row d i = row ex_two_rows i) /\
  mzd_okb d = true /\ has_custom_layout d = true.
Proof.
  apply (mzd_local_copy_fresh no_copy ex_two_rows);
    first [reflexivity | lia | vm_compute; reflexivity | vm_compute; lia].
Defined.

(** The hypotheses of X5 hold for two vectors of 70 columns in the optimised
    build. *)
Lemma mzd_xor_cancels_witness :
  row
    (mzd_xor optimised (Some ex_buf)
       (mzd_xor optimised (Some ex_buf) ex_x ex_y) ex_y)
    0 =
  row ex_x 0 /\
  row (mzd_xor optimised (Some ex_buf) ex_x ex_x) 0 = zero_row 70.
Proof.
  apply (mzd_xor_cancels optimised 70 ex_buf ex_buf ex_x ex_y);
    first [reflexivity | lia | vm_compute; reflexivity | vm_compute; lia].
Defined.

(** The hypotheses of X6 hold for three vectors of 70 columns in the portable
    build. *)
Lemma mzd_and_distributes_over_xor_witness :
  row
    (mzd_and portable (Some ex_buf) ex_x
       (mzd_xor portable (Some ex_buf) ex_y ex_z))
    0 =
  row
    (mzd_xor portable (Some ex_buf) (mzd_and portable (Some ex_buf) ex_x ex_y)
       (mzd_and portable (Some ex_buf) ex_x ex_z))
    0 /\
  row (mzd_and portable (Some ex_buf) ex_x ex_x) 0 = row ex_x 0.
Proof.
  apply (mzd_and_distributes_over_xor portable 70 ex_buf ex_buf ex_buf
             ex_buf ex_x ex_y ex_z);
    first [reflexivity | lia | vm_compute; reflexivity | vm_compute; lia].
Defined.

(** The hypotheses of X7 hold for a vector of 70 columns and a shift by 3. *)
Lemma mzd_shift_right_columns_witness :
  let out := mzd_shift_right no_copy ex_buf ex_wide (Z.of_nat 3) in
  vec_okb 70 out = true /\
  (forall c : nat,
   vec_bit (row out 0) c =
   (c + 3 <? 70)%nat && vec_bit (row ex_wide 0) (c + 3)).
Proof.
  apply (mzd_shift_right_columns no_copy 70 ex_buf ex_wide 3);
    first [reflexivity | lia | vm_compute; reflexivity | vm_compute; lia].
Defined.

(** The hypotheses of X8 hold for a vector of 70 columns, a shift by 3 and
    column 72, which lies in the padding. *)
Lemma mzd_shift_left_columns_witness :
  let out := mzd_shift_left no_copy ex_buf ex_wide (Z.of_nat 3) in
  vec_rawb 70 out = true /\
  vec_bit (row out 0) 72 = (3 <=? 72)%nat && vec_bit (row ex_wide 0) (72 - 3).
Proof.
  apply (mzd_shift_left_columns no_copy 70 ex_buf ex_wide 3 72);
    first [reflexivity | lia | vm_compute; reflexivity | vm_compute; lia].
Defined.

(** The hypotheses of X9 hold for a vector of 70 columns and a shift by 3: the
    top three stored bits are clear. *)
Lemma shift_left_then_right_restores_witness :
  row
    (mzd_shift_right no_copy ex_buf
       (mzd_shift_left no_copy ex_buf ex_wide (Z.of_nat 3))
       (Z.of_nat 3))
    0 =
  row ex_wide 0.
Proof.
  apply (shift_left_then_right_restores no_copy 70 ex_buf ex_buf ex_wide 3);
    first [reflexivity | lia | vm_compute; reflexivity | vm_compute; lia].
Defined.

(** The hypotheses of X10 hold for a vector of 70 columns and shifts by 2 and
    by 3. *)
Lemma shifts_compose_witness :
  row
    (mzd_shift_right no_copy ex_buf
       (mzd_shift_right no_copy ex_buf ex_wide (Z.of_nat 2))
       (Z.of_nat 3))
    0 =
  row (mzd_shift_right no_copy ex_buf ex_wide (Z.of_nat (2 + 3))) 0 /\
  row
    (mzd_shift_left no_copy ex_buf
       (mzd_shift_left no_copy ex_buf ex_wide (Z.of_nat 2))
       (Z.of_nat 3))
    0 =
  row (mzd_shift_left no_copy ex_buf ex_wide (Z.of_nat (2 + 3))) 0.
Proof.
  apply (shifts_compose no_copy 70 ex_buf ex_buf ex_buf ex_wide 2 3);
    first [reflexivity | lia | vm_compute; reflexivity | vm_compute; lia].
Defined.

(** The hypotheses of X11 hold for the portable and the optimised build,
    vectors of 70 columns and the 128 x 128 identity. *)
Lemma kernel_same_on_every_build_witness :
  mzd_xor portable (Some ex_buf) ex_x ex_y =
  mzd_xor optimised (Some ex_buf) ex_x ex_y /\
  mzd_and portable (Some ex_buf) ex_x ex_y =
  mzd_and optimised (Some ex_buf) ex_x ex_y /\
  vec_okb 70 (mzd_xor portable (Some ex_buf) ex_x ex_y) = true /\
  vec_okb 70 (mzd_and portable (Some ex_buf) ex_x ex_y) = true /\
  mzd_addmul_v portable ex_acc ex_v (identity_matrix 128) =
  mzd_addmul_v optimised ex_acc ex_v (identity_matrix 128) /\
  mzd_mul_v portable None ex_v (identity_matrix 128) =
  mzd_mul_v optimised None ex_v (identity_matrix 128).
Proof.
  apply (kernel_same_on_every_build portable optimised 70 ex_buf ex_x ex_y
             None ex_acc ex_v (identity_matrix 128));
    first [reflexivity | lia | vm_compute; reflexivity | vm_compute; lia].
Defined.

(** The hypotheses of X12 hold for an accumulator and a vector of 128 columns
    and the 128 x 128 identity. *)
Lemma mzd_addmul_v_adds_product_witness :
  exists c' : mzd_t,
    mzd_addmul_v optimised ex_acc ex_v (identity_matrix 128) = Some c' /\
    vec_okb (ncols (identity_matrix 128)) c' = true /\
    (forall col : nat,
     (col < ncols (identity_matrix 128))%nat ->
     vec_bit (row c' 0) col =
     xorb (vec_bit (row ex_acc 0) col)
       (dot_bit ex_v (identity_matrix 128) col)).
Proof.
  apply (mzd_addmul_v_adds_product optimised ex_acc ex_v (identity_matrix
             128));
    first [reflexivity | lia | vm_compute; reflexivity | vm_compute; lia].
Defined.

(** The hypotheses of X13 hold for the same accumulator, vector and matrix. *)
Lemma mzd_addmul_v_twice_cancels_witness :
  exists c1 : mzd_t,
    mzd_addmul_v optimised ex_acc ex_v (identity_matrix 128) = Some c1 /\
    mzd_addmul_v optimised c1 ex_v (identity_matrix 128) = Some ex_acc.
Proof.
  apply (mzd_addmul_v_twice_cancels optimised ex_acc ex_v (identity_matrix
             128));
    first [reflexivity | lia | vm_compute; reflexivity | vm_compute; lia].
Defined.

(** The hypotheses of X14 hold for two vectors of 64 columns and the 64 x 64
    identity. *)
Lemma mzd_mul_v_additive_witness :
  exists p p1 p2 : mzd_t,
    fst
      (mzd_mul_v portable None
         (mzd_xor portable (Some (mk_vec 64 [0])) (mk_vec 64 [5])
            (mk_vec 64 [9]))
         (identity_matrix 64)) =
    Some p /\
    fst (mzd_mul_v portable None (mk_vec 64 [5]) (identity_matrix 64)) =
    Some p1 /\
    fst (mzd_mul_v portable None (mk_vec 64 [9]) (identity_matrix 64)) =
    Some p2 /\ row p 0 = zipw Z.lxor (row p1 0) (row p2 0).
Proof.
  apply (mzd_mul_v_additive portable (mk_vec 64 [0]) (mk_vec 64 [5]) (mk_vec
             64 [9]) (identity_matrix 64));
    first [reflexivity | lia | vm_compute; reflexivity | vm_compute; lia].
Defined.

(** The hypotheses of X15 hold for a destination of 64 columns that held
    [0xffff]. *)
Lemma mzd_mul_v_overwrites_destination_witness :
  mzd_mul_v portable (Some (set_row (mk_vec 64 [0]) 0 [0xffff]))
    (mk_vec 64 [5]) (identity_matrix 64) =
  mzd_mul_v portable (Some (mk_vec 64 [0])) (mk_vec 64 [5])
    (identity_matrix 64) /\
  exists r f : mzd_t,
    mzd_mul_v portable (Some (mk_vec 64 [0])) (mk_vec 64 [5])
      (identity_matrix 64) =
    (Some r, Some r) /\
    flags r = flags (mk_vec 64 [0]) /\
    rowstride r = rowstride (mk_vec 64 [0]) /\
    vec_okb (ncols (identity_matrix 64)) r = true /\
    mzd_mul_v portable None (mk_vec 64 [5]) (identity_matrix 64) =
    (Some f, None) /\ row f 0 = row r 0.
Proof.
  apply (mzd_mul_v_overwrites_destination portable (mk_vec 64 [0]) [0xffff]
             (mk_vec 64 [5]) (identity_matrix 64));
    first [reflexivity | lia | vm_compute; reflexivity | vm_compute; lia].
Defined.

(** The hypotheses of X16 hold for the shares [ex_a] and a destination that
    held other words. *)
Lemma mpc_reconstruct_from_share_is_xor_witness :
  vec_okb 70
    (mpc_reconstruct_from_share portable None ex_a (fun _ _ : nat => 0)) =
  true /\
  row (mpc_reconstruct_from_share portable None ex_a (fun _ _ : nat => 0)) 0 =
  xor3 ex_a /\
  mpc_reconstruct_from_share portable None ex_a (fun _ _ : nat => 0) =
  mpc_reconstruct_from_share portable None ex_a (fun _ _ : nat => 0x77) /\
  mpc_reconstruct_from_share portable (Some (mk_vec 70 [7; 7])) ex_a
    (fun _ _ : nat => 0) =
  set_row (mk_vec 70 [7; 7]) 0 (xor3 ex_a).
Proof.
  apply (mpc_reconstruct_from_share_is_xor portable 70 (mk_vec 70 [7; 7])
             ex_a (fun _ _ => 0) (fun _ _ => 0x77));
    first [reflexivity | lia | vm_compute; reflexivity | vm_compute; lia].
Defined.

(** The hypotheses of X17 hold for the shares [ex_a] and [ex_b]. *)
Lemma mpc_add_shares_the_sum_witness :
  arr_okb 70 3 (mpc_add portable ex_zero ex_a ex_b 3) = true /\
  xor3 (mpc_add portable ex_zero ex_a ex_b 3) =
  zipw Z.lxor (xor3 ex_a) (xor3 ex_b) /\
  xor3 (mpc_add portable ex_a ex_a ex_b 3) =
  zipw Z.lxor (xor3 ex_a) (xor3 ex_b) /\
  mpc_xor portable ex_zero ex_a ex_b 3 = mpc_add portable ex_zero ex_a ex_b 3.
Proof.
  apply (mpc_add_shares_the_sum portable 70 ex_zero ex_a ex_b);
    first [reflexivity | lia | vm_compute; reflexivity | vm_compute; lia].
Defined.

(** The hypotheses of X18 hold for the shares [ex_a] and the public vector
    [ex_mask]. *)
Lemma mpc_and_const_shares_the_product_witness :
  arr_okb 70 3 (mpc_and_const optimised ex_zero ex_a ex_mask 3) = true /\
  xor3 (mpc_and_const optimised ex_zero ex_a ex_mask 3) =
  zipw Z.land (xor3 ex_a) (row ex_mask 0).
Proof.
  apply (mpc_and_const_shares_the_product optimised 70 ex_zero ex_a ex_mask);
    first [reflexivity | lia | vm_compute; reflexivity | vm_compute; lia].
Defined.

(** The hypotheses of X19 hold for the shares [ex_a], the public vector
    [ex_mask] and [c = sc = 3]. *)
Lemma mpc_const_add_shares_the_sum_witness :
  (3%nat = 0%nat \/ 3%nat = 3%nat ->
   arr_okb 70 3 (mpc_const_add portable ex_a ex_a ex_mask 3 3) = true /\
   xor3 (mpc_const_add portable ex_a ex_a ex_mask 3 3) =
   zipw Z.lxor (xor3 ex_a) (row ex_mask 0)) /\
  (3%nat <> 0%nat ->
   3%nat <> 3%nat -> mpc_const_add portable ex_a ex_a ex_mask 3 3 = ex_a).
Proof.
  apply (mpc_const_add_shares_the_sum portable 70 ex_a ex_mask 3);
    first [reflexivity | lia | vm_compute; reflexivity | vm_compute; lia].
Defined.

(** The hypotheses of X20 hold for shares of 64 columns and the 64 x 64
    identity. *)
Lemma mpc_const_mat_mul_shares_the_product_witness :
  exists p : mzd_t,
    fst
      (mzd_mul_v portable None
         (mpc_reconstruct_from_share portable None ex_s (fun _ _ : nat => 0))
         (identity_matrix 64)) =
    Some p /\
    xor3 (mpc_const_mat_mul portable ex_d (identity_matrix 64) ex_s 3) =
    row p 0 /\
    arr_okb (ncols (identity_matrix 64)) 3
      (mpc_const_mat_mul portable ex_d (identity_matrix 64) ex_s 3) =
    true.
Proof.
  apply (mpc_const_mat_mul_shares_the_product portable ex_d (identity_matrix
             64) ex_s (fun _ _ => 0));
    first [reflexivity | lia | vm_compute; reflexivity | vm_compute; lia].
Defined.

(** The hypotheses of X21 hold for the shares [ex_a] and a shift by 3. *)
Lemma mpc_shifts_share_the_shift_witness :
  xor3 (mpc_shift_right no_copy ex_zero ex_a (Z.of_nat 3) 3) =
  shift_right_words (xor3 ex_a) (Z.of_nat 3) /\
  xor3 (mpc_shift_left no_copy ex_zero ex_a (Z.of_nat 3) 3) =
  shift_left_words (xor3 ex_a) (Z.of_nat 3).
Proof.
  apply (mpc_shifts_share_the_shift no_copy 70 ex_zero ex_a 3);
    first [reflexivity | lia | vm_compute; reflexivity | vm_compute; lia].
Defined.

(** The hypotheses of X22 hold for the first two of three slots. *)
Lemma mpc_copy_slots_witness :
  let out' := mpc_copy no_copy ex_zero ex_a 2 in
  length out' = length ex_zero /\
  (forall i : nat,
   (i < 2)%nat -> ix out' i = set_row (ix ex_zero i) 0 (row (ix ex_a i) 0)) /\
  (forall i : nat, (2 <= i)%nat -> ix out' i = ix ex_zero i).
Proof.
  apply (mpc_copy_slots no_copy 70 2 ex_zero ex_a);
    first [reflexivity | lia | vm_compute; reflexivity | vm_compute; lia].
Defined.

(** The hypotheses of X23 hold for a vector of 70 columns and buffers that
    held [0x77]. *)
Lemma mpc_init_plain_share_vector_copies_witness :
  let sh :=
    mpc_init_plain_share_vector no_copy (mk_vec 70 [0x1234; 0x2b])
      (fun _ _ _ : nat => 0x77)
    in
  arr_okb (ncols (mk_vec 70 [0x1234; 0x2b])) 3 sh = true /\
  (forall i : nat,
   (i < 3)%nat -> row (ix sh i) 0 = row (mk_vec 70 [0x1234; 0x2b]) 0) /\
  xor3 sh = row (mk_vec 70 [0x1234; 0x2b]) 0.
Proof.
  apply (mpc_init_plain_share_vector_copies no_copy (mk_vec 70 [0x1234;
             0x2b]) (fun _ _ _ => 0x77));
    first [reflexivity | lia | vm_compute; reflexivity | vm_compute; lia].
Defined.


(** The hypotheses of X25 hold for three shares of 70 columns. *)
Lemma mpc_init_random_vector_chunks_witness :
  let sh := fst (mpc_init_random_vector 70 3 (fun _ _ _ : nat => 0x77) ex_tape)
    in
  let g' := snd (mpc_init_random_vector 70 3 (fun _ _ _ : nat => 0x77) ex_tape)
    in
  arr_okb 70 3 sh = true /\
  (forall i : nat,
   (i < 3)%nat ->
   row (ix sh i) 0 =
   mask_last 70
     (fst
        (rand_bytes (words_of 70)
           {| tape := tape ex_tape;
              pos := pos ex_tape + i * words_of 70 |}))) /\
  g' = {| tape := tape ex_tape; pos := pos ex_tape + 3 * words_of 70 |}.
Proof.
  apply (mpc_init_random_vector_chunks 70 3 (fun _ _ _ => 0x77) ex_tape);
    first [reflexivity | lia | vm_compute; reflexivity | vm_compute; lia].
Defined.


(** The hypotheses of X27 hold for the shares of the gate examples, a view
    whose slot 1 is zero, and a shift by 3. *)
Lemma mpc_and_verify_recomputes_prover_witness :
  let P :=
    mpc_and portable no_copy ex_zero ex_a ex_b ex_r ex_view0
      (Z.of_nat 3) ex_zero
    in
  let resp := fst (fst P) in
  let viewp := snd (fst P) in
  let viewv := {| s := [ix (s ex_view0) 0; ix (s viewp) 1] |} in
  let V :=
    mpc_and_verify portable no_copy ex_zero ex_a ex_b ex_r viewv ex_mask
      (Z.of_nat 3) ex_zero
    in
  let resv' := fst (fst V) in
  let viewv' := snd (fst V) in
  row (ix resv' 0) 0 = row (ix resp 0) 0 /\
  row (ix (s viewv') 0) 0 = row (ix (s viewp) 0) 0 /\
  (row (ix (s ex_view0) 1) 0 = zero_row 70 ->
   forall c : nat,
   (c < 70)%nat ->
   vec_bit (row (ix resv' 1) 0) c =
   (3 <=? c)%nat && vec_bit (row (ix resp 1) 0) c && vec_bit (row ex_mask 0) c).
Proof.
  apply (mpc_and_verify_recomputes_prover portable no_copy 70 ex_zero
             ex_zero ex_a ex_b ex_r ex_view0 ex_mask 3 ex_zero ex_zero);
    first [reflexivity | lia | vm_compute; reflexivity | vm_compute; lia].
Defined.

(** The hypotheses of X28 hold for registers of 128 bits, with the logical
    right shift for the shift of [simd.h]. *)
Lemma mpc_and_simd_shares_witness :
  let res' := fst (mpc_and_simd Z.shiftr [0; 0; 0] ex_ra ex_rb ex_rr ex_sm 1)
    in
  let sm' := snd (mpc_and_simd Z.shiftr [0; 0; 0] ex_ra ex_rb ex_rr ex_sm 1)
    in
  (forall m : nat,
   (m < 3)%nat ->
   rd res' m = and_gate_reg ex_ra ex_rb ex_rr m ((m + 1) mod 3) /\
   reg_ok 128 (rd res' m) /\
   rd sm' m = Z.lxor (Z.shiftr (rd res' m) 1) (rd ex_sm m)) /\
  Z.lxor (Z.lxor (rd res' 0) (rd res' 1)) (rd res' 2) =
  Z.land (Z.lxor (Z.lxor (rd ex_ra 0) (rd ex_ra 1)) (rd ex_ra 2))
    (Z.lxor (Z.lxor (rd ex_rb 0) (rd ex_rb 1)) (rd ex_rb 2)).
Proof.
  apply (mpc_and_simd_shares Z.shiftr 128 [0; 0; 0] ex_ra ex_rb ex_rr ex_sm
             1);
    first [reflexivity | lia | vm_compute; reflexivity | vm_compute; lia].
Defined.

(** The hypotheses of X29 hold for the same registers, with the logical shifts
    for the shifts of [simd.h]. *)
Lemma mpc_and_verify_simd_recomputes_prover_witness :
  let P := mpc_and_simd Z.shiftr [0; 0; 0] ex_ra ex_rb ex_rr ex_sm 1 in
  let V :=
    mpc_and_verify_simd Z.shiftr Z.shiftl [0; 0] ex_ra ex_rb ex_rr ex_smv 0xff
      1
    in
  rd (fst V) 0 = rd (fst P) 0 /\
  rd (snd V) 0 = rd (snd P) 0 /\
  rd (fst V) 1 = Z.land (Z.shiftl (rd ex_smv 1) 1) 0xff /\
  rd (snd V) 1 = rd ex_smv 1.
Proof.
  apply (mpc_and_verify_simd_recomputes_prover Z.shiftr Z.shiftl [0; 0; 0]
             [0; 0] ex_ra ex_rb ex_rr ex_sm ex_smv 0xff 1);
    first [reflexivity | lia | vm_compute; reflexivity | vm_compute; lia].
Defined.

(** The hypotheses of X30 hold for the optimised build on a CPU with SSE4.1
    and two vectors of 70 columns. *)
Lemma mzd_local_equal_compares_first_row_witness :
  (mzd_local_equal optimised true (fun _ _ : mzd_t => 1) ex_x ex_y = true <->
   ncols ex_x = ncols ex_y /\
   nrows ex_x = nrows ex_y /\
   (forall j : nat,
    (j < width ex_x)%nat -> rd (row ex_x 0) j = rd (row ex_y 0) j)) /\
  (forall (i : nat) (ws : list Z),
   (1 <= i)%nat ->
   mzd_local_equal optimised true (fun _ _ : mzd_t => 1) ex_x
     (set_row ex_y i ws) =
   mzd_local_equal optimised true (fun _ _ : mzd_t => 1) ex_x ex_y).
Proof.
  apply (mzd_local_equal_compares_first_row optimised true (fun _ _ => 1)
             ex_x ex_y);
    first [reflexivity | lia | vm_compute; reflexivity | vm_compute; lia].
Defined.
